(** * Reddit topic scraper: model of [scraper/reddit_public_scrape.py]

    The development embeds the scraper's pure helpers (hashtag and mention
    extraction, the schema transformer), its retrying HTTP fetch, the
    per-query pagination loop, the cross-query deduplication of the main
    script and the two file writers, and proves the properties the
    specification states about them. *)

From Stdlib Require Import ZArith NArith Lia Ascii String List Sorted.
From Stdlib Require Import Strings.Byte DecimalString DecimalPos DecimalZ.
From stdpp Require Import base decidable option list sorting gmap sets.

Local Open Scope Z_scope.

(** ** Python strings

    A Python [str] is a sequence of Unicode code points. *)

Abbreviation pystr := (list N).

(** A literal written in the source, given here by its ASCII text. *)
Definition py (s : String.string) : pystr :=
  map N_of_ascii (list_ascii_of_string s).

(** Python compares strings lexicographically by code point. *)
Fixpoint str_leb (a b : pystr) : bool :=
  match a, b with
  | [], _ => true
  | _ :: _, [] => false
  | x :: a', y :: b' =>
      if (x <? y)%N then true
      else if (x =? y)%N then str_leb a' b'
      else false
  end.

Definition str_le (a b : pystr) : Prop := Is_true (str_leb a b).

(** ** The two patterns

    [HASHTAG_RE = (?:^|[^0-9A-Z_])#([A-Z0-9_]+)] and
    [MENTION_RE = (?:^|[^0-9A-Z_])@([A-Z0-9_]+)], both compiled with
    [re.IGNORECASE] on [str] patterns.  Under that flag the class
    [[0-9A-Z_]] contains the ASCII digits, the 52 ASCII letters, the
    underscore and the four letters whose case folding lands in [a-z]:
    U+0130, U+0131, U+017F and U+212A. *)

Definition in_range (lo hi c : N) : bool := ((lo <=? c) && (c <=? hi))%N.

Definition is_word (c : N) : bool :=
  in_range 48 57 c          (* 0-9 *)
  || in_range 65 90 c       (* A-Z *)
  || in_range 97 122 c      (* a-z, by IGNORECASE *)
  || (c =? 95)%N            (* _ *)
  || (c =? 304)%N || (c =? 305)%N || (c =? 383)%N || (c =? 8490)%N.

Definition HASH : N := 35.      (* # *)
Definition AT : N := 64.        (* @ *)
Definition NL : N := 10.        (* line feed *)

(** The greedy group [([A-Z0-9_]+)]: the longest run of class characters at
    the head of [s], and what follows it. *)
Fixpoint word_run (s : pystr) : pystr * pystr :=
  match s with
  | c :: s' =>
      if is_word c then let '(w, rest) := word_run s' in (c :: w, rest)
      else ([], s)
  | [] => ([], [])
  end.

(** [anchor] followed by the group, at the head of [s]. *)
Definition match_tag (anchor : N) (s : pystr) : option (pystr * pystr) :=
  match s with
  | c :: s' =>
      if (c =? anchor)%N then
        match word_run s' with
        | ([], _) => None
        | (w, rest) => Some (w, rest)
        end
      else None
  | [] => None
  end.

(** One attempt of the whole pattern at the current position; [at_start]
    says whether that position is the beginning of the string ([^] without
    [re.MULTILINE]).  The first alternative is tried first; when the rest of
    the pattern fails after it, the engine backtracks into the second one,
    which consumes one character outside the class. *)
Definition match_here (anchor : N) (at_start : bool) (s : pystr)
  : option (pystr * pystr) :=
  let alt2 :=
    match s with
    | c :: s' => if is_word c then None else match_tag anchor s'
    | [] => None
    end in
  if at_start then
    match match_tag anchor s with
    | Some m => Some m
    | None => alt2
    end
  else alt2.

(** [finditer]: scan left to right for the leftmost match, yield its group 1,
    resume at the end of the match.  A match is never empty, so each round
    consumes input; [fuel] bounds the number of rounds. *)
Fixpoint finditer_from (fuel : nat) (anchor : N) (at_start : bool) (s : pystr)
  : list pystr :=
  match fuel with
  | O => []
  | S fuel' =>
      match match_here anchor at_start s with
      | Some (g, rest) => g :: finditer_from fuel' anchor false rest
      | None =>
          match s with
          | [] => []
          | _ :: s' => finditer_from fuel' anchor false s'
          end
      end
  end.

Definition finditer (anchor : N) (s : pystr) : list pystr :=
  finditer_from (S (length s)) anchor true s.

(** [str.lower()] on the characters a group can hold: ASCII capitals move to
    their small letters, U+0130 lowers to "i" followed by U+0307, U+212A
    lowers to "k"; digits, the underscore, small letters, U+0131 and U+017F
    are unchanged. *)
Definition lower_char (c : N) : pystr :=
  if in_range 65 90 c then [(c + 32)%N]
  else if (c =? 304)%N then [105%N; 775%N]
  else if (c =? 8490)%N then [107%N]
  else [c].

Definition lower (s : pystr) : pystr := flat_map lower_char s.

(** [sorted(S)] for a set [S] of strings. *)
Definition sorted (S : gset pystr) : list pystr :=
  merge_sort str_le (elements S).

(** [text or ""] *)
Definition or_empty (text : option pystr) : pystr := default [] text.

Definition extract_with (anchor : N) (text : option pystr) : list pystr :=
  sorted (list_to_set (map lower (finditer anchor (or_empty text)))).

Definition extract_hashtags : option pystr -> list pystr := extract_with HASH.
Definition extract_mentions : option pystr -> list pystr := extract_with AT.

(** ** The schema transformer

    A raw Reddit post is a JSON object.  Each key the transformer reads is
    absent, [null], or holds a value of the type the listing schema gives
    it. *)

Inductive field (A : Type) : Type :=
  | Absent
  | Null
  | Val (a : A).
Arguments Absent {A}.
Arguments Null {A}.
Arguments Val {A} a.

(** [post.get(k)] *)
Definition get {A} (f : field A) : option A :=
  match f with Val a => Some a | _ => None end.

(** [post.get(k, d)] *)
Definition get_default {A} (f : field A) (d : A) : option A :=
  match f with Absent => Some d | Null => None | Val a => Some a end.

Record post : Type := {
  p_name : field pystr;
  p_id : field pystr;
  p_title : field pystr;
  p_selftext : field pystr;
  p_score : field Z;
  p_num_comments : field Z;
  p_created_utc : field Z;      (* epoch seconds *)
  p_subreddit : field pystr;
  p_permalink : field pystr;
  p_url : field pystr;
}.

(** Truth value of an optional string: [None] and [""] are false. *)
Definition truthy (v : option pystr) : bool :=
  match v with Some (_ :: _) => true | _ => false end.

(** [a or b] on optional strings *)
Definition or_else (a b : option pystr) : option pystr :=
  if truthy a then a else b.

(** [v or ""] *)
Definition or_str (v : option pystr) : pystr :=
  if truthy v then default [] v else [].

(** [v or 0] on an optional integer *)
Definition or_zero (v : option Z) : Z :=
  match v with
  | Some n => if n =? 0 then 0 else n
  | None => 0
  end.

(** Characters removed by [str.strip()]. *)
Definition is_space (c : N) : bool :=
  in_range 9 13 c || in_range 28 32 c || (c =? 133)%N || (c =? 160)%N
  || (c =? 5760)%N || in_range 8192 8202 c || (c =? 8232)%N || (c =? 8233)%N
  || (c =? 8239)%N || (c =? 8287)%N || (c =? 12288)%N.

Fixpoint lstrip (s : pystr) : pystr :=
  match s with
  | c :: s' => if is_space c then lstrip s' else s
  | [] => []
  end.

Definition rstrip (s : pystr) : pystr := rev (lstrip (rev s)).

Definition strip (s : pystr) : pystr := rstrip (lstrip s).

(** A normalized record.  [topic_tag] and [engagement] are the two keys the
    main script adds later: [None] there means the key is not set yet.  For
    [post_id], [location], [subreddit] and [url], [None] is Python's
    [None]. *)
Record record : Type := {
  post_id : option pystr;
  platform : pystr;
  text : pystr;
  hashtags : list pystr;
  mentions : list pystr;
  created_at : pystr;
  likes : Z;
  comments : Z;
  shares : Z;
  language : pystr;
  location : option pystr;
  subreddit : option pystr;
  permalink : pystr;
  url : option pystr;
  topic_tag : option pystr;
  engagement : option Z;
}.

Section Scraper.

(** [iso_utc]: the timestamp rendering done by the [datetime] library. *)
Variable iso_utc : Z -> pystr.

Definition to_schema (p : post) : record :=
  let post_id := or_else (get (p_name p)) (get (p_id p)) in
  let title := or_str (get (p_title p)) in
  let body := or_str (get (p_selftext p)) in
  let text :=
    if truthy (Some body) then strip (title ++ [NL; NL] ++ body)
    else strip title in
  let likes := or_zero (get_default (p_score p) 0) in
  let comments := or_zero (get_default (p_num_comments p) 0) in
  {| post_id := post_id;
     platform := py "reddit";
     text := text;
     hashtags := extract_hashtags (Some text);
     mentions := extract_mentions (Some text);
     created_at := iso_utc (or_zero (get_default (p_created_utc p) 0));
     likes := likes;
     comments := comments;
     shares := 0;
     language := py "en";
     location := None;
     subreddit := get (p_subreddit p);
     permalink := py "https://www.reddit.com" ++ or_str (get (p_permalink p));
     url := get (p_url p);
     topic_tag := None;
     engagement := None |}.

End Scraper.

(** ** HTTP: fetch with retry and backoff *)

(** The query parameters of one GET; [rq_restrict_sr] is the [restrict_sr]
    key of a subreddit search, [rq_after] the [after] key once it is set. *)
Record request : Type := {
  rq_url : pystr;
  rq_q : pystr;
  rq_restrict_sr : bool;
  rq_sort : pystr;
  rq_t : pystr;
  rq_limit : Z;
  rq_after : option pystr;
}.

(** The decoded body of a search page: [data.children[*].data] and
    [data.after].  A missing [children] key is the empty list, a missing
    [after] is [None]. *)
Record listing : Type := {
  data_children : list post;
  data_after : option pystr;
}.

(** What the client reads of a response.  A header value arrives decoded
    from Latin-1, one character per byte; [json_body] is [None] when the
    body does not decode. *)
Record response : Type := {
  status_code : Z;
  retry_after : option (list byte);
  json_body : option listing;
}.

Inductive exn : Type :=
  | HTTPError (status : Z)
  | RuntimeError
  | ValueError
  | JSONDecodeError.

Inductive outcome (A : Type) : Type :=
  | Return (a : A)
  | Raise (e : exn).
Arguments Return {A} a.
Arguments Raise {A} e.

(** Observable effects: the requests sent and the sleeps taken.  [Secs n] is
    a backoff of [n] seconds, [SleepS] the inter-page delay [sleep_s]. *)
Inductive delay : Type :=
  | Secs (n : Z)
  | SleepS.

Inductive event : Type :=
  | EGet (rq : request)
  | ESleep (d : delay).

(** The remote end answers the [n]-th request of the run. *)
Definition transport : Type := nat -> request -> response.

Record world : Type := {
  calls : nat;
  log : list event;
}.

Definition world0 : world := {| calls := 0; log := [] |}.

(** [requests.get] *)
Definition requests_get (T : transport) (rq : request) (w : world)
  : response * world :=
  (T (calls w) rq, {| calls := S (calls w); log := log w ++ [EGet rq] |}).

(** [time.sleep] *)
Definition time_sleep (d : delay) (w : world) : world :=
  {| calls := calls w; log := log w ++ [ESleep d] |}.

(** [str.isdigit()] on a Latin-1 string: the ASCII digits and the
    superscripts U+00B2, U+00B3 and U+00B9 are digits; the empty string is
    not. *)
Definition ascii_digit (b : byte) : bool := in_range 48 57 (Byte.to_N b).

Definition isdigit_char (b : byte) : bool :=
  let n := Byte.to_N b in
  ascii_digit b || (n =? 178)%N || (n =? 179)%N || (n =? 185)%N.

Definition isdigit (s : list byte) : bool :=
  match s with
  | [] => false
  | _ => forallb isdigit_char s
  end.

(** [int(s)] for a string that passed [isdigit]: the decimal value, or
    [ValueError] when a superscript occurs. *)
Definition int_of_digits (s : list byte) : option Z :=
  if forallb ascii_digit s then
    Some (fold_left (fun acc b => 10 * acc + (Z.of_N (Byte.to_N b) - 48)) s 0)
  else None.

(** [min(max(v, 2), 60)] *)
Definition clamp (v : Z) : Z := Z.min (Z.max v 2) 60.

(** The sleep chosen on a 429 or 503:
    [int(retry_after) if retry_after and retry_after.isdigit() else 2 ** attempt],
    then clamped. *)
Definition rate_limit_sleep (retry_after : option (list byte)) (attempt : Z)
  : option Z :=
  match retry_after with
  | Some ((_ :: _) as h) =>
      if isdigit h then clamp <$> int_of_digits h
      else Some (clamp (2 ^ attempt))
  | _ => Some (clamp (2 ^ attempt))
  end.

(** [r.raise_for_status()]: an error for a 4xx or 5xx status. *)
Definition raise_for_status (r : response) : option exn :=
  if (400 <=? status_code r) && (status_code r <? 600)
  then Some (HTTPError (status_code r)) else None.

(** The body of [for attempt in range(max_retries)], over the attempts still
    to come. *)
Fixpoint fetch_attempts (T : transport) (rq : request) (max_retries : Z)
    (attempts : list Z) (w : world) : outcome listing * world :=
  match attempts with
  | [] => (Raise RuntimeError, w)
  | attempt :: later =>
      let '(r, w) := requests_get T rq w in
      if (status_code r =? 429) || (status_code r =? 503) then
        match rate_limit_sleep (retry_after r) attempt with
        | Some sleep_for =>
            fetch_attempts T rq max_retries later (time_sleep (Secs sleep_for) w)
        | None => (Raise ValueError, w)
        end
      else if (status_code r =? 403) && (attempt <? max_retries - 1) then
        let sleep_for := Z.min (2 ^ attempt) 30 in
        fetch_attempts T rq max_retries later (time_sleep (Secs sleep_for) w)
      else
        match raise_for_status r with
        | Some e => (Raise e, w)
        | None =>
            match json_body r with
            | Some data => (Return data, w)
            | None => (Raise JSONDecodeError, w)
            end
        end
  end.

Definition fetch_json (T : transport) (rq : request) (max_retries : Z)
    (w : world) : outcome listing * world :=
  fetch_attempts T rq max_retries (seqZ 0 max_retries) w.

(** ** Search: the per-query pagination loop *)

Section Paging.

Variable iso_utc : Z -> pystr.

(** The inner [for child in children] loop: append the transformed child,
    stop once [limit_total] rows are held. *)
Fixpoint append_children (limit_total : Z) (all_rows : list record)
    (cs : list post) : list record :=
  match cs with
  | [] => all_rows
  | child :: cs' =>
      let all_rows := all_rows ++ [to_schema iso_utc child] in
      if Z.of_nat (length all_rows) >=? limit_total then all_rows
      else append_children limit_total all_rows cs'
  end.

(** [params["after"] = after], done only [if after]. *)
Definition set_after (params : request) (after : option pystr) : request :=
  if truthy after then
    {| rq_url := rq_url params; rq_q := rq_q params;
       rq_restrict_sr := rq_restrict_sr params; rq_sort := rq_sort params;
       rq_t := rq_t params; rq_limit := rq_limit params; rq_after := after |}
  else params.

(** The [while len(all_rows) < limit_total] loop.  Each round is one pass
    through the loop body; [None] means the rounds allowed by [fuel] were
    used up before the loop left. *)
Fixpoint search_loop (fuel : nat) (T : transport) (limit_total : Z)
    (params : request) (all_rows : list record) (after : option pystr)
    (w : world) : option (outcome (list record) * world) :=
  if Z.of_nat (length all_rows) <? limit_total then
    match fuel with
    | O => None
    | S fuel' =>
        let params := set_after params after in
        match fetch_json T params 6 w with
        | (Raise e, w) => Some (Raise e, w)
        | (Return data, w) =>
            match data_children data with
            | [] => Some (Return all_rows, w)
            | cs =>
                let all_rows := append_children limit_total all_rows cs in
                let after := data_after data in
                if truthy after then
                  search_loop fuel' T limit_total params all_rows after
                    (time_sleep SleepS w)
                else Some (Return all_rows, w)
            end
        end
    end
  else Some (Return all_rows, w).

(** The request of the first page: a subreddit search when [subreddit] is
    given and not empty, a sitewide search otherwise. *)
Definition first_request (query : pystr) (subreddit : option pystr)
    (sort t : pystr) : request :=
  if truthy subreddit then
    {| rq_url := py "https://www.reddit.com/r/" ++ default [] subreddit
                 ++ py "/search.json";
       rq_q := query; rq_restrict_sr := true; rq_sort := sort; rq_t := t;
       rq_limit := 100; rq_after := None |}
  else
    {| rq_url := py "https://www.reddit.com/search.json";
       rq_q := query; rq_restrict_sr := false; rq_sort := sort; rq_t := t;
       rq_limit := 100; rq_after := None |}.

Definition search_reddit_fuel (fuel : nat) (T : transport) (query : pystr)
    (limit_total : Z) (subreddit : option pystr) (sort t : pystr) (w : world)
  : option (outcome (list record) * world) :=
  search_loop fuel T limit_total (first_request query subreddit sort t)
    [] None w.

(** Every pass that does not leave the loop adds a row, so [limit_total]
    passes are enough. *)
Definition search_reddit (T : transport) (query : pystr) (limit_total : Z)
    (subreddit : option pystr) (sort t : pystr) (w : world)
  : option (outcome (list record) * world) :=
  search_reddit_fuel (Z.to_nat limit_total) T query limit_total subreddit
    sort t w.

End Paging.

(** ** Main: accumulation across queries *)

(** The state of the run: [combined] and [seen_ids]. *)
Record acc : Type := {
  combined : list record;
  seen_ids : gset pystr;
}.

Definition acc0 : acc := {| combined := []; seen_ids := ∅ |}.

(** [r["topic_tag"] = tag; r["engagement"] = int(likes or 0) + int(comments or 0)] *)
Definition tagged (tag : pystr) (r : record) : record :=
  {| post_id := post_id r; platform := platform r; text := text r;
     hashtags := hashtags r; mentions := mentions r;
     created_at := created_at r; likes := likes r; comments := comments r;
     shares := shares r; language := language r; location := location r;
     subreddit := subreddit r; permalink := permalink r; url := url r;
     topic_tag := Some tag;
     engagement := Some (or_zero (Some (likes r)) + or_zero (Some (comments r))) |}.

(** One pass of [for r in rows]. *)
Definition dedup_step (tag : pystr) (st : acc) (r : record) : acc :=
  match post_id r with
  | Some ((_ :: _) as pid) =>
      if decide (pid ∈ seen_ids st) then st
      else {| combined := combined st ++ [tagged tag r];
              seen_ids := seen_ids st ∪ {[ pid ]} |}
  | _ => st
  end.

Definition dedup_rows (tag : pystr) (rows : list record) (st : acc) : acc :=
  fold_left (dedup_step tag) rows st.

(** The rows of every query, in the order the queries ran. *)
Definition accumulate (batches : list (pystr * list record)) (st : acc) : acc :=
  fold_left (fun st b => dedup_rows (fst b) (snd b) st) batches st.

Section Main.

Variable iso_utc : Z -> pystr.

(** [for tag, q in topics.items()]: search, then accumulate.  An exception
    raised by a search is not caught and ends the run. *)
Fixpoint run_topics (T : transport) (limit_per_topic : Z) (sort t : pystr)
    (topics : list (pystr * pystr)) (st : acc) (w : world)
  : option (outcome acc * world) :=
  match topics with
  | [] => Some (Return st, w)
  | (tag, q) :: topics' =>
      match search_reddit iso_utc T q limit_per_topic None sort t w with
      | None => None
      | Some (Raise e, w) => Some (Raise e, w)
      | Some (Return rows, w) =>
          run_topics T limit_per_topic sort t topics' (dedup_rows tag rows st) w
      end
  end.

End Main.

(** ** Output: JSONL and CSV

    The writers are followed up to what they hand over: the text given to the
    file object for the JSONL file, the rows given to [csv.DictWriter] for the
    CSV file. *)

(** [sep.join(parts)] *)
Fixpoint join (sep : pystr) (parts : list pystr) : pystr :=
  match parts with
  | [] => []
  | [x] => x
  | x :: rest => x ++ sep ++ join sep rest
  end.

(** [str(n)] for an integer *)
Definition str_of_int (n : Z) : pystr := py (NilZero.string_of_int (Z.to_int n)).

(** A record is a Python dict; [items] lists its keys and values in
    insertion order, the order [json.dumps] walks them in. *)
Inductive jval : Type :=
  | JNull
  | JInt (n : Z)
  | JStr (s : pystr)
  | JList (l : list pystr).

Definition jopt (v : option pystr) : jval :=
  match v with Some s => JStr s | None => JNull end.

Definition items (r : record) : list (String.string * jval) :=
  [ ("post_id"%string, jopt (post_id r));
    ("platform"%string, JStr (platform r));
    ("text"%string, JStr (text r));
    ("hashtags"%string, JList (hashtags r));
    ("mentions"%string, JList (mentions r));
    ("created_at"%string, JStr (created_at r));
    ("likes"%string, JInt (likes r));
    ("comments"%string, JInt (comments r));
    ("shares"%string, JInt (shares r));
    ("language"%string, JStr (language r));
    ("location"%string, jopt (location r));
    ("subreddit"%string, jopt (subreddit r));
    ("permalink"%string, JStr (permalink r));
    ("url"%string, jopt (url r)) ]
  ++ match topic_tag r with Some tg => [("topic_tag"%string, JStr tg)] | None => [] end
  ++ match engagement r with Some e => [("engagement"%string, JInt e)] | None => [] end.

(** [d.get(k)] on a dict given by its items *)
Fixpoint dict_get {V} (k : String.string) (d : list (String.string * V)) : option V :=
  match d with
  | [] => None
  | (k', v) :: d' => if String.eqb k k' then Some v else dict_get k d'
  end.

(** The [json] encoder with [ensure_ascii=False]: inside a string the quote,
    the backslash and the control characters below U+0020 are escaped,
    everything else is copied. *)
Definition hex_digit (n : N) : N := if (n <? 10)%N then (48 + n)%N else (87 + n)%N.

Definition escape_char (c : N) : pystr :=
  if (c =? 34)%N then [92; 34]%N            (* quote *)
  else if (c =? 92)%N then [92; 92]%N       (* backslash *)
  else if (c =? 10)%N then [92; 110]%N      (* \n *)
  else if (c =? 13)%N then [92; 114]%N      (* \r *)
  else if (c =? 9)%N then [92; 116]%N       (* \t *)
  else if (c =? 8)%N then [92; 98]%N        (* \b *)
  else if (c =? 12)%N then [92; 102]%N      (* \f *)
  else if (c <? 32)%N then
    [92; 117; 48; 48; hex_digit (c / 16); hex_digit (c mod 16)]%N
  else [c].

Definition dumps_str (s : pystr) : pystr :=
  [34%N] ++ flat_map escape_char s ++ [34%N].

Definition dumps_val (v : jval) : pystr :=
  match v with
  | JNull => py "null"
  | JInt n => str_of_int n
  | JStr s => dumps_str s
  | JList l => py "[" ++ join (py ", ") (map dumps_str l) ++ py "]"
  end.

Definition dumps_item (kv : String.string * jval) : pystr :=
  dumps_str (py (fst kv)) ++ py ": " ++ dumps_val (snd kv).

(** [json.dumps(r, ensure_ascii=False)] *)
Definition dumps (r : record) : pystr :=
  py "{" ++ join (py ", ") (map dumps_item (items r)) ++ py "}".

(** The text [save_jsonl] writes to its file. *)
Definition save_jsonl (rows : list record) : pystr :=
  flat_map (fun r => dumps r ++ [NL]) rows.

(** The column order of the CSV file. *)
Definition fieldnames : list String.string :=
  [ "post_id"; "platform"; "text"; "hashtags"; "mentions"; "created_at";
    "likes"; "comments"; "shares"; "language"; "location"; "subreddit";
    "permalink"; "url"; "topic_tag"; "engagement" ]%string.

(** A value handed to the CSV writer. *)
Inductive cell : Type :=
  | CNone
  | CInt (n : Z)
  | CStr (s : pystr).

Definition copt (v : option pystr) : cell :=
  match v with Some s => CStr s | None => CNone end.

(** [row = dict(r)] after [row["hashtags"]] and [row["mentions"]] have been
    replaced by their comma-joined text. *)
Definition csv_dict (r : record) : list (String.string * cell) :=
  [ ("post_id"%string, copt (post_id r));
    ("platform"%string, CStr (platform r));
    ("text"%string, CStr (text r));
    ("hashtags"%string, CStr (join (py ",") (hashtags r)));
    ("mentions"%string, CStr (join (py ",") (mentions r)));
    ("created_at"%string, CStr (created_at r));
    ("likes"%string, CInt (likes r));
    ("comments"%string, CInt (comments r));
    ("shares"%string, CInt (shares r));
    ("language"%string, CStr (language r));
    ("location"%string, copt (location r));
    ("subreddit"%string, copt (subreddit r));
    ("permalink"%string, CStr (permalink r));
    ("url"%string, copt (url r)) ]
  ++ match topic_tag r with Some tg => [("topic_tag"%string, CStr tg)] | None => [] end
  ++ match engagement r with Some e => [("engagement"%string, CInt e)] | None => [] end.

(** What the writer puts in a field: nothing for [None] (also the result of
    [row.get(k)] on a key that is not set), the text of a string, the
    decimal form of an integer. *)
Definition cell_text (c : option cell) : pystr :=
  match c with
  | None | Some CNone => []
  | Some (CInt n) => str_of_int n
  | Some (CStr s) => s
  end.

(** [w.writerow({k: row.get(k) for k in fieldnames})] *)
Definition writerow (row : list (String.string * cell)) : list pystr :=
  map (fun k => cell_text (dict_get k row)) fieldnames.

(** The rows [save_csv] hands to the writer: the header, then one row per
    record. *)
Definition save_csv (rows : list record) : list (list pystr) :=
  map py fieldnames :: map (fun r => writerow (csv_dict r)) rows.

(** The lines of a text, each ended by a line feed; characters after the
    last line feed form no line. *)
Fixpoint lines_from (cur : pystr) (s : pystr) : list pystr :=
  match s with
  | [] => []
  | c :: s' =>
      if (c =? NL)%N then rev cur :: lines_from [] s'
      else lines_from (c :: cur) s'
  end.

Definition lines (s : pystr) : list pystr := lines_from [] s.

(** ** The lexical rule, as the specification words it *)

(** Strictly below in Python's order. *)
Definition str_lt (a b : pystr) : Prop := str_le a b ∧ a ≠ b.

(** [t == t.lower()] and no ASCII capital occurs in [t]. *)
Definition lowercase (t : pystr) : Prop :=
  lower t = t ∧ Forall (λ c, in_range 65 90 c = false) t.

(** The characters a lower-cased token can hold: digits, the underscore, the
    ASCII small letters, U+0131, U+017F, and U+0307 (left by U+0130). *)
Definition token_char (c : N) : bool :=
  in_range 48 57 c || (c =? 95)%N || in_range 97 122 c
  || (c =? 305)%N || (c =? 383)%N || (c =? 775)%N.

(** What may follow a token: the end of the text or a character outside the
    class. *)
Definition ends_run (rest : pystr) : Prop :=
  match rest with [] => True | c :: _ => is_word c = false end.

(** [w] is a token of [s]: the anchor stands at the start of [s] or right
    after a character outside the class, and [w] is the non-empty, maximal
    run of class characters that follows the anchor. *)
Definition tag_at (anchor : N) (s w : pystr) : Prop :=
  ∃ pre rest,
    s = pre ++ anchor :: w ++ rest
    ∧ match last pre with None => True | Some c => is_word c = false end
    ∧ w ≠ []
    ∧ Forall (λ c, is_word c = true) w
    ∧ ends_run rest.

(** The anchor and its token stand at the head of [s]. *)
Definition starts_tag (anchor : N) (s w rest : pystr) : Prop :=
  s = anchor :: w ++ rest ∧ w ≠ [] ∧ Forall (λ c, is_word c = true) w ∧ ends_run rest.

(** The tokens a scan of [s] can reach, position by position; the flag says
    whether the scan stands at the start of the text. *)
Inductive found (anchor : N) : bool → pystr → pystr → Prop :=
  | found_start s w rest :
      starts_tag anchor s w rest → found anchor true s w
  | found_after b c s w rest :
      is_word c = false → starts_tag anchor s w rest → found anchor b (c :: s) w
  | found_later b c s w :
      found anchor false s w → found anchor b (c :: s) w.

(** ** Deduplication, as the specification words it *)

(** The rows of a run in processing order, each with the tag of the query
    that returned it. *)
Definition occurrences (batches : list (pystr * list record))
  : list (pystr * record) :=
  flat_map (λ b, map (λ r, (fst b, r)) (snd b)) batches.

(** [r] carries the identifier [pid]. *)
Definition has_id (pid : option pystr) (r : record) : bool :=
  bool_decide (post_id r = pid).

(** The first row of the run that carries [pid], with its tag. *)
Definition first_with (pid : option pystr) (os : list (pystr * record))
  : option (pystr * record) :=
  find (λ o, has_id pid (snd o)) os.

(** The invariant of the accumulation: identifiers in [combined] are
    pairwise distinct, present, not empty, and recorded in [seen_ids]. *)
Definition acc_ok (st : acc) : Prop :=
  NoDup (map post_id (combined st))
  ∧ ∀ r, r ∈ combined st →
      ∃ pid, post_id r = Some pid ∧ pid ≠ [] ∧ pid ∈ seen_ids st.

(** ** Retry policy, as the specification words it *)

(** A rate-limit response that carries no [Retry-After] header. *)
Definition rate_limited_plain (r : response) : Prop :=
  (status_code r = 429 ∨ status_code r = 503) ∧ retry_after r = None.

(** A header value that is a decimal number: not empty, ASCII digits only. *)
Definition numeric (h : list byte) : Prop :=
  h ≠ [] ∧ Forall (λ b, ascii_digit b = true) h.

(** The trace of a run of retries: each request is followed by its sleep. *)
Definition retry_trace (rq : request) (sleeps : list Z) : list event :=
  flat_map (λ d, [EGet rq; ESleep (Secs d)]) sleeps.

(** The world after one more request. *)
Definition after_get (rq : request) (w : world) : world :=
  {| calls := S (calls w); log := log w ++ [EGet rq] |}.

(** ** Pagination, as the specification words it *)

(** A remote end that answers every request with a page holding at least one
    item and a cursor. *)
Definition endless (T : transport) : Prop :=
  ∀ n rq,
    status_code (T n rq) = 200
    ∧ ∃ d, json_body (T n rq) = Some d
           ∧ data_children d ≠ []
           ∧ truthy (data_after d) = true.

(** The page ends the loop: it holds no items or carries no cursor. *)
Definition last_page (d : listing) : Prop :=
  data_children d = [] ∨ truthy (data_after d) = false.

(** ** Sample data for the worked examples *)

(** A rendering of timestamps for the examples; it is the true one at the
    single timestamp they use. *)
Definition iso_sample (ts : Z) : pystr := py "2024-01-01T00:00:00Z".

Definition sample_post (name id : field pystr) (title : pystr) : post :=
  {| p_name := name; p_id := id; p_title := Val title; p_selftext := Absent;
     p_score := Val 7; p_num_comments := Val 3;
     p_created_utc := Val 1704067200;
     p_subreddit := Val (py "technology");
     p_permalink := Val (py "/r/technology/comments/abc/");
     p_url := Absent |}.

Definition post_abc : post := sample_post (Val (py "t3_abc")) Absent (py "An #AI tool").
Definition post_no_id : post := sample_post Absent Absent (py "no identifier").
Definition post_empty_id : post := sample_post Absent (Val []) (py "empty identifier").

Definition sample_request : request :=
  first_request (py "ai") None (py "top") (py "week").

(** A remote end whose every page holds one post and a cursor. *)
Definition one_post_pages : transport :=
  λ _ _, {| status_code := 200; retry_after := None;
            json_body := Some {| data_children := [post_abc];
                                 data_after := Some (py "t3_abc") |} |}.

(** A remote end that answers every request with the given status, no
    [Retry-After] header and an empty page. *)
Definition always_status (status : Z) : transport :=
  λ _ _, {| status_code := status; retry_after := None;
            json_body := Some {| data_children := []; data_after := None |} |}.

(** A header value given by its ASCII text. *)
Definition header (s : String.string) : list byte := list_byte_of_string s.

(** ** Output, as the specification words it *)

(** The text holds no line feed. *)
Definition no_nl (s : pystr) : Prop := Forall (λ c, c ≠ NL) s.

(** * Further notions for the scraper *)

(** ** Traces of a search *)

(** Requests and sleeps take turns in the trace; the flag says whether a
    request is due next. *)
Fixpoint alternates (expect_get : bool) (l : list event) : bool :=
  match l with
  | [] => true
  | EGet _ :: l' => expect_get && alternates false l'
  | ESleep _ :: l' => negb expect_get && alternates true l'
  end.

(** Two requests of the same search: they differ at most in the cursor. *)
Definition same_query (a b : request) : Prop :=
  rq_url a = rq_url b ∧ rq_q a = rq_q b ∧ rq_restrict_sr a = rq_restrict_sr b
  ∧ rq_sort a = rq_sort b ∧ rq_t a = rq_t b ∧ rq_limit a = rq_limit b.

(** A status on which the fetch tries again. *)
Definition retried_status (s : Z) : Prop := s = 429 ∨ s = 503 ∨ s = 403.

(** What an event of a search may be: a request of that search, a backoff
    between 1 and 60 seconds, or the inter-page delay. *)
Definition search_event (first : request) (e : event) : Prop :=
  match e with
  | EGet rq => same_query rq first
               ∧ (rq = first ∨ truthy (rq_after rq) = true)
  | ESleep (Secs d) => 1 ≤ d ≤ 60
  | ESleep SleepS => True
  end.

(** The identifiers of the rows that carry one, as a set. *)
Definition row_id (r : record) : option pystr :=
  match post_id r with
  | Some (c :: s) => Some (c :: s)
  | _ => None
  end.

Definition ids_of (os : list (pystr * record)) : gset pystr :=
  list_to_set (omap (λ o, row_id (snd o)) os).

(** A remote end that is rate-limited [n] times, then serves a page. *)
Definition limited_then_page (n : nat) (d : listing) : transport :=
  λ i _, if (i <? n)%nat
         then {| status_code := 429; retry_after := None; json_body := None |}
         else {| status_code := 200; retry_after := None; json_body := Some d |}.

(** A remote end whose rate-limit answer carries the given header. *)
Definition limited_with_header (h : list byte) : transport :=
  λ _ _, {| status_code := 429; retry_after := Some h; json_body := None |}.

(** [x] is the tagged transform of a post the remote end [T] sent, for one
    of the topics of [all]. *)
Definition from_remote (iso_utc : Z → pystr) (T : transport)
    (all : list (pystr * pystr)) (x : record) : Prop :=
  ∃ tag q n rq d p,
    (tag, q) ∈ all ∧ json_body (T n rq) = Some d ∧ p ∈ data_children d
    ∧ x = tagged tag (to_schema iso_utc p).

(** ** Trimming *)

(** [s] neither starts nor ends with a character that [strip] removes. *)
Definition trimmed (s : pystr) : Prop :=
  (∀ c rest, s = c :: rest → is_space c = false)
  ∧ (∀ pre c, s = pre ++ [c] → is_space c = false).

(** All of [s] is white space. *)
Definition blank (s : pystr) : Prop := Forall (λ c, is_space c = true) s.

(** ** The shape of a JSON line *)

(** What follows a value inside a JSON object: a comma or the closing
    brace. *)
Definition after_value (X : pystr) : Prop :=
  ∃ c X', X = c :: X' ∧ (c = 44%N ∨ c = 125%N).

(** The characters of a decimal integer: the digits and the minus sign. *)
Definition is_num_char (c : N) : bool := in_range 48 57 c || (c =? 45)%N.

(** A non-empty string without a comma. *)
Definition comma_free (t : pystr) : Prop := t ≠ [] ∧ Forall (λ c, c ≠ 44%N) t.

(** * The YouTube loaders and the CSV export

    [src/data_ingestion/load.py], [src/data/load.py] and
    [src/data/export.py] are scripts.  Their loops and helpers are modelled
    as functions of what the remote API and the database hand back. *)

(** ** The database: [update_one] with [$set] and [upsert=True] *)

Module Mongo.

(** The values the loaders store.  [BPct num den] is the float
    [round(num / den * 100, 2)], [BDate t] a [datetime]. *)
Inductive bson : Type :=
  | BStr (s : pystr)
  | BInt (n : Z)
  | BList (l : list pystr)
  | BPct (num den : Z)
  | BDate (t : Z).

#[global] Instance bson_eq_dec : EqDecision bson.
Proof. solve_decision. Defined.

(** A document, without the [_id] the server adds; a collection in its
    natural order. *)
Abbreviation doc := (gmap pystr bson).
Abbreviation collection := (list doc).

(** The filter [{k: v}]. *)
Definition matches (k : pystr) (v : bson) (d : doc) : bool :=
  bool_decide (d !! k = Some v).

(** [update_one({k: v}, {"$set": fields}, upsert=True)]: the first document
    that matches gets the fields set, the others it holds are kept; when
    none matches, a document made of the filter and the fields is
    inserted. *)
Fixpoint update_one (k : pystr) (v : bson) (fields : doc) (c : collection)
  : collection :=
  match c with
  | [] => [fields ∪ {[ k := v ]}]
  | d :: c' =>
      if matches k v d then (fields ∪ d) :: c'
      else d :: update_one k v fields c'
  end.

(** [count_documents({})] *)
Definition count_documents (c : collection) : nat := length c.

End Mongo.

(** ** [src/data_ingestion/load.py] *)

Module Ingestion.

Import Mongo.

Definition VIDEOS_PER_QUERY : Z := 200.

Section Words.

(** [\w] in a [str] pattern is every character [str.isalnum()] accepts,
    and the underscore; [isalnum] stands for the Unicode tables. *)
Variable isalnum : N → bool.

Definition is_w (c : N) : bool := isalnum c || (c =? 95)%N.

(** A match that ends: [#] and the word characters [acc] read after it,
    last first.  [\w+] needs one character at least. *)
Definition emit (acc : pystr) : list pystr :=
  match acc with [] => [] | _ => [HASH :: rev acc] end.

(** [re.findall(r'#\w+', s)]: the matches from left to right, each taken
    as long as it can be, the scan resuming where a match ends.  [cur] is
    [Some acc] while a match is under way. *)
Fixpoint findall_from (cur : option pystr) (s : pystr) : list pystr :=
  match s with
  | [] => match cur with Some acc => emit acc | None => [] end
  | c :: s' =>
      let next := if (c =? HASH)%N then Some [] else None in
      match cur with
      | Some acc =>
          if is_w c then findall_from (Some (c :: acc)) s'
          else emit acc ++ findall_from next s'
      | None => findall_from next s'
      end
  end.

Definition findall (s : pystr) : list pystr := findall_from None s.

Definition extract_hashtags (text : pystr) : pystr :=
  join (py ",") (findall text).

(** [f"{title}. {description}"] *)
Definition full_text (title description : pystr) : pystr :=
  title ++ py ". " ++ description.

(** The hashtags cell of a row: the hashtags of the text, or, when there
    are none and the snippet has tags, the first five tags, each behind a
    [#].  [tags] is [None] when the snippet has no [tags] key. *)
Definition hashtags_cell (title description : pystr)
    (tags : option (list pystr)) : pystr :=
  let hashtags := extract_hashtags (full_text title description) in
  match hashtags, tags with
  | [], Some (t :: ts) =>
      join (py ",") (map (λ tag, HASH :: tag) (take 5 (t :: ts)))
  | _, _ => hashtags
  end.

End Words.

(** *** Collecting the video ids of a query *)

(** A page of search results: the [id.videoId] of its items (no [items]
    key is the empty list) and its [nextPageToken]. *)
Record search_page : Type := {
  page_items : list pystr;
  page_next : option pystr;
}.

(** The remote end: the answer to the [n]-th search, given the query and
    the page token; [None] when [execute()] raises. *)
Definition youtube : Type := nat → pystr → option pystr → option search_page.

Inductive yevent : Type :=
  | YSearch (q : pystr) (page_token : option pystr)
  | YSleep.

Record yworld : Type := {
  ycalls : nat;
  ylog : list yevent;
}.

Definition execute_search (Y : youtube) (q : pystr) (tok : option pystr)
    (w : yworld) : option search_page * yworld :=
  (Y (ycalls w) q tok,
   {| ycalls := S (ycalls w); ylog := ylog w ++ [YSearch q tok] |}).

Definition ysleep (w : yworld) : yworld :=
  {| ycalls := ycalls w; ylog := ylog w ++ [YSleep] |}.

(** What a loop hands back: its value, or the exception of the API
    client, which the script catches per query. *)
Inductive api (A : Type) : Type :=
  | Ok (a : A)
  | ApiError.
Arguments Ok {A} a.
Arguments ApiError {A}.

(** The [while videos_collected < VIDEOS_PER_QUERY] loop.  [None] means
    the rounds allowed by [fuel] were used up before the loop left. *)
Fixpoint search_pages (fuel : nat) (Y : youtube) (q : pystr)
    (all_video_ids : list pystr) (next_page_token : option pystr)
    (videos_collected : Z) (w : yworld)
  : option (api (list pystr) * yworld) :=
  if videos_collected <? VIDEOS_PER_QUERY then
    match fuel with
    | O => None
    | S fuel' =>
        match execute_search Y q next_page_token w with
        | (None, w) => Some (ApiError, w)
        | (Some page, w) =>
            match page_items page with
            | [] => Some (Ok all_video_ids, w)
            | page_video_ids =>
                let all_video_ids := all_video_ids ++ page_video_ids in
                let videos_collected :=
                  videos_collected + Z.of_nat (length page_video_ids) in
                let next_page_token := page_next page in
                if truthy next_page_token then
                  search_pages fuel' Y q all_video_ids next_page_token
                    videos_collected (ysleep w)
                else Some (Ok all_video_ids, w)
            end
        end
    end
  else Some (Ok all_video_ids, w).

(** The ids of one query: every pass that stays in the loop collects an
    id, so [VIDEOS_PER_QUERY] passes are enough. *)
Definition collect_video_ids (Y : youtube) (q : pystr) (w : yworld)
  : option (api (list pystr) * yworld) :=
  search_pages (Z.to_nat VIDEOS_PER_QUERY) Y q [] None 0 w.

(** *** Batches of fifty *)

(** [range(0, n, 50)] *)
Definition batch_starts (n : nat) : list nat :=
  map (λ k, 50 * k)%nat (seq 0 ((n + 49) / 50)).

(** [l[i:j]] for [0 <= i <= j] *)
Definition slice {A} (i j : nat) (l : list A) : list A :=
  take (j - i) (drop i l).

(** [[all_video_ids[i:i+50] for i in range(0, len(all_video_ids), 50)]] *)
Definition batches (all_video_ids : list pystr) : list (list pystr) :=
  map (λ i, slice i (i + 50) all_video_ids)
      (batch_starts (length all_video_ids)).

(** *** One video *)

(** What the script reads of a video resource.  A count is the integer its
    decimal string denotes, [None] when the key is absent. *)
Record video : Type := {
  id : pystr;
  title : pystr;
  description : pystr;
  channelTitle : pystr;
  publishedAt : pystr;
  tags : option (list pystr);
  likeCount : option Z;
  commentCount : option Z;
  viewCount : option Z;
}.

(** [int(statistics.get(k, 0))] *)
Definition count (c : option Z) : Z := default 0 c.

Definition engagement_of (v : video) : bson :=
  let likes := count (likeCount v) in
  let comments := count (commentCount v) in
  let views := count (viewCount v) in
  if 0 <? views then BPct (likes + comments) views else BInt 0.

Definition url_of (v : video) : pystr :=
  py "https://www.youtube.com/watch?v=" ++ id v.

(** The dict [video_doc] built for a video found by [query] at time
    [now], and the document it sets. *)
Definition video_fields (query : pystr) (now : Z) (v : video)
  : list (pystr * bson) :=
    [ (py "platform", BStr (py "YouTube"));
      (py "video_id", BStr (id v));
      (py "title", BStr (title v));
      (py "description", BStr (description v));
      (py "channel", BStr (channelTitle v));
      (py "published_at", BStr (publishedAt v));
      (py "views", BInt (count (viewCount v)));
      (py "likes", BInt (count (likeCount v)));
      (py "comments_count", BInt (count (commentCount v)));
      (py "tags", BList (default [] (tags v)));
      (py "url", BStr (url_of v));
      (py "topic_tag", BStr query);
      (py "engagement", engagement_of v);
      (py "ingested_at", BDate now) ].

Definition video_doc (query : pystr) (now : Z) (v : video) : doc :=
  list_to_map (video_fields query now v).

Section Rows.

Variable isalnum : N → bool.

(** The row appended to the sheet, in the order of [headers]. *)
Definition sheet_row (query : pystr) (v : video) : list bson :=
  [ BStr (id v);
    BStr (py "YouTube");
    BStr (take 500 (full_text (title v) (description v)));
    BStr (hashtags_cell isalnum (title v) (description v) (tags v));
    BStr (publishedAt v);
    BInt (count (likeCount v));
    BInt (count (commentCount v));
    BStr (url_of v);
    BStr (url_of v);
    BStr query;
    engagement_of v ].

(** The sheet, the collection and the counter. *)
Record load_state : Type := {
  ws : list (list bson);
  db : collection;
  total_videos : nat;
}.

(** The body of [for video in videos_response['items']]. *)
Definition save_video (query : pystr) (now : Z) (st : load_state) (v : video)
  : load_state :=
  {| ws := ws st ++ [sheet_row query v];
     db := update_one (py "video_id") (BStr (id v)) (video_doc query now v)
             (db st);
     total_videos := S (total_videos st) |}.

Definition save_videos (query : pystr) (now : Z) (vs : list video)
    (st : load_state) : load_state :=
  fold_left (save_video query now) vs st.

End Rows.

Definition headers : list pystr :=
  [ py "post_id"; py "platform"; py "text"; py "hashtags"; py "created_at";
    py "likes"; py "comments"; py "permalink"; py "url"; py "topic_tag";
    py "engagement" ].

(** The state the query loop starts in: the sheet holds the header row,
    the collection is what the database holds. *)
Definition start (c : collection) : load_state :=
  {| ws := [map BStr headers]; db := c; total_videos := 0 |}.

End Ingestion.

(** ** [src/data/load.py] *)

Module Loader.

Import Mongo.

(** What this script reads of a video resource; the keys it indexes
    without a default are there. *)
Record video : Type := {
  id : pystr;
  title : pystr;
  description : pystr;
  channelTitle : pystr;
  channelId : pystr;
  publishedAt : pystr;
  tags : option (list pystr);
  categoryId : pystr;
  duration : pystr;
  thumbnail : pystr;
  viewCount : option Z;
  likeCount : option Z;
  commentCount : option Z;
}.

Definition count (c : option Z) : Z := default 0 c.

(** The dict [video_doc] of this script, and the document it sets. *)
Definition video_fields (query : pystr) (now : Z) (v : video)
  : list (pystr * bson) :=
    [ (py "platform", BStr (py "YouTube"));
      (py "video_id", BStr (id v));
      (py "title", BStr (title v));
      (py "description", BStr (description v));
      (py "channel", BStr (channelTitle v));
      (py "channel_id", BStr (channelId v));
      (py "published_at", BStr (publishedAt v));
      (py "views", BInt (count (viewCount v)));
      (py "likes", BInt (count (likeCount v)));
      (py "comments_count", BInt (count (commentCount v)));
      (py "tags", BList (default [] (tags v)));
      (py "category_id", BStr (categoryId v));
      (py "duration", BStr (duration v));
      (py "thumbnail", BStr (thumbnail v));
      (py "search_query", BStr query);
      (py "ingested_at", BDate now) ].

Definition video_doc (query : pystr) (now : Z) (v : video) : doc :=
  list_to_map (video_fields query now v).

(** [for video in videos_response['items']]: one upsert per video, the
    counter moving with it. *)
Definition save_video (query : pystr) (now : Z) (st : collection * nat)
    (v : video) : collection * nat :=
  (update_one (py "video_id") (BStr (id v)) (video_doc query now v) (fst st),
   S (snd st)).

End Loader.

(** ** [src/data/export.py] *)

Module CsvExport.

Import Mongo.

(** A document as [find] returns it: a dict, its keys in order. *)
Definition row_dict : Type := list (pystr * bson).

Definition keys (d : row_dict) : list pystr := map fst d.

(** [d.get(k)] *)
Fixpoint dget (k : pystr) (d : row_dict) : option bson :=
  match d with
  | [] => None
  | (k', v) :: d' => if decide (k = k') then Some v else dget k d'
  end.

(** [DictWriter._dict_to_list]: a key outside [fieldnames] is an error, a
    field the dict lacks is the empty string. *)
Definition dict_to_list (fieldnames : list pystr) (d : row_dict)
  : option (list bson) :=
  if forallb (λ k, bool_decide (k ∈ fieldnames)) (keys d)
  then Some (map (λ k, default (BStr []) (dget k d)) fieldnames)
  else None.

(** [writer.writerows(data)]: the rows go out one by one, up to the first
    dict that is refused. *)
Fixpoint writerows (fieldnames : list pystr) (data : list row_dict)
  : list (list bson) * option exn :=
  match data with
  | [] => ([], None)
  | d :: data' =>
      match dict_to_list fieldnames d with
      | None => ([], Some ValueError)
      | Some row =>
          let '(rows, e) := writerows fieldnames data' in (row :: rows, e)
      end
  end.

(** The file written: the header and the rows handed to the writer. *)
Record csv_file : Type := {
  header_row : list pystr;
  data_rows : list (list bson);
}.

(** [export_collection_to_csv], given what [find({}, {'_id': 0})]
    returned: the file, if one was opened, and the value returned
    ([None] is Python's [None]) or the exception raised. *)
Definition export_collection_to_csv (data : list row_dict)
    (fields : option (list pystr)) : option csv_file * outcome (option nat) :=
  match data with
  | [] => (None, Return None)
  | d0 :: _ =>
      let fields :=
        match fields with
        | Some (f :: fs) => f :: fs
        | _ => keys d0
        end in
      let '(rows, e) := writerows fields data in
      (Some {| header_row := fields; data_rows := rows |},
       match e with
       | Some e => Raise e
       | None => Return (Some (length data))
       end)
  end.

End CsvExport.

(** ** Notions for the loaders and the export *)

(** The non-empty item list of a page the remote end [Y] sends for the
    query [q]. *)
Definition sent_page (Y : Ingestion.youtube) (q : pystr) (p : list pystr)
  : Prop :=
  p ≠ [] ∧ ∃ n tok page, Y n q tok = Some page ∧ Ingestion.page_items page = p.

(** What may follow a match of [#\w+]: the end of the text or a character
    that is no word character. *)
Definition ends_w (isalnum : N → bool) (rest : pystr) : Prop :=
  match rest with [] => True | c :: _ => Ingestion.is_w isalnum c = false end.

(** [t] is a [#] of [s] with the non-empty, maximal run of word characters
    that follows it. *)
Definition hashtag_at (isalnum : N → bool) (s t : pystr) : Prop :=
  ∃ pre w rest,
    s = pre ++ HASH :: w ++ rest
    ∧ w ≠ []
    ∧ Forall (λ c, Ingestion.is_w isalnum c = true) w
    ∧ ends_w isalnum rest
    ∧ t = HASH :: w.

(** The ASCII letters and digits, a sample of [str.isalnum]. *)
Definition ascii_alnum (c : N) : bool :=
  in_range 48 57 c || in_range 65 90 c || in_range 97 122 c.

(** The values a collection holds under the key [k], in its order. *)
Definition ids (k : pystr) (c : Mongo.collection) : list Mongo.bson :=
  omap (λ d : Mongo.doc, d !! k) c.

(** [find_one({k: v})]: the first document that matches. *)
Definition find_one (k : pystr) (v : Mongo.bson) (c : Mongo.collection)
  : option Mongo.doc :=
  head (filter (λ d, Mongo.matches k v d = true) c).

(** A sequence of upserts under the key [k]: each is the value of the key
    and the fields set. *)
Definition apply_all (k : pystr) (ups : list (Mongo.bson * Mongo.doc))
    (c : Mongo.collection) : Mongo.collection :=
  fold_left (λ c u, Mongo.update_one k (fst u) (snd u) c) ups c.

(** The upserts [src/data_ingestion/load.py] issues for the videos [vs] of
    a query. *)
Definition ingestion_writes (query : pystr) (now : Z)
    (vs : list Ingestion.video) : list (Mongo.bson * Mongo.doc) :=
  map (λ v, (Mongo.BStr (Ingestion.id v), Ingestion.video_doc query now v)) vs.

(** Sample videos: the same video as two searches return it, and as the
    older script reads it. *)
Definition sample_video : Ingestion.video :=
  {| Ingestion.id := py "abc";
     Ingestion.title := py "Intro to #AI";
     Ingestion.description := py "A demo";
     Ingestion.channelTitle := py "ch";
     Ingestion.publishedAt := py "2024-01-01T00:00:00Z";
     Ingestion.tags := Some [py "ml"];
     Ingestion.likeCount := Some 5;
     Ingestion.commentCount := None;
     Ingestion.viewCount := Some 100 |}.

Definition sample_video_later : Ingestion.video :=
  {| Ingestion.id := py "abc";
     Ingestion.title := py "Intro to AI, updated";
     Ingestion.description := py "A demo";
     Ingestion.channelTitle := py "ch";
     Ingestion.publishedAt := py "2024-01-01T00:00:00Z";
     Ingestion.tags := None;
     Ingestion.likeCount := Some 7;
     Ingestion.commentCount := Some 1;
     Ingestion.viewCount := Some 120 |}.

Definition sample_video_old : Loader.video :=
  {| Loader.id := py "abc";
     Loader.title := py "Intro to #AI";
     Loader.description := py "A demo";
     Loader.channelTitle := py "ch";
     Loader.channelId := py "UC1";
     Loader.publishedAt := py "2024-01-01T00:00:00Z";
     Loader.tags := Some [py "ml"];
     Loader.categoryId := py "28";
     Loader.duration := py "PT5M";
     Loader.thumbnail := py "https://i.ytimg.com/vi/abc/hq.jpg";
     Loader.viewCount := Some 90;
     Loader.likeCount := Some 4;
     Loader.commentCount := None |}.

(** The cells of a dict under the field names [fs]: the value of each
    field, the empty string for a field the dict lacks. *)
Definition cells (fs : list pystr) (d : CsvExport.row_dict) : list Mongo.bson :=
  map (λ k, default (Mongo.BStr []) (CsvExport.dget k d)) fs.

(** The dict [d] has no key outside [fs]. *)
Definition fits (fs : list pystr) (d : CsvExport.row_dict) : Prop :=
  ∀ k, k ∈ CsvExport.keys d → k ∈ fs.

(** The field names an export uses: those given, or else the keys of the
    first document. *)
Definition fields_used (fields : option (list pystr)) (d0 : CsvExport.row_dict)
  : list pystr :=
  match fields with
  | Some (f :: fs) => f :: fs
  | _ => CsvExport.keys d0
  end.

(** * Proofs *)

(** Case analysis on the comparisons of a range test. *)
Ltac ranges :=
  unfold in_range in *;
  repeat match goal with
    | |- context [N.leb ?a ?b] => destruct (N.leb_spec a b)
    | |- context [N.eqb ?a ?b] => destruct (N.eqb_spec a b)
    | |- context [N.ltb ?a ?b] => destruct (N.ltb_spec a b)
    | H : context [N.leb ?a ?b] |- _ => destruct (N.leb_spec a b)
    | H : context [N.eqb ?a ?b] |- _ => destruct (N.eqb_spec a b)
    | H : context [N.ltb ?a ?b] |- _ => destruct (N.ltb_spec a b)
    end;
  simpl in *; try done; try lia.

(** ** String order *)

Lemma str_leb_refl a : str_leb a a = true.
Proof.
  induction a as [|x a IH]; simpl; [done|].
  rewrite N.ltb_irrefl, N.eqb_refl. exact IH.
Qed.

Lemma str_leb_total a b : str_leb a b = true ∨ str_leb b a = true.
Proof.
  revert b. induction a as [|x a IH]; intros [|y b]; simpl; auto.
  destruct (N.ltb_spec x y), (N.ltb_spec y x); auto; try lia.
  all: assert (x = y) as -> by (apply N.le_antisymm; assumption).
  all: rewrite N.eqb_refl; apply IH.
Qed.

Lemma str_leb_trans a b c :
  str_leb a b = true → str_leb b c = true → str_leb a c = true.
Proof.
  revert b c. induction a as [|x a IH]; intros [|y b] [|z c]; simpl; try done.
  destruct (N.ltb_spec x y), (N.ltb_spec y z), (N.ltb_spec x z);
    try done; try lia;
    destruct (N.eqb_spec x y), (N.eqb_spec y z), (N.eqb_spec x z);
    try done; try lia.
  apply IH.
Qed.

Lemma str_leb_antisym a b :
  str_leb a b = true → str_leb b a = true → a = b.
Proof.
  revert b. induction a as [|x a IH]; intros [|y b]; simpl; try done.
  destruct (N.ltb_spec x y), (N.ltb_spec y x),
    (N.eqb_spec x y), (N.eqb_spec y x); try done; try lia.
  subst. intros. f_equal. by apply IH.
Qed.

#[local] Instance str_le_total : Total str_le.
Proof.
  intros a b. unfold str_le.
  destruct (str_leb_total a b) as [-> | ->]; [by left | by right].
Qed.

#[local] Instance str_le_trans : Transitive str_le.
Proof.
  intros a b c. unfold str_le. rewrite !Is_true_true. apply str_leb_trans.
Qed.

#[local] Instance str_le_antisym : AntiSymm (=) str_le.
Proof.
  intros a b. unfold str_le. rewrite !Is_true_true. apply str_leb_antisym.
Qed.


Lemma sorted_spec (S : gset pystr) :
  (∀ t, t ∈ sorted S ↔ t ∈ S) ∧ NoDup (sorted S) ∧ StronglySorted str_lt (sorted S).
Proof.
  unfold sorted.
  pose proof (merge_sort_Permutation str_le (elements S)) as HP.
  assert (NoDup (merge_sort str_le (elements S))) as Hnd.
  { rewrite HP. apply NoDup_elements. }
  split; [|split; [done|]].
  - intros t. rewrite HP. apply elem_of_elements.
  - pose proof (StronglySorted_merge_sort str_le (elements S)) as Hs.
    revert Hnd Hs. generalize (merge_sort str_le (elements S)).
    induction l as [|x l IH]; intros Hnd Hs; [constructor|].
    apply NoDup_cons in Hnd as [Hx Hnd].
    apply StronglySorted_inv in Hs as [Hs Hall].
    constructor; [by apply IH|].
    rewrite Forall_forall in *. intros y Hy. split; [by apply Hall|].
    intros ->. by apply Hx, list_elem_of_In.
Qed.
Lemma word_run_spec s w rest :
  word_run s = (w, rest) →
  s = w ++ rest ∧ Forall (λ c, is_word c = true) w ∧ ends_run rest.
Proof.
  revert w rest. induction s as [|c s IH]; intros w rest; simpl.
  - intros [= <- <-]. by repeat split.
  - destruct (is_word c) eqn:Hc.
    + destruct (word_run s) as [w' rest'] eqn:Hr. intros [= <- <-].
      destruct (IH _ _ eq_refl) as (-> & Hw & He).
      repeat split; [by constructor | done].
    + intros [= <- <-]. repeat split; [constructor | done].
Qed.

Lemma word_run_unique w rest :
  Forall (λ c, is_word c = true) w → ends_run rest → word_run (w ++ rest) = (w, rest).
Proof.
  intros Hw He. induction Hw as [|c w Hc _ IH]; simpl.
  - destruct rest as [|c rest]; [done|]. simpl in *. by rewrite He.
  - simpl in Hc. by rewrite Hc, IH.
Qed.

Section Patterns.

Variable anchor : N.
Hypothesis anchor_outside : is_word anchor = false.

Lemma match_tag_iff s w rest :
  match_tag anchor s = Some (w, rest) ↔ starts_tag anchor s w rest.
Proof.
  unfold match_tag, starts_tag. split.
  - destruct s as [|c s]; [done|].
    destruct (N.eqb_spec c anchor) as [->|]; [|done].
    destruct (word_run s) as [w' rest'] eqn:Hr.
    apply word_run_spec in Hr as (-> & Hw & He).
    destruct w' as [|x w']; [done|]. intros [= <- <-]. by repeat split.
  - intros (-> & Hne & Hw & He). rewrite N.eqb_refl.
    rewrite word_run_unique by done. by destruct w.
Qed.

Lemma starts_tag_det s w1 rest1 w2 rest2 :
  starts_tag anchor s w1 rest1 → starts_tag anchor s w2 rest2 →
  w1 = w2 ∧ rest1 = rest2.
Proof.
  intros H1%match_tag_iff H2%match_tag_iff. rewrite H1 in H2. by injection H2.
Qed.

Lemma starts_tag_head s w rest :
  starts_tag anchor s w rest → ∃ s', s = anchor :: s'.
Proof. intros (-> & _). eauto. Qed.

Lemma match_tag_shorter s w rest :
  match_tag anchor s = Some (w, rest) → (length rest < length s)%nat.
Proof.
  intros (-> & _)%match_tag_iff. simpl. rewrite length_app. lia.
Qed.

Lemma match_here_shorter b s w rest :
  match_here anchor b s = Some (w, rest) → (length rest < length s)%nat.
Proof.
  unfold match_here.
  assert (match s with
          | [] => None
          | c :: s' => if is_word c then None else match_tag anchor s'
          end = Some (w, rest) → (length rest < length s)%nat) as Halt.
  { destruct s as [|c s]; [done|]. destruct (is_word c); [done|].
    intros ?%match_tag_shorter. simpl. lia. }
  destruct b; [|done].
  destruct (match_tag anchor s) as [[w' rest']|] eqn:Hm; [|done].
  intros [= -> ->]. by apply match_tag_shorter in Hm.
Qed.

(** The number of rounds is immaterial once it exceeds the length of the
    text. *)
Lemma finditer_from_fuel f1 f2 b s :
  (length s < f1)%nat → (length s < f2)%nat →
  finditer_from f1 anchor b s = finditer_from f2 anchor b s.
Proof.
  revert f2 b s. induction f1 as [|f1 IH]; intros [|f2] b s H1 H2; try lia.
  simpl. destruct (match_here anchor b s) as [[g rest]|] eqn:Hm.
  - apply match_here_shorter in Hm. f_equal. apply IH; lia.
  - destruct s as [|c s]; [done|]. simpl in *. apply IH; lia.
Qed.

(** After a run of class characters no tag can begin inside the run. *)
Lemma found_skip_run g rest w :
  Forall (λ c, is_word c = true) g →
  found anchor false (g ++ rest) w → found anchor false rest w.
Proof.
  induction 1 as [|c g Hc _ IH]; simpl; [done|].
  inversion 1; subst; [congruence | by apply IH].
Qed.

Lemma found_after_tag s g rest w :
  starts_tag anchor s g rest → found anchor false s w → found anchor false rest w.
Proof.
  intros (-> & Hne & Hg & He). inversion 1 as [|? ? ? ? ? ? Hs|]; subst.
  - apply starts_tag_head in Hs as [s' Hs]. destruct g as [|x g]; [done|].
    simpl in Hs. injection Hs as -> _. apply Forall_cons in Hg as [Hx _]. congruence.
  - by eapply found_skip_run.
Qed.

Lemma found_app b pre s w :
  found anchor false s w → pre ≠ [] → found anchor b (pre ++ s) w.
Proof.
  intros Hf. revert b. induction pre as [|c pre IH]; intros b Hne; [done|].
  simpl. apply found_later. destruct pre; [done|]. by apply IH.
Qed.

Lemma match_here_cases b s g rest :
  match_here anchor b s = Some (g, rest) ↔
  (b = true ∧ starts_tag anchor s g rest)
  ∨ ((b = true → match_tag anchor s = None)
     ∧ ∃ c s', s = c :: s' ∧ is_word c = false ∧ starts_tag anchor s' g rest).
Proof.
  unfold match_here.
  assert (match s with
          | [] => None
          | c :: s' => if is_word c then None else match_tag anchor s'
          end = Some (g, rest)
          ↔ ∃ c s', s = c :: s' ∧ is_word c = false ∧ starts_tag anchor s' g rest)
    as Halt.
  { destruct s as [|c s]; [split; [done | by intros (? & ? & ? & _)]|].
    destruct (is_word c) eqn:Hc.
    - split; [done|]. intros (? & ? & [= <- <-] & ? & _). congruence.
    - rewrite match_tag_iff. split; [eauto|]. by intros (? & ? & [= <- <-] & _ & ?). }
  destruct b.
  - destruct (match_tag anchor s) as [[g' rest']|] eqn:Hm.
    + split.
      * intros [= -> ->]. left. by rewrite <- match_tag_iff.
      * intros [[_ Hs%match_tag_iff] | [Hn _]]; [congruence|]. by specialize (Hn eq_refl).
    + rewrite Halt. split; [by right|].
      intros [[_ Hs%match_tag_iff] | [_ ?]]; [congruence | done].
  - rewrite Halt. split; [by right|]. by intros [[? _] | [_ ?]].
Qed.

Lemma match_here_none b s :
  match_here anchor b s = None →
  (b = true → ∀ w rest, ¬ starts_tag anchor s w rest)
  ∧ (∀ c s' w rest, s = c :: s' → is_word c = false → ¬ starts_tag anchor s' w rest).
Proof.
  intros Hn. split.
  - intros -> w rest Hs.
    assert (match_here anchor true s = Some (w, rest)) as Hm
      by (apply match_here_cases; by left).
    congruence.
  - intros c s' w rest -> Hc Hs.
    destruct b.
    + destruct (match_tag anchor (c :: s')) as [[w' rest']|] eqn:Hm.
      * assert (match_here anchor true (c :: s') = Some (w', rest')) as Hm'
          by (apply match_here_cases; left; by rewrite <- match_tag_iff).
        congruence.
      * assert (match_here anchor true (c :: s') = Some (w, rest)) as Hm'
          by (apply match_here_cases; right; split; [done | eauto]).
        congruence.
    + assert (match_here anchor false (c :: s') = Some (w, rest)) as Hm'
        by (apply match_here_cases; right; split; [done | eauto]).
      congruence.
Qed.

Lemma finditer_from_sound fuel b s w :
  w ∈ finditer_from fuel anchor b s → found anchor b s w.
Proof.
  revert b s. induction fuel as [|fuel IH]; intros b s; simpl.
  { by intros ?%elem_of_nil. }
  destruct (match_here anchor b s) as [[g rest]|] eqn:Hm.
  - apply match_here_cases in Hm as [[-> Hs] | [_ (c & s' & -> & Hc & Hs)]].
    + intros [->|Hin%IH]%elem_of_cons; [by eapply found_start|].
      pose proof Hs as (-> & _). 
      apply (found_app true (anchor :: g)) in Hin; [|done].
      exact Hin.
    + intros [->|Hin%IH]%elem_of_cons; [by eapply found_after|].
      apply found_later. pose proof Hs as (-> & _).
      apply (found_app false (anchor :: g)) in Hin; [|done].
      exact Hin.
  - destruct s as [|c s]; [by intros ?%elem_of_nil|].
    intros Hin%IH. by apply found_later.
Qed.

Lemma finditer_from_complete fuel b s w :
  (length s < fuel)%nat → found anchor b s w → w ∈ finditer_from fuel anchor b s.
Proof.
  revert b s. induction fuel as [|fuel IH]; intros b s Hlen Hf; [lia|].
  simpl. destruct (match_here anchor b s) as [[g rest]|] eqn:Hm.
  - pose proof (match_here_shorter _ _ _ _ Hm) as Hsh.
    apply match_here_cases in Hm as [[-> Hs] | [Hno (c & s' & -> & Hc & Hs)]].
    + inversion Hf as [? ? ? Hs'|? c ? ? ? Hc Hs'|? c s' ? Hf']; subst.
      * destruct (starts_tag_det _ _ _ _ _ Hs Hs') as [-> _]. apply list_elem_of_here.
      * exfalso. apply starts_tag_head in Hs' as [s2 ->].
        destruct Hs as ([= -> Hs] & Hne & Hg & _).
        destruct g as [|x g]; [done|]. simpl in Hs. injection Hs as -> _.
        apply Forall_cons in Hg as [Hx _]. congruence.
      * apply list_elem_of_further, IH; [lia|].
        destruct Hs as ([= -> ->] & Hne & Hg & _). by eapply found_skip_run.
    + inversion Hf as [? ? ? Hs'|? ? ? ? ? _ Hs'|? ? ? Hf']; subst.
      * apply match_tag_iff in Hs'. rewrite Hno in Hs' by done. done.
      * destruct (starts_tag_det _ _ _ _ _ Hs Hs') as [-> _]. apply list_elem_of_here.
      * apply list_elem_of_further, IH; [lia|]. by eapply found_after_tag.
  - apply match_here_none in Hm as [Hn1 Hn2].
    inversion Hf as [? ? ? Hs'|? ? ? ? ? Hc Hs'|? ? ? Hf']; subst.
    + by eapply Hn1 in Hs'.
    + by eapply Hn2 in Hs'.
    + apply IH; [simpl in Hlen; lia | done].
Qed.

Lemma found_decompose b s w :
  found anchor b s w →
  ∃ pre rest,
    s = pre ++ anchor :: w ++ rest
    ∧ (if b then True else pre ≠ [])
    ∧ match last pre with None => True | Some c => is_word c = false end
    ∧ w ≠ [] ∧ Forall (λ c, is_word c = true) w ∧ ends_run rest.
Proof.
  induction 1 as [s1 w1 rest (-> & ? & ? & ?)
                 |b c s1 w1 rest Hc (-> & ? & ? & ?)
                 |b c s1 w1 _ (pre & rest & -> & Hne & Hl & ?)].
  - exists [], rest. by repeat split.
  - exists [c], rest. split; [done|]. split; [by destruct b|]. by repeat split.
  - exists (c :: pre), rest. split; [done|]. split; [by destruct b|].
    split; [by destruct pre | done].
Qed.

Lemma found_tag_at s w : found anchor true s w ↔ tag_at anchor s w.
Proof.
  split.
  - intros (pre & rest & ? & _ & ?)%found_decompose. by exists pre, rest.
  - intros (pre & rest & -> & Hl & Hne & Hw & He).
    assert (starts_tag anchor (anchor :: w ++ rest) w rest) as Hs by done.
    destruct pre as [|c pre _] using rev_ind; [by eapply found_start|].
    rewrite last_snoc in Hl. rewrite <- app_assoc. simpl.
    destruct pre as [|d pre].
    + by eapply found_after.
    + apply (found_app true (d :: pre)); [|done]. by eapply found_after.
Qed.

Lemma finditer_tag_at s w : w ∈ finditer anchor s ↔ tag_at anchor s w.
Proof.
  rewrite <- found_tag_at. unfold finditer. split.
  - apply finditer_from_sound.
  - apply finditer_from_complete. lia.
Qed.

End Patterns.


Lemma lower_char_lower c : lower (lower_char c) = lower_char c.
Proof.
  unfold lower, lower_char.
  destruct (in_range 65 90 c) eqn:H1; [|destruct (N.eqb_spec c 304);
    [|destruct (N.eqb_spec c 8490)]]; subst; simpl; try done.
  - unfold lower_char. ranges.
  - unfold lower_char. rewrite H1. ranges.
Qed.

Lemma lower_idem s : lower (lower s) = lower s.
Proof.
  unfold lower. induction s as [|c s IH]; simpl; [done|].
  rewrite flat_map_app. f_equal; [apply lower_char_lower | apply IH].
Qed.

Lemma lower_char_small c : Forall (λ c, in_range 65 90 c = false) (lower_char c).
Proof.
  unfold lower_char.
  destruct (in_range 65 90 c) eqn:H1; [|destruct (N.eqb_spec c 304);
    [|destruct (N.eqb_spec c 8490)]]; subst; repeat constructor; try done.
  ranges.
Qed.

Lemma lower_lowercase s : lowercase (lower s).
Proof.
  split; [apply lower_idem|]. unfold lower.
  induction s as [|c s IH]; simpl; [constructor|].
  apply Forall_app. split; [apply lower_char_small | apply IH].
Qed.

Lemma lower_char_alphabet c :
  is_word c = true → Forall (λ x, token_char x = true) (lower_char c).
Proof.
  unfold is_word, lower_char, token_char.
  destruct (in_range 65 90 c) eqn:H1.
  { intros _. repeat constructor.
    unfold in_range in *. apply andb_prop in H1 as [Hlo%N.leb_le Hhi%N.leb_le].
    assert ((97 <=? c + 32)%N = true) as -> by (apply N.leb_le; lia).
    assert ((c + 32 <=? 122)%N = true) as -> by (apply N.leb_le; lia).
    by rewrite !orb_true_r. }
  destruct (N.eqb_spec c 304) as [->|_]; [intros _; by repeat constructor|].
  destruct (N.eqb_spec c 8490) as [->|_]; [intros _; by repeat constructor|].
  intros Hw. constructor; [|constructor]. revert Hw. cbn beta.
  by destruct (in_range 48 57 c), (in_range 97 122 c), (c =? 95)%N,
    (c =? 305)%N, (c =? 383)%N.
Qed.

Lemma lower_alphabet w :
  Forall (λ c, is_word c = true) w → Forall (λ x, token_char x = true) (lower w).
Proof.
  unfold lower. induction 1 as [|c w Hc _ IH]; simpl; [constructor|].
  apply Forall_app. split; [by apply lower_char_alphabet | apply IH].
Qed.

Lemma extract_with_elem anchor text t :
  t ∈ extract_with anchor text ↔ ∃ w, w ∈ finditer anchor (or_empty text) ∧ t = lower w.
Proof.
  unfold extract_with.
  destruct (sorted_spec (list_to_set (map lower (finditer anchor (or_empty text))))) as [-> _].
  rewrite elem_of_list_to_set, list_elem_of_In, in_map_iff.
  split; intros (w & H1 & H2); exists w.
  - by apply list_elem_of_In in H2.
  - by apply list_elem_of_In in H1.
Qed.

Lemma extract_with_sorted anchor text :
  NoDup (extract_with anchor text) ∧ StronglySorted str_lt (extract_with anchor text).
Proof. unfold extract_with. apply sorted_spec. Qed.

Lemma extract_with_lowercase anchor text : Forall lowercase (extract_with anchor text).
Proof.
  apply Forall_forall. intros t (w & _ & ->)%extract_with_elem. apply lower_lowercase.
Qed.

(** A few runs of the scan: an anchor right after another anchor still
    starts a token, an anchor glued to a word does not, and the Kelvin sign
    U+212A belongs to the class and lowers to "k". *)
Example extract_examples :
  extract_hashtags (Some (py "##a #b#c #B @d# #")) = [py "a"; py "b"]
  ∧ extract_mentions (Some (py "mail me@example.com or @Me_2")) = [py "me_2"]
  ∧ extract_hashtags (Some ([HASH; 8490; 49]%N)) = [py "k1"].
Proof. by vm_compute. Qed.

(** C4.  Extraction follows the lexical rule: a string is returned exactly
    when it is the lower-cased token of an anchor that stands at the start of
    the text or right after a character outside the class, the token being
    the non-empty maximal run of class characters after the anchor; the rule
    is the same for [#] and for [@].  The result is duplicate-free and
    strictly sorted.  "Check this #AI_tool out, #cool" gives ai_tool and
    cool, "no-hash-here" gives nothing, and a text in which no [#] is followed
    by a class character gives nothing. *)
Theorem extract_follows_lexical_rule :
  (∀ s t, t ∈ extract_hashtags (Some s) ↔ ∃ w, tag_at HASH s w ∧ t = lower w)
  ∧ (∀ s t, t ∈ extract_mentions (Some s) ↔ ∃ w, tag_at AT s w ∧ t = lower w)
  ∧ (∀ s, NoDup (extract_hashtags (Some s))
          ∧ StronglySorted str_lt (extract_hashtags (Some s)))
  ∧ (∀ s, NoDup (extract_mentions (Some s))
          ∧ StronglySorted str_lt (extract_mentions (Some s)))
  ∧ extract_hashtags (Some (py "Check this #AI_tool out, #cool"))
    = [py "ai_tool"; py "cool"]
  ∧ extract_hashtags (Some (py "no-hash-here")) = []
  ∧ (∀ s, (∀ pre rest, s = pre ++ HASH :: rest → ends_run rest) →
          extract_hashtags (Some s) = []).
Proof.
  assert (∀ anchor, is_word anchor = false → ∀ s t,
            t ∈ extract_with anchor (Some s) ↔ ∃ w, tag_at anchor s w ∧ t = lower w)
    as Hrule.
  { intros anchor Ha s t. rewrite extract_with_elem. simpl.
    by setoid_rewrite (finditer_tag_at anchor Ha). }
  split; [by apply Hrule|]. split; [by apply Hrule|].
  split; [intros; apply extract_with_sorted|].
  split; [intros; apply extract_with_sorted|].
  split; [by vm_compute|]. split; [by vm_compute|].
  intros s Hs. apply elem_of_nil_inv. intros t.
  unfold extract_hashtags. rewrite Hrule by done.
  intros (w & (pre & rest & -> & _ & Hne & Hw & _) & _).
  specialize (Hs pre (w ++ rest) eq_refl).
  destruct w as [|c w]; [done|]. apply Forall_cons in Hw as [Hc _].
  simpl in Hs. congruence.
Qed.

Lemma extract_with_alphabet anchor text :
  is_word anchor = false →
  Forall (Forall (λ x, token_char x = true)) (extract_with anchor text).
Proof.
  intros Ha. apply Forall_forall. intros t (w & Hw & ->)%extract_with_elem.
  apply (finditer_tag_at anchor Ha) in Hw as (_ & _ & _ & _ & _ & Hw & _).
  by apply lower_alphabet.
Qed.

(** C10.  [extract_hashtags] and [extract_mentions] are defined on every
    input: [None] and the empty string give the empty list, every result is
    duplicate-free, strictly sorted and made of lowercase strings (digits,
    underscore and small letters only), and the scan completes within its
    rounds: more rounds than the length of the text never change what it
    yields. *)
Theorem extract_total_sorted_lowercase :
  extract_hashtags None = [] ∧ extract_hashtags (Some []) = []
  ∧ extract_mentions None = [] ∧ extract_mentions (Some []) = []
  ∧ (∀ text,
       NoDup (extract_hashtags text)
       ∧ StronglySorted str_lt (extract_hashtags text)
       ∧ Forall lowercase (extract_hashtags text)
       ∧ Forall (Forall (λ x, token_char x = true)) (extract_hashtags text))
  ∧ (∀ text,
       NoDup (extract_mentions text)
       ∧ StronglySorted str_lt (extract_mentions text)
       ∧ Forall lowercase (extract_mentions text)
       ∧ Forall (Forall (λ x, token_char x = true)) (extract_mentions text))
  ∧ (∀ fuel s, (length s < fuel)%nat →
       finditer_from fuel HASH true s = finditer HASH s
       ∧ finditer_from fuel AT true s = finditer AT s).
Proof.
  split_and!; try by vm_compute.
  - intros text. split_and!; try apply extract_with_sorted.
    + apply extract_with_lowercase.
    + by apply extract_with_alphabet.
  - intros text. split_and!; try apply extract_with_sorted.
    + apply extract_with_lowercase.
    + by apply extract_with_alphabet.
  - intros fuel s Hlen. split; apply finditer_from_fuel; (done || lia).
Qed.
(** ** Deduplication *)

Lemma accumulate_occurrences batches st :
  accumulate batches st
  = fold_left (λ st o, dedup_step (fst o) st (snd o)) (occurrences batches) st.
Proof.
  unfold accumulate, occurrences. revert st.
  induction batches as [|[tag rows] batches IH]; intros st; simpl; [done|].
  rewrite fold_left_app, IH. f_equal. unfold dedup_rows.
  generalize st. induction rows as [|r rows IHr]; intros st'; simpl; [done|].
  apply IHr.
Qed.

Lemma has_id_tagged pid tag r : has_id pid (tagged tag r) = has_id pid r.
Proof. done. Qed.

(** What one pass does, by cases on the identifier of the row. *)
Lemma dedup_step_cases tag st r :
  (truthy (post_id r) = false ∧ dedup_step tag st r = st)
  ∨ (∃ pid, post_id r = Some pid ∧ pid ≠ [] ∧ pid ∈ seen_ids st
       ∧ dedup_step tag st r = st)
  ∨ (∃ pid, post_id r = Some pid ∧ pid ≠ [] ∧ (pid ∉ seen_ids st)
       ∧ dedup_step tag st r
         = {| combined := combined st ++ [tagged tag r];
              seen_ids := seen_ids st ∪ {[ pid ]} |}).
Proof.
  unfold dedup_step. destruct (post_id r) as [[|c pid]|] eqn:Hid; simpl.
  - by left.
  - case_decide.
    + right; left. by exists (c :: pid).
    + right; right. by exists (c :: pid).
  - by left.
Qed.

Lemma filter_snoc {A} (f : A → bool) l x :
  List.filter f (l ++ [x]) = List.filter f l ++ (if f x then [x] else []).
Proof. induction l as [|y l IH]; simpl; [done|]. rewrite IH. by destruct (f y). Qed.

Lemma first_with_cons pid tag r os :
  first_with pid ((tag, r) :: os)
  = if has_id pid r then Some (tag, r) else first_with pid os.
Proof. done. Qed.

Lemma has_id_Some pid q r :
  post_id r = Some q → has_id (Some pid) r = bool_decide (q = pid).
Proof.
  intros Hq. unfold has_id. rewrite Hq. apply bool_decide_ext.
  split; [by intros [= ->] | by intros ->].
Qed.

Lemma dedup_fold_filter pid os st :
  pid ≠ [] →
  List.filter (has_id (Some pid))
    (combined (fold_left (λ st o, dedup_step (fst o) st (snd o)) os st))
  = List.filter (has_id (Some pid)) (combined st)
    ++ (if decide (pid ∈ seen_ids st) then []
        else match first_with (Some pid) os with
             | Some (tag, r) => [tagged tag r]
             | None => []
             end).
Proof.
  intros Hne. revert st. induction os as [|[tag r] os IH]; intros st.
  { simpl. destruct (decide _); by rewrite app_nil_r. }
  cbn [fold_left fst snd]. rewrite IH, first_with_cons. clear IH.
  destruct (dedup_step_cases tag st r)
    as [[Hf ->] | [(q & Hq & Hqne & Hin & ->) | (q & Hq & Hqne & Hnin & ->)]].
  - assert (has_id (Some pid) r = false) as ->; [|done].
    unfold has_id. apply bool_decide_eq_false. intros Heq. rewrite Heq in Hf.
    by destruct pid.
  - rewrite (has_id_Some _ _ _ Hq).
    destruct (decide (pid ∈ seen_ids st)); [done|].
    rewrite bool_decide_eq_false_2; [done|]. by intros ->.
  - cbn [combined seen_ids].
    rewrite filter_snoc, has_id_tagged, <- app_assoc, (has_id_Some _ _ _ Hq).
    f_equal. destruct (decide (q = pid)) as [->|Hneq].
    + rewrite bool_decide_eq_true_2 by done.
      rewrite decide_True by (apply elem_of_union_r; by apply elem_of_singleton).
      by rewrite decide_False.
    + rewrite bool_decide_eq_false_2 by done. simpl.
      destruct (decide (pid ∈ seen_ids st)).
      * by rewrite decide_True by (by apply elem_of_union_l).
      * rewrite decide_False; [done|].
        intros [Hin | Heq%elem_of_singleton]%elem_of_union; congruence.
Qed.

Lemma first_with_split pid os :
  Some pid ∈ map (λ o, post_id (snd o)) os →
  ∃ before tag r after,
    os = before ++ (tag, r) :: after
    ∧ post_id r = Some pid
    ∧ Forall (λ o, post_id (snd o) ≠ Some pid) before
    ∧ first_with (Some pid) os = Some (tag, r).
Proof.
  unfold first_with. induction os as [|[tag r] os IH]; simpl.
  { by intros ?%elem_of_nil. }
  intros Hin. unfold has_id at 1. simpl.
  destruct (decide (post_id r = Some pid)) as [Heq|Hneq].
  - rewrite bool_decide_eq_true_2 by done. by exists [], tag, r, os.
  - rewrite bool_decide_eq_false_2 by done.
    apply elem_of_cons in Hin as [Hin|Hin]; [congruence|].
    destruct (IH Hin) as (before & tag' & r' & after & -> & ? & ? & ?).
    exists ((tag, r) :: before), tag', r', after. repeat split; try done.
    by constructor.
Qed.

Lemma dedup_step_ok tag st r : acc_ok st → acc_ok (dedup_step tag st r).
Proof.
  intros [Hnd Hin].
  destruct (dedup_step_cases tag st r)
    as [(? & ->) | [(q & ? & ? & ? & ->) | (q & Hq & Hqne & Hnin & ->)]]; [done..|].
  split; simpl.
  - rewrite map_app. simpl. rewrite Hq. apply NoDup_app. split; [done|].
    split; [|apply NoDup_singleton].
    intros x Hx ->%list_elem_of_singleton.
    apply list_elem_of_In, in_map_iff in Hx as (r' & Hr' & Hr'in).
    apply list_elem_of_In, Hin in Hr'in as (pid & Hpid & _ & Hseen). congruence.
  - intros r' [Hr' | ->%list_elem_of_singleton]%elem_of_app.
    + destruct (Hin _ Hr') as (pid & ? & ? & ?). exists pid. set_solver.
    + exists q. set_solver.
Qed.

Lemma dedup_rows_ok tag rows st : acc_ok st → acc_ok (dedup_rows tag rows st).
Proof.
  unfold dedup_rows. revert st. induction rows as [|r rows IH]; intros st H; simpl;
    [done|]. by apply IH, dedup_step_ok.
Qed.

Lemma accumulate_ok batches st : acc_ok st → acc_ok (accumulate batches st).
Proof.
  unfold accumulate. revert st. induction batches as [|b batches IH]; intros st H;
    simpl; [done|]. by apply IH, dedup_rows_ok.
Qed.

Lemma acc0_ok : acc_ok acc0.
Proof. split; simpl; [constructor | by intros r ?%elem_of_nil]. Qed.
(** ** Retry and backoff *)

Lemma clamp_bounds v : 2 ≤ clamp v ≤ 60.
Proof. unfold clamp. lia. Qed.

Lemma clamp_mono a b : a ≤ b → clamp a ≤ clamp b.
Proof. unfold clamp. lia. Qed.

Lemma int_of_digits_numeric h :
  numeric h → ∃ v, int_of_digits h = Some v ∧ 0 ≤ v.
Proof.
  intros [_ Hd]. unfold int_of_digits.
  rewrite (proj2 (forallb_forall _ _)).
  2:{ intros b Hb. rewrite Forall_forall in Hd. by apply Hd, list_elem_of_In. }
  eexists. split; [done|].
  assert (∀ acc, 0 ≤ acc →
    0 ≤ fold_left (λ acc b, 10 * acc + (Z.of_N (Byte.to_N b) - 48)) h acc) as Hge.
  { induction Hd as [|b h Hb _ IH]; intros acc Hacc; simpl; [done|].
    apply IH. unfold ascii_digit, in_range in Hb.
    apply andb_prop in Hb as [H1%N.leb_le H2]. lia. }
  by apply Hge.
Qed.

Lemma isdigit_numeric h : numeric h → isdigit h = true.
Proof.
  intros [Hne Hd]. unfold isdigit. destruct h as [|b h]; [done|].
  apply forallb_forall. intros x Hx. rewrite Forall_forall in Hd.
  unfold isdigit_char. by rewrite (Hd x) by by apply list_elem_of_In.
Qed.

Lemma rate_limit_sleep_header h attempt :
  numeric h →
  ∃ v, int_of_digits h = Some v ∧ 0 ≤ v
       ∧ rate_limit_sleep (Some h) attempt = Some (clamp v).
Proof.
  intros Hn. destruct (int_of_digits_numeric h Hn) as (v & Hv & Hv0).
  exists v. repeat split; [done..|].
  unfold rate_limit_sleep. destruct h as [|b h]; [by destruct Hn|].
  by rewrite isdigit_numeric, Hv.
Qed.

Section Fetch.

Variable T : transport.
Variable rq : request.
Variable max_retries : Z.

Lemma fetch_attempts_rate_limited attempt later w sleep_for :
  status_code (T (calls w) rq) = 429 ∨ status_code (T (calls w) rq) = 503 →
  rate_limit_sleep (retry_after (T (calls w) rq)) attempt = Some sleep_for →
  fetch_attempts T rq max_retries (attempt :: later) w
  = fetch_attempts T rq max_retries later
      (time_sleep (Secs sleep_for) (after_get rq w)).
Proof.
  intros Hst Hs. simpl. rewrite Hs.
  by destruct Hst as [-> | ->].
Qed.

Lemma fetch_attempts_forbidden attempt later w :
  status_code (T (calls w) rq) = 403 →
  fetch_attempts T rq max_retries (attempt :: later) w
  = if attempt <? max_retries - 1
    then fetch_attempts T rq max_retries later
           (time_sleep (Secs (Z.min (2 ^ attempt) 30)) (after_get rq w))
    else (Raise (HTTPError 403), after_get rq w).
Proof.
  intros Hst. simpl. unfold raise_for_status. rewrite Hst. simpl.
  by destruct (attempt <? max_retries - 1).
Qed.

Lemma fetch_attempts_other attempt later w :
  let r := T (calls w) rq in
  status_code r ≠ 429 → status_code r ≠ 503 → status_code r ≠ 403 →
  fetch_attempts T rq max_retries (attempt :: later) w
  = (if (400 <=? status_code r) && (status_code r <? 600)
     then Raise (HTTPError (status_code r))
     else match json_body r with
          | Some data => Return data
          | None => Raise JSONDecodeError
          end,
     after_get rq w).
Proof.
  intros r H1 H2 H3. simpl. fold r.
  rewrite (proj2 (Z.eqb_neq _ _) H1), (proj2 (Z.eqb_neq _ _) H2),
    (proj2 (Z.eqb_neq _ _) H3). simpl. unfold raise_for_status. fold r.
  destruct ((400 <=? status_code r) && (status_code r <? 600)); [done|].
  by destruct (json_body r).
Qed.

(** A run of rate-limit responses without the header: every one of them is
    answered by the exponential backoff of its attempt. *)
Lemma fetch_attempts_backoff_prefix pre post w :
  (∀ i, (i < length pre)%nat → rate_limited_plain (T (calls w + i)%nat rq)) →
  fetch_attempts T rq max_retries (pre ++ post) w
  = fetch_attempts T rq max_retries post
      {| calls := (calls w + length pre)%nat;
         log := log w ++ retry_trace rq ((λ a, clamp (2 ^ a)) <$> pre) |}.
Proof.
  revert w. induction pre as [|a pre IH]; intros w Hall.
  { simpl. rewrite Nat.add_0_r, app_nil_r. by destruct w. }
  destruct (Hall 0%nat) as [Hst Hra]; [simpl; lia|]. rewrite Nat.add_0_r in Hst, Hra.
  cbn [app]. rewrite (fetch_attempts_rate_limited _ _ _ (clamp (2 ^ a))); [|done|].
  2:{ by rewrite Hra. }
  rewrite IH.
  - f_equal. unfold time_sleep, after_get. cbn [calls log]. f_equal.
    + simpl. lia.
    + simpl. by rewrite <- !app_assoc.
  - intros i Hi. cbn [time_sleep after_get calls].
    replace (S (calls w) + i)%nat with (calls w + S i)%nat by lia.
    apply Hall. simpl. lia.
Qed.

(** A run of 403 responses within the retry budget. *)
Lemma fetch_attempts_forbidden_prefix pre post w :
  (∀ i, (i < length pre)%nat → status_code (T (calls w + i)%nat rq) = 403) →
  Forall (λ a, a < max_retries - 1) pre →
  fetch_attempts T rq max_retries (pre ++ post) w
  = fetch_attempts T rq max_retries post
      {| calls := (calls w + length pre)%nat;
         log := log w ++ retry_trace rq ((λ a, Z.min (2 ^ a) 30) <$> pre) |}.
Proof.
  revert w. induction pre as [|a pre IH]; intros w Hall Hlt.
  { simpl. rewrite Nat.add_0_r, app_nil_r. by destruct w. }
  apply Forall_cons in Hlt as [Ha Hlt].
  pose proof (Hall 0%nat) as Hst. rewrite Nat.add_0_r in Hst.
  cbn [app]. rewrite fetch_attempts_forbidden by (apply Hst; simpl; lia).
  rewrite (proj2 (Z.ltb_lt _ _) Ha). rewrite IH; [|  |done].
  - f_equal. unfold time_sleep, after_get. cbn [calls log]. f_equal.
    + simpl. lia.
    + simpl. by rewrite <- !app_assoc.
  - intros i Hi. cbn [time_sleep after_get calls].
    replace (S (calls w) + i)%nat with (calls w + S i)%nat by lia.
    apply Hall. simpl. lia.
Qed.

End Fetch.

Lemma backoff_sleeps_bounded n :
  Forall (λ d, 2 ≤ d ≤ 60) ((λ a, clamp (2 ^ a)) <$> seqZ 0 n).
Proof. apply Forall_fmap, Forall_forall. intros a _. apply clamp_bounds. Qed.

Lemma backoff_sleeps_monotone n i j a b :
  ((λ a, clamp (2 ^ a)) <$> seqZ 0 n) !! i = Some a →
  ((λ a, clamp (2 ^ a)) <$> seqZ 0 n) !! j = Some b →
  (i ≤ j)%nat → a ≤ b.
Proof.
  rewrite !list_lookup_fmap.
  intros (x & [-> _]%lookup_seqZ & ->)%fmap_Some (y & [-> _]%lookup_seqZ & ->)%fmap_Some Hij.
  apply clamp_mono, Z.pow_le_mono_r; lia.
Qed.
(** ** Pagination *)

Section Pagination.

Variable iso_utc : Z → pystr.
Variable T : transport.
Variable limit_total : Z.

Lemma append_children_length all_rows cs :
  Z.of_nat (length all_rows) < limit_total →
  cs ≠ [] →
  (length all_rows < length (append_children iso_utc limit_total all_rows cs))%nat
  ∧ Z.of_nat (length (append_children iso_utc limit_total all_rows cs)) ≤ limit_total.
Proof.
  revert all_rows. induction cs as [|c cs IH]; intros all_rows Hlt Hne; [done|].
  simpl. pose proof (length_app all_rows [to_schema iso_utc c]) as Hlen.
  simpl in Hlen.
  destruct (Z.geb_spec (Z.of_nat (length (all_rows ++ [to_schema iso_utc c])))
              limit_total) as [Hge|Hlt'].
  - lia.
  - destruct cs as [|c' cs].
    + simpl. lia.
    + destruct (IH (all_rows ++ [to_schema iso_utc c])) as [H1 H2]; [lia|done|].
      lia.
Qed.

(** A successful fetch ends with its last request: no sleep follows it. *)
Lemma fetch_attempts_return rq m attempts w d w1 :
  fetch_attempts T rq m attempts w = (Return d, w1) →
  last (log w1) = Some (EGet rq) ∧ (calls w < calls w1)%nat.
Proof.
  revert w. induction attempts as [|a later IH]; intros w; simpl; [done|].
  set (r := T (calls w) rq).
  destruct ((status_code r =? 429) || (status_code r =? 503)).
  { destruct (rate_limit_sleep (retry_after r) a); [|done].
    intros [? ?]%IH. simpl in *. split; [done|lia]. }
  destruct ((status_code r =? 403) && (a <? m - 1)).
  { intros [? ?]%IH. simpl in *. split; [done|lia]. }
  destruct (raise_for_status r); [done|].
  destruct (json_body r); [|done].
  intros [= <- <-]. simpl. rewrite last_snoc. split; [done|lia].
Qed.

(** Enough rounds always let the loop leave. *)
Lemma search_loop_terminates fuel params all_rows after w :
  limit_total - Z.of_nat (length all_rows) ≤ Z.of_nat fuel →
  ∃ res, search_loop iso_utc fuel T limit_total params all_rows after w = Some res.
Proof.
  revert params all_rows after w.
  induction fuel as [|fuel IH]; intros params all_rows after w Hfuel.
  - cbn [search_loop]. destruct (Z.ltb_spec (Z.of_nat (length all_rows)) limit_total); [lia|eauto].
  - cbn [search_loop]. destruct (Z.ltb_spec (Z.of_nat (length all_rows)) limit_total) as [Hlt|];
      [|eauto].
    destruct (fetch_json T (set_after params after) 6 w) as [[d|e] w1]; [|eauto].
    destruct (data_children d) as [|c cs] eqn:Hcs; [eauto|].
    destruct (truthy (data_after d)); [|eauto].
    apply IH.
    destruct (append_children_length all_rows (c :: cs)) as [H1 H2]; [done..|]. lia.
Qed.

(** Extra rounds change nothing. *)
Lemma search_loop_fuel_mono fuel fuel' params all_rows after w res :
  search_loop iso_utc fuel T limit_total params all_rows after w = Some res →
  (fuel ≤ fuel')%nat →
  search_loop iso_utc fuel' T limit_total params all_rows after w = Some res.
Proof.
  revert fuel' params all_rows after w.
  induction fuel as [|fuel IH]; intros fuel' params all_rows after w.
  - cbn [search_loop]. destruct (Z.of_nat (length all_rows) <? limit_total) eqn:Hc; [done|].
    intros <- _. destruct fuel'; cbn [search_loop]; by rewrite Hc.
  - intros Hrun Hle. destruct fuel' as [|fuel']; [lia|]. cbn [search_loop] in *.
    destruct (Z.of_nat (length all_rows) <? limit_total); [|done].
    destruct (fetch_json T (set_after params after) 6 w) as [[d|e] w1]; [|done].
    destruct (data_children d) as [|c cs]; [done|].
    destruct (truthy (data_after d)); [|done].
    apply IH; [done|lia].
Qed.

(** The rows never pass the target. *)
Lemma search_loop_bound fuel params all_rows after w rows w' :
  search_loop iso_utc fuel T limit_total params all_rows after w
    = Some (Return rows, w') →
  Z.of_nat (length all_rows) ≤ Z.max limit_total 0 →
  Z.of_nat (length rows) ≤ Z.max limit_total 0.
Proof.
  revert params all_rows after w.
  induction fuel as [|fuel IH]; intros params all_rows after w; cbn [search_loop].
  - destruct (Z.ltb_spec (Z.of_nat (length all_rows)) limit_total); [done|].
    by intros [= <- <-].
  - destruct (Z.ltb_spec (Z.of_nat (length all_rows)) limit_total) as [Hlt|];
      [|by intros [= <- <-]].
    destruct (fetch_json T (set_after params after) 6 w) as [[d|e] w1]; [|done].
    destruct (data_children d) as [|c cs] eqn:Hcs; [by intros [= <- <-]|].
    destruct (append_children_length all_rows (c :: cs)) as [H1 H2]; [done..|].
    destruct (truthy (data_after d)).
    + intros Hrun _. eapply IH; [done|lia].
    + intros [= <- <-] _. simpl in *. lia.
Qed.

(** A search whose trace ends with the inter-page delay has reached its
    target. *)
Lemma search_loop_trailing_delay fuel params all_rows after w rows w' :
  search_loop iso_utc fuel T limit_total params all_rows after w
    = Some (Return rows, w') →
  last (log w') = Some (ESleep SleepS) →
  limit_total ≤ Z.of_nat (length rows).
Proof.
  revert params all_rows after w.
  induction fuel as [|fuel IH]; intros params all_rows after w; cbn [search_loop].
  - destruct (Z.ltb_spec (Z.of_nat (length all_rows)) limit_total); [done|].
    by intros [= <- <-].
  - destruct (Z.ltb_spec (Z.of_nat (length all_rows)) limit_total) as [Hlt|];
      [|by intros [= <- <-]].
    destruct (fetch_json T (set_after params after) 6 w) as [[d|e] w1] eqn:Hf;
      [|done].
    apply fetch_attempts_return in Hf as [Hlast _].
    destruct (data_children d) as [|c cs] eqn:Hcs.
    { intros [= <- <-]. congruence. }
    destruct (truthy (data_after d)).
    + apply IH.
    + intros [= <- <-]. congruence.
Qed.

(** One pass over a page that ends the loop: the search returns in the world
    the fetch left, with no further request and no sleep. *)
Lemma search_loop_last_page fuel params all_rows after w d w1 :
  Z.of_nat (length all_rows) < limit_total →
  fetch_json T (set_after params after) 6 w = (Return d, w1) →
  last_page d →
  ∃ rows,
    search_loop iso_utc (S fuel) T limit_total params all_rows after w
      = Some (Return rows, w1).
Proof.
  intros Hlt%Z.ltb_lt Hf Hlast. cbn [search_loop]. rewrite Hlt, Hf.
  destruct (data_children d) as [|c cs] eqn:Hcs; [eauto|].
  destruct Hlast as [?| ->]; [congruence|eauto].
Qed.

(** One pass over a page with items and a cursor: the delay is taken, then
    the loop goes on. *)
Lemma search_loop_next_page fuel params all_rows after w d w1 :
  Z.of_nat (length all_rows) < limit_total →
  fetch_json T (set_after params after) 6 w = (Return d, w1) →
  data_children d ≠ [] → truthy (data_after d) = true →
  search_loop iso_utc (S fuel) T limit_total params all_rows after w
  = search_loop iso_utc fuel T limit_total (set_after params after)
      (append_children iso_utc limit_total all_rows (data_children d))
      (data_after d) (time_sleep SleepS w1).
Proof.
  intros Hlt%Z.ltb_lt Hf Hne Hc. cbn [search_loop]. rewrite Hlt, Hf, Hc.
  by destruct (data_children d).
Qed.

Lemma fetch_json_endless rq w :
  endless T →
  ∃ d, fetch_json T rq 6 w = (Return d, after_get rq w)
       ∧ data_children d ≠ [] ∧ truthy (data_after d) = true.
Proof.
  intros HT. destruct (HT (calls w) rq) as (Hst & d & Hd & Hne & Hc).
  exists d. split; [|done]. unfold fetch_json.
  change (seqZ 0 6) with (0 :: seqZ 1 5).
  rewrite fetch_attempts_other by (rewrite Hst; lia). by rewrite Hst, Hd.
Qed.

(** Against an endless remote end the loop stops exactly at the target, after
    at most one request per row. *)
Lemma search_loop_endless fuel params all_rows after w :
  endless T →
  limit_total - Z.of_nat (length all_rows) ≤ Z.of_nat fuel →
  ∃ rows w',
    search_loop iso_utc fuel T limit_total params all_rows after w
      = Some (Return rows, w')
    ∧ Z.of_nat (length rows) = Z.max limit_total (Z.of_nat (length all_rows))
    ∧ Z.of_nat (calls w') - Z.of_nat (calls w)
        ≤ Z.max (limit_total - Z.of_nat (length all_rows)) 0.
Proof.
  intros HT. revert params all_rows after w.
  induction fuel as [|fuel IH]; intros params all_rows after w Hfuel; cbn [search_loop].
  - destruct (Z.ltb_spec (Z.of_nat (length all_rows)) limit_total); [lia|].
    exists all_rows, w. split; [done|]. lia.
  - destruct (Z.ltb_spec (Z.of_nat (length all_rows)) limit_total) as [Hlt|].
    2:{ exists all_rows, w. split; [done|]. lia. }
    destruct (fetch_json_endless (set_after params after) w HT)
      as (d & -> & Hne & ->).
    destruct (data_children d) as [|c cs] eqn:Hcs; [done|].
    destruct (append_children_length all_rows (c :: cs)) as [H1 H2]; [done..|].
    destruct (IH (set_after params after)
                (append_children iso_utc limit_total all_rows (c :: cs))
                (data_after d)
                (time_sleep SleepS (after_get (set_after params after) w)))
      as (rows & w' & -> & Hlen & Hcalls); [lia|].
    exists rows, w'. split; [done|].
    cbn [calls time_sleep after_get] in Hcalls. lia.
Qed.

End Pagination.
(** ** Output *)


Lemma no_nl_app s1 s2 : no_nl s1 → no_nl s2 → no_nl (s1 ++ s2).
Proof. intros. by apply Forall_app. Qed.

Lemma no_nl_join sep parts : no_nl sep → Forall no_nl parts → no_nl (join sep parts).
Proof.
  intros Hsep. induction 1 as [|x parts Hx Hparts IH]; simpl; [constructor|].
  destruct parts; [done|]. by repeat apply no_nl_app.
Qed.

Lemma hex_digit_range n : (48 ≤ hex_digit n)%N.
Proof. unfold hex_digit. destruct (N.ltb_spec n 10); lia. Qed.

Lemma no_nl_escape_char c : no_nl (escape_char c).
Proof.
  pose proof (hex_digit_range (c / 16)). pose proof (hex_digit_range (c mod 16)).
  unfold escape_char, no_nl, NL.
  repeat match goal with
    | |- context [N.eqb ?a ?b] => destruct (N.eqb_spec a b)
    | |- context [N.ltb ?a ?b] => destruct (N.ltb_spec a b)
    end; repeat (constructor; [lia|]); constructor.
Qed.

Lemma no_nl_dumps_str s : no_nl (dumps_str s).
Proof.
  unfold dumps_str. apply no_nl_app; [by repeat constructor|].
  apply no_nl_app; [|by repeat constructor].
  induction s as [|c s IH]; simpl; [constructor|].
  apply no_nl_app; [apply no_nl_escape_char | apply IH].
Qed.

Lemma no_nl_uint d : no_nl (py (NilEmpty.string_of_uint d)).
Proof. induction d; simpl; constructor; (done || apply IHd). Qed.

Lemma no_nl_str_of_int n : no_nl (str_of_int n).
Proof.
  assert (∀ d, no_nl (py (NilZero.string_of_uint d))) as Hu.
  { intros d. destruct d; try exact (no_nl_uint _). by repeat constructor. }
  unfold str_of_int. destruct (Z.to_int n) as [d|d]; simpl; [apply Hu|].
  constructor; [done | apply Hu].
Qed.

Lemma no_nl_dumps_val v : no_nl (dumps_val v).
Proof.
  destruct v as [|n|s|l]; simpl.
  - by repeat constructor.
  - apply no_nl_str_of_int.
  - apply no_nl_dumps_str.
  - constructor; [done|]. apply no_nl_app; [|by repeat constructor].
    apply no_nl_join; [by repeat constructor|].
    apply Forall_forall. intros x (s & <- & _)%list_elem_of_In%in_map_iff.
    apply no_nl_dumps_str.
Qed.

(** [json.dumps] never emits a raw line feed. *)
Lemma no_nl_dumps r : no_nl (dumps r).
Proof.
  unfold dumps. constructor; [done|]. apply no_nl_app; [|by repeat constructor].
  apply no_nl_join; [by repeat constructor|].
  apply Forall_forall. intros x ([k v] & <- & _)%list_elem_of_In%in_map_iff.
  unfold dumps_item. apply no_nl_app; [apply no_nl_dumps_str|].
  apply no_nl_app; [by repeat constructor | apply no_nl_dumps_val].
Qed.

Lemma lines_from_line cur l rest :
  no_nl l → lines_from cur (l ++ NL :: rest) = (rev cur ++ l) :: lines_from [] rest.
Proof.
  intros Hl. revert cur. induction Hl as [|c l Hc _ IH]; intros cur; simpl.
  - by rewrite app_nil_r.
  - destruct (N.eqb_spec c NL) as [|_]; [done|].
    rewrite IH. simpl. by rewrite <- app_assoc.
Qed.

Lemma lines_save_jsonl rows : lines (save_jsonl rows) = map dumps rows.
Proof.
  unfold lines, save_jsonl. induction rows as [|r rows IH]; [done|].
  cbn [flat_map map]. rewrite <- app_assoc.
  change ([NL] ++ ?x) with (NL :: x).
  rewrite lines_from_line by apply no_nl_dumps. by rewrite IH.
Qed.
Lemma hex_digit_inj a b :
  (a < 16)%N → (b < 16)%N → hex_digit a = hex_digit b → a = b.
Proof.
  unfold hex_digit. destruct (N.ltb_spec a 10), (N.ltb_spec b 10); lia.
Qed.

Lemma hex_pair_inj c1 c2 :
  (c1 < 32)%N → (c2 < 32)%N →
  hex_digit (c1 / 16) = hex_digit (c2 / 16) →
  hex_digit (c1 mod 16) = hex_digit (c2 mod 16) → c1 = c2.
Proof.
  intros H1 H2 Hd Hm.
  apply hex_digit_inj in Hd; [|apply N.Div0.div_lt_upper_bound; lia..].
  apply hex_digit_inj in Hm; [|by apply N.mod_lt..].
  rewrite (N.div_mod c1 16), (N.div_mod c2 16) by done. by rewrite Hd, Hm.
Qed.

(** The escapes form a prefix code. *)
Lemma escape_char_inj c1 c2 X Y :
  escape_char c1 ++ X = escape_char c2 ++ Y → c1 = c2 ∧ X = Y.
Proof.
  pose proof (hex_pair_inj c1 c2) as Hhex.
  unfold escape_char.
  repeat match goal with
    | |- context [N.eqb ?a ?b] => destruct (N.eqb_spec a b)
    | |- context [N.ltb ?a ?b] => destruct (N.ltb_spec a b)
    end;
    simpl; intros Heq; simplify_eq; try done; try (split; [|done]); auto; try lia.
Qed.

Lemma escape_char_head c : ∃ x rest, escape_char c = x :: rest ∧ x ≠ 34%N.
Proof.
  unfold escape_char.
  repeat match goal with
    | |- context [N.eqb ?a ?b] => destruct (N.eqb_spec a b)
    | |- context [N.ltb ?a ?b] => destruct (N.ltb_spec a b)
    end; eauto.
Qed.

(** An escaped string is delimited by the quote that closes it. *)
Lemma escaped_inj s1 s2 r1 r2 :
  flat_map escape_char s1 ++ 34%N :: r1 = flat_map escape_char s2 ++ 34%N :: r2 →
  s1 = s2.
Proof.
  revert s2. induction s1 as [|c1 s1 IH]; intros [|c2 s2]; simpl; [done|..].
  - destruct (escape_char_head c2) as (x & rest & -> & Hx). simpl. congruence.
  - destruct (escape_char_head c1) as (x & rest & -> & Hx). simpl. congruence.
  - rewrite <- !app_assoc. intros [-> Heq]%escape_char_inj. f_equal. by apply IH.
Qed.

Lemma join_cons sep x y l : join sep (x :: y :: l) = x ++ sep ++ join sep (y :: l).
Proof. done. Qed.

Lemma dumps_shape r :
  ∃ rest,
    dumps r = py "{" ++ dumps_str (py "post_id") ++ py ": "
              ++ dumps_val (jopt (post_id r)) ++ py ", " ++ rest.
Proof.
  assert (∃ i2 tl, items r = ("post_id"%string, jopt (post_id r)) :: i2 :: tl)
    as (i2 & tl & Hitems) by (unfold items; cbn [app]; eauto).
  unfold dumps. rewrite Hitems. cbn [map]. rewrite join_cons.
  unfold dumps_item at 1. cbn [fst snd]. rewrite <- !app_assoc. eauto.
Qed.

Lemma dumps_inj_id r1 r2 : dumps r1 = dumps r2 → post_id r1 = post_id r2.
Proof.
  destruct (dumps_shape r1) as [rest1 ->], (dumps_shape r2) as [rest2 ->].
  intros Heq. do 3 apply app_inv_head in Heq.
  destruct (post_id r1) as [s1|], (post_id r2) as [s2|]; simpl in Heq; try done.
  injection Heq as Heq. rewrite <- !app_assoc in Heq. simpl in Heq.
  f_equal. by eapply escaped_inj.
Qed.

Lemma writerow_id r :
  writerow (csv_dict r) !! 0%nat = Some (default [] (post_id r)).
Proof. unfold writerow, csv_dict. simpl. by destruct (post_id r). Qed.

Lemma writerow_inj_id r1 r2 :
  truthy (post_id r1) = true → truthy (post_id r2) = true →
  writerow (csv_dict r1) = writerow (csv_dict r2) → post_id r1 = post_id r2.
Proof.
  intros H1 H2 Heq.
  pose proof (writerow_id r1) as Hr1. rewrite Heq, writerow_id in Hr1.
  destruct (post_id r1) as [[|]|], (post_id r2) as [[|]|]; simpl in *; congruence.
Qed.

Lemma NoDup_map_by {A B C} (f : A → B) (g : A → C) l :
  (∀ x y, x ∈ l → y ∈ l → f x = f y → g x = g y) →
  NoDup (map g l) → NoDup (map f l).
Proof.
  induction l as [|x l IH]; simpl; intros Hfg Hnd; [constructor|].
  apply NoDup_cons in Hnd as [Hx Hnd]. apply NoDup_cons. split.
  - intros (y & Hy & Hyin)%list_elem_of_In%in_map_iff. apply Hx.
    apply list_elem_of_In, in_map_iff. exists y. split; [|done].
    symmetry. apply Hfg; [left|right; by apply list_elem_of_In|done].
  - apply IH; [|done]. intros a b Ha Hb. apply Hfg; by right.
Qed.
(** ** The transformer *)

Lemma lstrip_app t x :
  lstrip (t ++ x) = match lstrip t with [] => lstrip x | u => u ++ x end.
Proof.
  induction t as [|c t IH]; simpl.
  - by destruct (lstrip x).
  - destruct (is_space c); [apply IH|done].
Qed.

(** Trailing line feeds do not survive [strip]. *)
Lemma strip_trailing_blank t : strip (t ++ [NL; NL]) = strip t.
Proof.
  unfold strip, rstrip. rewrite lstrip_app.
  destruct (lstrip t) as [|c u] eqn:Ht; [done|].
  change (lstrip [NL; NL]) with (@nil N).
  rewrite rev_app_distr. done.
Qed.

Lemma strip_leading_blank b : strip ([NL; NL] ++ b) = strip b.
Proof. done. Qed.

Lemma to_schema_text_both iso_utc p title body :
  p_title p = Val title → p_selftext p = Val body →
  text (to_schema iso_utc p) = strip (title ++ [NL; NL] ++ body).
Proof.
  intros Ht Hb. unfold to_schema. cbn [text]. rewrite Ht, Hb. cbn [get].
  destruct body as [|c body]; cbn [or_str truthy default].
  - rewrite strip_trailing_blank. by destruct title.
  - by destruct title.
Qed.

Lemma to_schema_text_title_only iso_utc p title :
  p_title p = Val title → get (p_selftext p) = None →
  text (to_schema iso_utc p) = strip title.
Proof.
  intros Ht Hb. unfold to_schema. cbn [text]. rewrite Ht, Hb. cbn [get or_str truthy].
  by destruct title.
Qed.

Lemma to_schema_text_body_only iso_utc p body :
  get (p_title p) = None → p_selftext p = Val body →
  text (to_schema iso_utc p) = strip body.
Proof.
  intros Ht Hb. unfold to_schema. cbn [text]. rewrite Ht, Hb. cbn [get or_str truthy].
  destruct body as [|c body]; [done|]. cbn [default]. apply strip_leading_blank.
Qed.

(** ** Main results: deduplication *)

(** C1, as amended: for every identifier that is present and not empty, the
    combined list holds exactly one record carrying it; that record is the
    first row of the run with this identifier, tagged with the topic of the
    query that returned it, and later rows with the same identifier leave no
    trace. *)
Theorem dedup_first_occurrence_wins
    (batches : list (pystr * list record)) (pid : pystr) :
  pid ≠ [] →
  Some pid ∈ map (λ o, post_id (snd o)) (occurrences batches) →
  ∃ before tag r after,
    occurrences batches = before ++ (tag, r) :: after
    ∧ post_id r = Some pid
    ∧ Forall (λ o, post_id (snd o) ≠ Some pid) before
    ∧ List.filter (has_id (Some pid)) (combined (accumulate batches acc0))
      = [tagged tag r]
    ∧ topic_tag (tagged tag r) = Some tag.
Proof.
  intros Hne Hin.
  destruct (first_with_split pid _ Hin) as (before & tag & r & after & Hocc & Hid & Hbefore & Hfirst).
  exists before, tag, r, after. repeat split; try done.
  rewrite accumulate_occurrences. rewrite dedup_fold_filter by done. rewrite Hfirst.
  unfold acc0. cbn [seen_ids combined]. by rewrite decide_False by set_solver.
Qed.

(** The scenario of the specification: the queries "ai" and "ml" both return
    the post [t3_abc]; one record is kept, tagged "ai". *)
Lemma dedup_first_occurrence_wins_witness :
  let batches := [(py "ai", [to_schema iso_sample post_abc]);
                  (py "ml", [to_schema iso_sample post_abc])] in
  py "t3_abc" ≠ []
  ∧ Some (py "t3_abc") ∈ map (λ o, post_id (snd o)) (occurrences batches)
  ∧ ∃ before tag r after,
      occurrences batches = before ++ (tag, r) :: after
      ∧ post_id r = Some (py "t3_abc")
      ∧ Forall (λ o, post_id (snd o) ≠ Some (py "t3_abc")) before
      ∧ List.filter (has_id (Some (py "t3_abc")))
          (combined (accumulate batches acc0))
        = [tagged tag r]
      ∧ topic_tag (tagged tag r) = Some tag.
Proof.
  intros batches.
  assert (py "t3_abc" ≠ []) as H1 by discriminate.
  assert (Some (py "t3_abc") ∈ map (λ o, post_id (snd o)) (occurrences batches))
    as H2 by apply list_elem_of_here.
  split; [exact H1|]. split; [exact H2|].
  exact (dedup_first_occurrence_wins batches (py "t3_abc") H1 H2).
Defined.

(** C1 as stated fails: a row whose identifier is missing or empty is counted
    among the identifiers of the input, yet no record carries it in the
    combined list. *)
Lemma dedup_drops_rows_without_id :
  let r_none := to_schema iso_sample post_no_id in
  let r_empty := to_schema iso_sample post_empty_id in
  let batches := [(py "ai", [r_none; r_empty]); (py "ml", [r_none])] in
  post_id r_none = None
  ∧ post_id r_empty = Some []
  ∧ In None (map (λ o, post_id (snd o)) (occurrences batches))
  ∧ In (Some []) (map (λ o, post_id (snd o)) (occurrences batches))
  ∧ List.filter (has_id None) (combined (accumulate batches acc0)) = []
  ∧ List.filter (has_id (Some [])) (combined (accumulate batches acc0)) = []
  ∧ combined (accumulate batches acc0) = [].
Proof. vm_compute. repeat split; auto. Qed.

(** C9.  The accumulation keeps its invariant: identifiers in the combined
    list are present, not empty, pairwise distinct and recorded in
    [seen_ids].  It holds at the start, every pass of the loop preserves it,
    so it holds after any run; a post with neither [name] nor [id] gets the
    identifier [None], and a row with that identifier leaves the state
    untouched. *)
Theorem dedup_invariant :
  acc_ok acc0
  ∧ (∀ tag st r, acc_ok st → acc_ok (dedup_step tag st r))
  ∧ (∀ tag rows st, acc_ok st → acc_ok (dedup_rows tag rows st))
  ∧ (∀ batches, acc_ok (accumulate batches acc0))
  ∧ (∀ batches r, r ∈ combined (accumulate batches acc0) →
       ∃ pid, post_id r = Some pid ∧ pid ≠ [])
  ∧ (∀ batches, NoDup (map post_id (combined (accumulate batches acc0))))
  ∧ (∀ iso_utc p, get (p_name p) = None → get (p_id p) = None →
       post_id (to_schema iso_utc p) = None)
  ∧ (∀ tag st r, post_id r = None → dedup_step tag st r = st)
  ∧ (∀ iso_utc T limit sort t topics w st w',
       run_topics iso_utc T limit sort t topics acc0 w = Some (Return st, w') →
       acc_ok st).
Proof.
  split; [apply acc0_ok|]. split; [apply dedup_step_ok|].
  split; [apply dedup_rows_ok|].
  split; [intros; apply accumulate_ok, acc0_ok|].
  split.
  { intros batches r Hr.
    destruct (accumulate_ok batches acc0 acc0_ok) as [_ Hin].
    destruct (Hin r Hr) as (pid & ? & ? & _). eauto. }
  split; [intros; apply accumulate_ok, acc0_ok|].
  split.
  { intros iso_utc p Hn Hi. unfold to_schema. cbn [post_id]. by rewrite Hn, Hi. }
  split.
  { intros tag st r Hr. unfold dedup_step. by rewrite Hr. }
  intros iso_utc T limit sort t topics. generalize acc0_ok. generalize acc0.
  induction topics as [|[tag q] topics IH]; intros st0 Hok w st w'; simpl.
  - by intros [= <- <-].
  - destruct (search_reddit iso_utc T q limit None sort t w) as [[[rows|e] w1]|];
      [|done..].
    apply IH. by apply dedup_rows_ok.
Qed.
(** ** Main results: the retrying fetch *)

Lemma seqZ_split n m : 0 ≤ n ≤ m → seqZ 0 m = seqZ 0 n ++ seqZ n (m - n).
Proof.
  intros Hn. replace m with (n + (m - n)) at 1 by lia.
  rewrite seqZ_app by lia. done.
Qed.



(** C6, as amended: a 403 is retried after a backoff of at most 30 seconds on
    every attempt but the last of the budget, where it is raised; any other
    status of the 4xx and 5xx ranges except 429 and 503 is raised at once,
    with no sleep and no further request; a status outside these ranges is
    not retried either. *)
Theorem forbidden_retry_policy (T : transport) (rq : request) (max_retries : Z) :
  1 ≤ max_retries →
  (∀ i, (i < Z.to_nat max_retries)%nat → status_code (T i rq) = 403) →
  let sleeps := (λ a, Z.min (2 ^ a) 30) <$> seqZ 0 (max_retries - 1) in
  fetch_json T rq max_retries world0
  = (Raise (HTTPError 403),
     {| calls := Z.to_nat max_retries;
        log := retry_trace rq sleeps ++ [EGet rq] |})
  ∧ Forall (λ d, 1 ≤ d ≤ 30) sleeps
  ∧ length sleeps = Z.to_nat (max_retries - 1)
  ∧ (∀ T' attempt later w,
       status_code (T' (calls w) rq) = 403 →
       fetch_attempts T' rq max_retries (attempt :: later) w
       = if attempt <? max_retries - 1
         then fetch_attempts T' rq max_retries later
                (time_sleep (Secs (Z.min (2 ^ attempt) 30)) (after_get rq w))
         else (Raise (HTTPError 403), after_get rq w))
  ∧ (∀ T' attempt later w,
       let r := T' (calls w) rq in
       status_code r ≠ 429 → status_code r ≠ 503 → status_code r ≠ 403 →
       400 ≤ status_code r < 600 →
       fetch_attempts T' rq max_retries (attempt :: later) w
       = (Raise (HTTPError (status_code r)), after_get rq w))
  ∧ (∀ T' attempt later w,
       let r := T' (calls w) rq in
       status_code r ≠ 429 → status_code r ≠ 503 → status_code r ≠ 403 →
       ¬ (400 ≤ status_code r < 600) →
       fetch_attempts T' rq max_retries (attempt :: later) w
       = (match json_body r with
          | Some data => Return data
          | None => Raise JSONDecodeError
          end, after_get rq w)).
Proof.
  intros Hm Hall sleeps.
  split.
  { unfold fetch_json. rewrite (seqZ_split (max_retries - 1) max_retries) by lia.
    replace (max_retries - (max_retries - 1)) with 1 by lia.
    rewrite fetch_attempts_forbidden_prefix.
    - change (seqZ (max_retries - 1) 1) with [max_retries - 1].
      rewrite fetch_attempts_forbidden.
      + rewrite Z.ltb_irrefl. unfold after_get. cbn [calls log world0].
        rewrite length_seqZ.
        replace (S (0 + Z.to_nat (max_retries - 1))) with (Z.to_nat max_retries)
          by lia.
        done.
      + cbn [calls world0]. apply Hall. rewrite length_seqZ. lia.
    - intros i Hi. rewrite length_seqZ in Hi. apply Hall. cbn [calls world0]. lia.
    - apply Forall_seqZ. intros a Ha. lia. }
  split.
  { apply Forall_fmap, Forall_seqZ. intros a Ha. simpl.
    pose proof (Z.pow_pos_nonneg 2 a). lia. }
  split; [unfold sleeps; by rewrite length_fmap, length_seqZ|].
  split; [intros; by apply fetch_attempts_forbidden|].
  split.
  - intros T' attempt later w r H1 H2 H3 [Hlo Hhi].
    rewrite fetch_attempts_other by done. fold r.
    by rewrite (proj2 (Z.leb_le _ _) Hlo), (proj2 (Z.ltb_lt _ _) Hhi).
  - intros T' attempt later w r H1 H2 H3 Hout.
    rewrite fetch_attempts_other by done. fold r.
    destruct (Z.leb_spec 400 (status_code r)), (Z.ltb_spec (status_code r) 600);
      simpl; try done. lia.
Qed.

Lemma forbidden_retry_policy_witness :
  let T := always_status 403 in
  let sleeps := (λ a, Z.min (2 ^ a) 30) <$> seqZ 0 5 in
  1 ≤ 6
  ∧ (∀ i, (i < Z.to_nat 6)%nat → status_code (T i sample_request) = 403)
  ∧ sleeps = [1; 2; 4; 8; 16]
  ∧ fetch_json T sample_request 6 world0
    = (Raise (HTTPError 403),
       {| calls := 6;
          log := retry_trace sample_request sleeps ++ [EGet sample_request] |}).
Proof.
  intros T sleeps.
  assert (1 ≤ 6) as H1 by lia.
  assert (∀ i, (i < Z.to_nat 6)%nat → status_code (T i sample_request) = 403)
    as H2 by (intros i _; reflexivity).
  split; [exact H1|]. split; [exact H2|]. split; [reflexivity|].
  exact (proj1 (forbidden_retry_policy T sample_request 6 H1 H2)).
Defined.

(** C6 as stated fails: a status that is neither 2xx nor 429, 503 or 403 need
    not be a failure.  With status 300 and a body that decodes, the fetch
    returns the page. *)
Lemma status_300_is_not_a_failure :
  fetch_json (always_status 300) sample_request 6 world0
  = (Return {| data_children := []; data_after := None |},
     {| calls := 1; log := [EGet sample_request] |}).
Proof. reflexivity. Qed.
(** ** Main results: pagination *)

(** C3.  The pagination loop always leaves: with [limit_total] rounds (or
    more) the search returns, whatever the remote end answers.  The rows
    returned never exceed the target, hence never exceed it by a page.
    Against a remote end that always sends items and a cursor, the search
    stops with exactly the target number of rows after at most one request
    per row.  A page without items or without a cursor ends the loop in the
    world its fetch left. *)
Theorem pagination_terminates (iso_utc : Z → pystr) (T : transport)
    (query : pystr) (limit_total : Z) (subreddit : option pystr)
    (sort t : pystr) (w : world) :
  ∃ out w',
    search_reddit iso_utc T query limit_total subreddit sort t w = Some (out, w')
    ∧ (∀ fuel, (Z.to_nat limit_total ≤ fuel)%nat →
         search_reddit_fuel iso_utc fuel T query limit_total subreddit sort t w
         = Some (out, w'))
    ∧ (∀ rows, out = Return rows →
         Z.of_nat (length rows) ≤ Z.max limit_total 0
         ∧ ∀ page, 0 ≤ page → Z.of_nat (length rows) ≤ Z.max limit_total 0 + page)
    ∧ (endless T →
         ∃ rows, out = Return rows
                 ∧ Z.of_nat (length rows) = Z.max limit_total 0
                 ∧ Z.of_nat (calls w') - Z.of_nat (calls w) ≤ Z.max limit_total 0)
    ∧ (∀ fuel params all_rows after w0 d w1,
         Z.of_nat (length all_rows) < limit_total →
         fetch_json T (set_after params after) 6 w0 = (Return d, w1) →
         last_page d →
         ∃ rows,
           search_loop iso_utc (S fuel) T limit_total params all_rows after w0
           = Some (Return rows, w1)).
Proof.
  unfold search_reddit, search_reddit_fuel.
  set (params := first_request query subreddit sort t).
  destruct (search_loop_terminates iso_utc T limit_total (Z.to_nat limit_total)
              params [] None w) as [[out w'] Hrun]; [simpl; lia|].
  exists out, w'. split; [done|].
  split; [intros fuel Hfuel; by eapply search_loop_fuel_mono|].
  split.
  { intros rows ->.
    pose proof (search_loop_bound _ _ _ _ _ _ _ _ _ _ Hrun) as Hb.
    simpl in Hb. split; [lia|]. intros page Hp. lia. }
  split.
  { intros HT.
    destruct (search_loop_endless iso_utc T limit_total (Z.to_nat limit_total)
                params [] None w HT) as (rows & w'' & Hrun' & Hlen & Hcalls);
      [simpl; lia|].
    rewrite Hrun in Hrun'. injection Hrun' as -> ->.
    exists rows. simpl in Hlen, Hcalls. split; [done|]. lia. }
  intros fuel params0 all_rows after w0 d w1. apply search_loop_last_page.
Qed.



(** ** Main results: the writers *)

Lemma save_jsonl_lines rows :
  save_jsonl rows = flat_map (λ l, l ++ [NL]) (lines (save_jsonl rows)).
Proof.
  rewrite lines_save_jsonl. unfold save_jsonl.
  induction rows as [|r rows IH]; [done|]. cbn [flat_map map]. by rewrite <- IH.
Qed.

Lemma writerow_length row : length (writerow row) = length fieldnames.
Proof. unfold writerow. by rewrite length_map. Qed.

(** How each column of a CSV row is filled. *)
Lemma writerow_cells r :
  writerow (csv_dict r)
  = [ default [] (post_id r); platform r; text r;
      join (py ",") (hashtags r); join (py ",") (mentions r);
      created_at r; str_of_int (likes r); str_of_int (comments r);
      str_of_int (shares r); language r; default [] (location r);
      default [] (subreddit r); permalink r; default [] (url r);
      default [] (topic_tag r); from_option str_of_int [] (engagement r) ].
Proof.
  unfold writerow, csv_dict.
  destruct (post_id r), (location r), (subreddit r), (url r), (topic_tag r),
    (engagement r); reflexivity.
Qed.

(** The values [json.dumps] walks, key by key. *)
Lemma items_values r :
  dict_get "hashtags" (items r) = Some (JList (hashtags r))
  ∧ dict_get "mentions" (items r) = Some (JList (mentions r))
  ∧ dict_get "location" (items r) = Some (jopt (location r))
  ∧ dict_get "subreddit" (items r) = Some (jopt (subreddit r))
  ∧ dict_get "url" (items r) = Some (jopt (url r))
  ∧ dict_get "topic_tag" (items r) = JStr <$> topic_tag r
  ∧ dict_get "engagement" (items r) = JInt <$> engagement r.
Proof.
  unfold items. destruct (topic_tag r), (engagement r); by repeat split.
Qed.



(** * Further properties of the scraper *)

(** ** More on the retrying fetch *)

Lemma rate_limit_sleep_range h attempt s :
  rate_limit_sleep h attempt = Some s → 2 ≤ s ≤ 60.
Proof.
  unfold rate_limit_sleep.
  destruct h as [[|b h]|]; try (intros [= <-]; apply clamp_bounds).
  destruct (isdigit (b :: h)); [|intros [= <-]; apply clamp_bounds].
  destruct (int_of_digits (b :: h)); [|done]. intros [= <-]. apply clamp_bounds.
Qed.

Lemma fetch_attempts_shape T rq m attempts w :
  Forall (λ a, 0 ≤ a) attempts →
  ∃ sleeps tail,
    log (fetch_attempts T rq m attempts w).2
      = log w ++ retry_trace rq sleeps ++ tail
    ∧ (tail = [] ∨ tail = [EGet rq])
    ∧ calls (fetch_attempts T rq m attempts w).2
      = (calls w + length sleeps + length tail)%nat
    ∧ (length sleeps + length tail ≤ length attempts)%nat
    ∧ Forall (λ d, 1 ≤ d ≤ 60) sleeps
    ∧ (tail = [] ↔ (fetch_attempts T rq m attempts w).1 = Raise RuntimeError).
Proof.
  intros Hpos. revert w. induction Hpos as [|a later Ha _ IH]; intros w.
  { exists [], []. simpl. rewrite app_nil_r. by split_and!; auto with lia. }
  assert (∀ s, 1 ≤ s ≤ 60 →
    ∃ sleeps tail,
      log (fetch_attempts T rq m later (time_sleep (Secs s) (after_get rq w))).2
        = log w ++ retry_trace rq sleeps ++ tail
      ∧ (tail = [] ∨ tail = [EGet rq])
      ∧ calls (fetch_attempts T rq m later
                 (time_sleep (Secs s) (after_get rq w))).2
        = (calls w + length sleeps + length tail)%nat
      ∧ (length sleeps + length tail ≤ length (a :: later))%nat
      ∧ Forall (λ d, 1 ≤ d ≤ 60) sleeps
      ∧ (tail = []
         ↔ (fetch_attempts T rq m later
              (time_sleep (Secs s) (after_get rq w))).1 = Raise RuntimeError))
    as Hretry.
  { intros s Hs.
    destruct (IH (time_sleep (Secs s) (after_get rq w)))
      as (sleeps & tail & Hlog & Htail & Hcalls & Hlen & Hsl & Hout).
    exists (s :: sleeps), tail. split_and!; try done.
    - rewrite Hlog. cbn [time_sleep after_get log retry_trace flat_map].
      by rewrite <- !app_assoc.
    - rewrite Hcalls. cbn [time_sleep after_get calls length]. lia.
    - cbn [length]. lia.
    - by constructor. }
  cbn [fetch_attempts requests_get].
  change {| calls := S (calls w); log := log w ++ [EGet rq] |}
    with (after_get rq w).
  set (r := T (calls w) rq).
  destruct ((status_code r =? 429) || (status_code r =? 503)).
  { destruct (rate_limit_sleep (retry_after r) a) as [s|] eqn:Hs.
    - apply Hretry. apply rate_limit_sleep_range in Hs. lia.
    - exists [], [EGet rq]. cbn. split_and!; auto with lia. by split. }
  destruct ((status_code r =? 403) && (a <? m - 1)).
  { apply Hretry. pose proof (Z.pow_pos_nonneg 2 a). lia. }
  destruct (raise_for_status r) as [e|] eqn:He.
  { exists [], [EGet rq]. cbn. split_and!; auto with lia. split; [done|].
    unfold raise_for_status in He. by destruct (_ && _); simplify_eq. }
  destruct (json_body r);
    exists [], [EGet rq]; cbn; split_and!; auto with lia; by split.
Qed.

(** X1.  Whatever the remote end answers, the trace a fetch adds is a run of
    request-sleep pairs, ended by one more request unless the budget ran
    out: at most [max_retries] requests are sent, all for the same query,
    every sleep lasts between 1 and 60 seconds, and the trace ends on a sleep
    exactly when the fetch raises [RuntimeError]. *)
Theorem fetch_json_trace (T : transport) (rq : request) (max_retries : Z)
    (w : world) :
  ∃ sleeps tail,
    log (fetch_json T rq max_retries w).2
      = log w ++ retry_trace rq sleeps ++ tail
    ∧ (tail = [] ∨ tail = [EGet rq])
    ∧ calls (fetch_json T rq max_retries w).2
      = (calls w + length sleeps + length tail)%nat
    ∧ (length sleeps + length tail ≤ Z.to_nat max_retries)%nat
    ∧ Forall (λ d, 1 ≤ d ≤ 60) sleeps
    ∧ (tail = [] ↔ (fetch_json T rq max_retries w).1 = Raise RuntimeError).
Proof.
  unfold fetch_json.
  destruct (fetch_attempts_shape T rq max_retries (seqZ 0 max_retries) w)
    as (sleeps & tail & H); [apply Forall_seqZ; lia|].
  exists sleeps, tail. by rewrite length_seqZ in H.
Qed.

Lemma fetch_attempts_success T rq m attempts w d w' :
  fetch_attempts T rq m attempts w = (Return d, w') →
  ∃ k : nat,
    calls w' = S (calls w + k)
    ∧ (k < length attempts)%nat
    ∧ json_body (T (calls w + k)%nat rq) = Some d
    ∧ ¬ (400 ≤ status_code (T (calls w + k)%nat rq) < 600)
    ∧ ∀ i, (i < k)%nat → retried_status (status_code (T (calls w + i)%nat rq)).
Proof.
  revert w. induction attempts as [|a later IH]; intros w; [done|].
  assert (∀ s,
    retried_status (status_code (T (calls w) rq)) →
    fetch_attempts T rq m later (time_sleep (Secs s) (after_get rq w))
      = (Return d, w') →
    ∃ k : nat,
      calls w' = S (calls w + k)
      ∧ (k < length (a :: later))%nat
      ∧ json_body (T (calls w + k)%nat rq) = Some d
      ∧ ¬ (400 ≤ status_code (T (calls w + k)%nat rq) < 600)
      ∧ ∀ i, (i < k)%nat → retried_status (status_code (T (calls w + i)%nat rq)))
    as Hretry.
  { intros s Hst (k & Hc & Hk & Hb & Hs & Hall)%IH.
    cbn [time_sleep after_get calls] in *.
    exists (S k). replace (calls w + S k)%nat with (S (calls w) + k)%nat by lia.
    split; [lia|]. split; [cbn [length]; lia|]. split; [done|]. split; [done|].
    intros [|i] Hi.
    - by rewrite Nat.add_0_r.
    - replace (calls w + S i)%nat with (S (calls w) + i)%nat by lia.
      apply Hall. lia. }
  cbn [fetch_attempts requests_get].
  change {| calls := S (calls w); log := log w ++ [EGet rq] |}
    with (after_get rq w).
  set (r := T (calls w) rq) in *.
  destruct (Z.eqb_spec (status_code r) 429) as [H429|H429]; cbn [orb].
  { destruct (rate_limit_sleep (retry_after r) a); [|done].
    apply Hretry. by left. }
  destruct (Z.eqb_spec (status_code r) 503) as [H503|H503].
  { destruct (rate_limit_sleep (retry_after r) a); [|done].
    apply Hretry. by right; left. }
  destruct (Z.eqb_spec (status_code r) 403) as [H403|H403]; cbn [andb].
  { destruct (a <? m - 1).
    - apply Hretry. by right; right.
    - unfold raise_for_status. rewrite H403. done. }
  unfold raise_for_status.
  destruct (Z.leb_spec 400 (status_code r)), (Z.ltb_spec (status_code r) 600);
    cbn [andb]; try done.
  all: destruct (json_body r) as [d'|] eqn:Hd; [|done]; intros [= -> <-];
    exists 0%nat; rewrite Nat.add_0_r; fold r;
    (split; [cbn [after_get calls]; lia|]); (split; [cbn [length]; lia|]);
    (split; [done|]); (split; [lia|]); intros i; lia.
Qed.

(** X2.  A fetch that returns a page returns the body of the last request it
    sent; that response had a status outside the 4xx and 5xx ranges, every
    earlier one had status 429, 503 or 403, and the requests stayed within
    the budget. *)
Theorem fetch_json_success (T : transport) (rq : request) (max_retries : Z)
    (w : world) (d : listing) (w' : world) :
  fetch_json T rq max_retries w = (Return d, w') →
  ∃ k : nat,
    calls w' = S (calls w + k)
    ∧ (k < Z.to_nat max_retries)%nat
    ∧ json_body (T (calls w + k)%nat rq) = Some d
    ∧ ¬ (400 ≤ status_code (T (calls w + k)%nat rq) < 600)
    ∧ ∀ i, (i < k)%nat → retried_status (status_code (T (calls w + i)%nat rq)).
Proof.
  unfold fetch_json. intros (k & H)%fetch_attempts_success.
  exists k. by rewrite length_seqZ in H.
Qed.

Lemma fetch_json_success_witness :
  let d := {| data_children := [post_abc]; data_after := None |} in
  let T := limited_then_page 2 d in
  let w' := {| calls := 3;
               log := retry_trace sample_request [2; 2] ++ [EGet sample_request] |} in
  fetch_json T sample_request 6 world0 = (Return d, w')
  ∧ ∃ k : nat,
      calls w' = S (calls world0 + k)
      ∧ (k < Z.to_nat 6)%nat
      ∧ json_body (T (calls world0 + k)%nat sample_request) = Some d
      ∧ ¬ (400 ≤ status_code (T (calls world0 + k)%nat sample_request) < 600)
      ∧ ∀ i, (i < k)%nat →
          retried_status (status_code (T (calls world0 + i)%nat sample_request)).
Proof.
  intros d T w'.
  assert (fetch_json T sample_request 6 world0 = (Return d, w')) as H
    by reflexivity.
  split; [exact H|].
  exact (fetch_json_success T sample_request 6 world0 d w' H).
Defined.

(** X3.  A [Retry-After] header that passes [isdigit()] but is not made of
    ASCII digits only (a superscript two, say) makes a rate-limited fetch
    raise [ValueError] right after the request, before any sleep. *)
Theorem fetch_json_bad_retry_after (T : transport) (rq : request)
    (max_retries : Z) (w : world) (h : list byte) :
  1 ≤ max_retries →
  status_code (T (calls w) rq) = 429 ∨ status_code (T (calls w) rq) = 503 →
  retry_after (T (calls w) rq) = Some h →
  isdigit h = true →
  forallb ascii_digit h = false →
  fetch_json T rq max_retries w = (Raise ValueError, after_get rq w).
Proof.
  intros Hm Hst Hra Hd Ha. unfold fetch_json.
  rewrite seqZ_cons by lia. cbn [fetch_attempts requests_get].
  assert (rate_limit_sleep (Some h) 0 = None) as Hs.
  { unfold rate_limit_sleep. destruct h as [|b h]; [done|].
    rewrite Hd. unfold int_of_digits. by rewrite Ha. }
  rewrite Hra, Hs. by destruct Hst as [-> | ->].
Qed.

Lemma fetch_json_bad_retry_after_witness :
  let T := limited_with_header [xb2] in
  1 ≤ 6
  ∧ (status_code (T (calls world0) sample_request) = 429
     ∨ status_code (T (calls world0) sample_request) = 503)
  ∧ retry_after (T (calls world0) sample_request) = Some [xb2]
  ∧ isdigit [xb2] = true
  ∧ forallb ascii_digit [xb2] = false
  ∧ fetch_json T sample_request 6 world0
    = (Raise ValueError, after_get sample_request world0).
Proof.
  intros T.
  assert (1 ≤ 6) as H1 by lia.
  assert (status_code (T (calls world0) sample_request) = 429
          ∨ status_code (T (calls world0) sample_request) = 503) as H2
    by (left; reflexivity).
  assert (retry_after (T (calls world0) sample_request) = Some [xb2]) as H3
    by reflexivity.
  assert (isdigit [xb2] = true) as H4 by reflexivity.
  assert (forallb ascii_digit [xb2] = false) as H5 by reflexivity.
  split; [exact H1|]. split; [exact H2|]. split; [exact H3|].
  split; [exact H4|]. split; [exact H5|].
  exact (fetch_json_bad_retry_after T sample_request 6 world0 [xb2] H1 H2 H3 H4 H5).
Defined.

(** ** More on the search *)

Lemma alternates_retry rq sleeps l :
  alternates true (retry_trace rq sleeps ++ l) = alternates true l.
Proof. induction sleeps as [|d sleeps IH]; [done|]. simpl. exact IH. Qed.

Lemma same_query_set_after params after : same_query (set_after params after) params.
Proof. unfold set_after, same_query. by destruct (truthy after). Qed.

Lemma same_query_trans a b c : same_query a b → same_query b c → same_query a c.
Proof. unfold same_query. intros (?&?&?&?&?&?) (?&?&?&?&?&?). split_and!; congruence. Qed.

Lemma fetch_json_shape T rq m w :
  ∃ sleeps tail,
    log (fetch_json T rq m w).2 = log w ++ retry_trace rq sleeps ++ tail
    ∧ (tail = [] ∨ tail = [EGet rq])
    ∧ Forall (λ d, 1 ≤ d ≤ 60) sleeps
    ∧ ((fetch_json T rq m w).1 ≠ Raise RuntimeError → tail = [EGet rq]).
Proof.
  unfold fetch_json.
  destruct (fetch_attempts_shape T rq m (seqZ 0 m) w)
    as (sleeps & tail & Hlog & Htail & _ & _ & Hsl & Hout);
    [apply Forall_seqZ; lia|].
  exists sleeps, tail. split_and!; try done.
  intros Hne. destruct Htail as [-> | ->]; [|done]. exfalso. apply Hne. by apply Hout.
Qed.

Lemma retry_trace_events first rq sleeps :
  same_query rq first → rq = first ∨ truthy (rq_after rq) = true →
  Forall (λ d, 1 ≤ d ≤ 60) sleeps →
  Forall (search_event first) (retry_trace rq sleeps).
Proof.
  intros Hq Hc. induction 1 as [|d sleeps Hd _ IH]; [constructor|].
  cbn [retry_trace flat_map app].
  constructor; [by split|]. constructor; [done|]. exact IH.
Qed.

Section Search_trace.

Variable iso_utc : Z → pystr.
Variable T : transport.
Variable limit_total : Z.

Lemma search_loop_trace fuel params all_rows after w out w' :
  search_loop iso_utc fuel T limit_total params all_rows after w = Some (out, w') →
  ∃ new,
    log w' = log w ++ new
    ∧ alternates true new = true
    ∧ Forall (search_event (set_after params after)) new
    ∧ match new with
      | [] => True
      | e :: _ => e = EGet (set_after params after)
      end.
Proof.
  revert params all_rows after w.
  induction fuel as [|fuel IH]; intros params all_rows after w; cbn [search_loop].
  { destruct (_ <? _); [done|]. intros [= <- <-]. exists []. by rewrite app_nil_r. }
  destruct (_ <? _);
    [|intros [= <- <-]; exists []; by rewrite app_nil_r].
  set (rq := set_after params after).
  destruct (fetch_json_shape T rq 6 w) as (sleeps & tail & Hlog & Htail & Hsl & Hout).
  assert (Forall (search_event rq) (retry_trace rq sleeps ++ tail)) as Hev.
  { apply Forall_app. split.
    - apply retry_trace_events; [done | by left | done].
    - destruct Htail as [-> | ->]; [constructor|].
      constructor; [|constructor]. split; [done | by left]. }
  assert (alternates true (retry_trace rq sleeps ++ tail) = true) as Halt.
  { rewrite alternates_retry. by destruct Htail as [-> | ->]. }
  assert (match retry_trace rq sleeps ++ tail with
          | [] => True
          | e :: _ => e = EGet rq
          end) as Hhd.
  { destruct sleeps; [|done]. by destruct Htail as [-> | ->]. }
  destruct (fetch_json T rq 6 w) as [[d|e] w1] eqn:Hf; cbn [fst snd] in *.
  2:{ intros [= <- <-]. by exists (retry_trace rq sleeps ++ tail). }
  rewrite Hout in * by done.
  destruct (data_children d) as [|c cs];
    [intros [= <- <-]; by exists (retry_trace rq sleeps ++ [EGet rq])|].
  destruct (truthy (data_after d)) eqn:Hc;
    [|intros [= <- <-]; by exists (retry_trace rq sleeps ++ [EGet rq])].
  intros (new & Hnew & Halt' & Hev' & _)%IH.
  exists (retry_trace rq sleeps ++ [EGet rq] ++ [ESleep SleepS] ++ new).
  split.
  { rewrite Hnew. cbn [time_sleep log]. rewrite Hlog. by rewrite <- !app_assoc. }
  split; [by rewrite alternates_retry|].
  split.
  - apply Forall_app in Hev as [Hev1 Hev2].
    rewrite !Forall_app. split; [done|]. split; [done|].
    split; [by constructor|].
    eapply Forall_impl; [exact Hev'|].
    assert (truthy (rq_after (set_after rq (data_after d))) = true) as Hcur.
    { unfold set_after at 1. by rewrite Hc. }
    intros [rq'|[s|]]; cbn; try done. intros [Hq Hor]. split.
    + eapply same_query_trans; [exact Hq|]. apply same_query_set_after.
    + right. destruct Hor as [-> | ?]; done.
  - by destruct sleeps.
Qed.

Lemma append_children_from all_rows cs r :
  r ∈ append_children iso_utc limit_total all_rows cs →
  r ∈ all_rows ∨ ∃ p, p ∈ cs ∧ r = to_schema iso_utc p.
Proof.
  revert all_rows. induction cs as [|c cs IH]; intros all_rows; simpl; [by left|].
  assert (r ∈ all_rows ++ [to_schema iso_utc c] →
          r ∈ all_rows ∨ ∃ p, p ∈ c :: cs ∧ r = to_schema iso_utc p) as Hhere.
  { intros [? | ->%list_elem_of_singleton]%elem_of_app; [by left|].
    right. exists c. split; [left|done]. }
  destruct (_ >=? _); [done|].
  intros [Hin | (p & Hp & ->)]%IH; [by apply Hhere|].
  right. exists p. split; [by right|done].
Qed.

Lemma search_loop_rows fuel params all_rows after w rows w' (P : record → Prop) :
  search_loop iso_utc fuel T limit_total params all_rows after w
    = Some (Return rows, w') →
  Forall P all_rows →
  (∀ n rq d p, json_body (T n rq) = Some d → p ∈ data_children d →
               (calls w ≤ n)%nat → P (to_schema iso_utc p)) →
  Forall P rows.
Proof.
  revert params all_rows after w.
  induction fuel as [|fuel IH]; intros params all_rows after w; cbn [search_loop].
  { destruct (_ <? _); [done|]. by intros [= <- <-]. }
  destruct (_ <? _); [|by intros [= <- <-]].
  destruct (fetch_json T (set_after params after) 6 w) as [[d|e] w1] eqn:Hf;
    [|done].
  unfold fetch_json in Hf.
  apply fetch_attempts_success in Hf as (k & Hcalls & _ & Hbody & _).
  destruct (data_children d) as [|c cs] eqn:Hcs; [by intros [= <- <-]|].
  intros Hrun Hall HP.
  assert (Forall P (append_children iso_utc limit_total all_rows (c :: cs))) as Hnew.
  { apply Forall_forall. intros r [Hin | (p & Hp & ->)]%append_children_from.
    - rewrite Forall_forall in Hall. by apply Hall.
    - eapply HP; [exact Hbody | by rewrite Hcs | lia]. }
  destruct (truthy (data_after d)); [|by injection Hrun as <- <-].
  eapply IH; [exact Hrun | exact Hnew |].
  intros n rq d' p Hb Hp Hn. eapply HP; [exact Hb | exact Hp |].
  cbn [time_sleep calls] in Hn. lia.
Qed.

End Search_trace.

(** X4.  Within one search, requests and sleeps take turns: the trace the
    search adds starts with a request and never holds two requests, or two
    sleeps, in a row.  Every request asks the same query, the first without a
    cursor and every later one either that same first request (a retry) or
    one with a non-empty cursor; every backoff lasts between 1 and 60
    seconds. *)
Theorem search_reddit_trace (iso_utc : Z → pystr) (T : transport)
    (query : pystr) (limit_total : Z) (subreddit : option pystr)
    (sort t : pystr) (w : world) :
  let first := first_request query subreddit sort t in
  ∃ out w' new,
    search_reddit iso_utc T query limit_total subreddit sort t w = Some (out, w')
    ∧ log w' = log w ++ new
    ∧ alternates true new = true
    ∧ Forall (search_event first) new
    ∧ rq_after first = None
    ∧ match new with
      | [] => True
      | e :: _ => e = EGet first
      end.
Proof.
  intros first. unfold search_reddit, search_reddit_fuel. fold first.
  destruct (search_loop_terminates iso_utc T limit_total (Z.to_nat limit_total)
              first [] None w) as [[out w'] Hrun]; [simpl; lia|].
  destruct (search_loop_trace _ _ _ _ _ _ _ _ _ _ Hrun) as (new & H1 & H2 & H3 & H4).
  exists out, w', new. split_and!; try done.
  unfold first, first_request. by destruct (truthy subreddit).
Qed.


(** ** More on the main loop *)

(** X6.  Topics are searched one after the other: running a list of topics
    is running its first part and then, from the state and the trace
    reached, the rest.  An exception raised while searching one topic ends
    the run there: the topics after it send no request and the records
    accumulated so far are not returned. *)
Theorem run_topics_app (iso_utc : Z → pystr) (T : transport)
    (limit : Z) (sort t : pystr) (topics1 topics2 : list (pystr * pystr))
    (st : acc) (w : world) :
  run_topics iso_utc T limit sort t (topics1 ++ topics2) st w
  = match run_topics iso_utc T limit sort t topics1 st w with
    | Some (Return st', w') => run_topics iso_utc T limit sort t topics2 st' w'
    | Some (Raise e, w') => Some (Raise e, w')
    | None => None
    end.
Proof.
  revert st w. induction topics1 as [|[tag q] topics1 IH]; intros st w; [done|].
  cbn [app run_topics].
  destruct (search_reddit iso_utc T q limit None sort t w) as [[[rows|e] w1]|];
    [apply IH | done | done].
Qed.

(** ** More on deduplication *)

Lemma dedup_step_row_id tag st r :
  match row_id r with
  | Some pid =>
      if decide (pid ∈ seen_ids st) then dedup_step tag st r = st
      else dedup_step tag st r
           = {| combined := combined st ++ [tagged tag r];
                seen_ids := seen_ids st ∪ {[ pid ]} |}
  | None => dedup_step tag st r = st
  end.
Proof.
  unfold row_id, dedup_step. destruct (post_id r) as [[|c s]|]; try done.
  by destruct (decide _).
Qed.

Section Dedup_more.

Variable tag : pystr.

Lemma dedup_step_grows st r :
  combined st `prefix_of` combined (dedup_step tag st r)
  ∧ seen_ids st ⊆ seen_ids (dedup_step tag st r)
  ∧ (∀ pid, row_id r = Some pid → pid ∈ seen_ids (dedup_step tag st r))
  ∧ seen_ids (dedup_step tag st r)
    = seen_ids st ∪ from_option singleton ∅ (row_id r)
  ∧ (length (combined st) = size (seen_ids st) →
     length (combined (dedup_step tag st r)) = size (seen_ids (dedup_step tag st r)))
  ∧ (∀ x, x ∈ combined (dedup_step tag st r) →
          x ∈ combined st ∨ x = tagged tag r).
Proof.
  pose proof (dedup_step_row_id tag st r) as H.
  destruct (row_id r) as [pid|]; [destruct (decide (pid ∈ seen_ids st))|];
    rewrite H; cbn [combined seen_ids from_option].
  - split_and!; try done; [by intros ? [= <-] | set_solver | by left].
  - split_and!.
    + by apply prefix_app_r.
    + set_solver.
    + intros ? [= <-]. set_solver.
    + done.
    + intros Hlen. rewrite length_app, size_union, size_singleton by set_solver.
      simpl. lia.
    + intros x [?| ->%list_elem_of_singleton]%elem_of_app; auto.
  - split_and!; try done; [set_solver | by left].
Qed.

Lemma dedup_rows_grows rows st :
  combined st `prefix_of` combined (dedup_rows tag rows st)
  ∧ seen_ids st ⊆ seen_ids (dedup_rows tag rows st)
  ∧ (∀ r pid, r ∈ rows → row_id r = Some pid →
              pid ∈ seen_ids (dedup_rows tag rows st))
  ∧ seen_ids (dedup_rows tag rows st)
    = seen_ids st ∪ list_to_set (omap row_id rows)
  ∧ (length (combined st) = size (seen_ids st) →
     length (combined (dedup_rows tag rows st))
     = size (seen_ids (dedup_rows tag rows st)))
  ∧ (∀ x, x ∈ combined (dedup_rows tag rows st) →
          x ∈ combined st ∨ ∃ r, r ∈ rows ∧ x = tagged tag r).
Proof.
  unfold dedup_rows. revert st.
  induction rows as [|r rows IH]; intros st; cbn [fold_left omap list_to_set].
  { split_and!; try done; [by intros ? ? ?%elem_of_nil | set_solver | by left]. }
  destruct (dedup_step_grows st r) as (P1 & S1 & I1 & U1 & L1 & O1).
  destruct (IH (dedup_step tag st r)) as (P2 & S2 & I2 & U2 & L2 & O2).
  split_and!.
  - by etrans.
  - by etrans.
  - intros r' pid [-> | Hin]%elem_of_cons Hid; [apply S2; by apply I1|].
    by eapply I2.
  - rewrite U2, U1. cbn [omap list_omap]. destruct (row_id r); set_solver.
  - intros Hlen. by apply L2, L1.
  - intros x [[?| ->]%O1 | (r' & ? & ->)]%O2; [by left | |].
    + right. exists r. split; [left|done].
    + right. exists r'. split; [by right|done].
Qed.

Lemma dedup_rows_all_seen rows st :
  (∀ r pid, r ∈ rows → row_id r = Some pid → pid ∈ seen_ids st) →
  dedup_rows tag rows st = st.
Proof.
  unfold dedup_rows. induction rows as [|r rows IH]; intros Hseen; simpl; [done|].
  pose proof (dedup_step_row_id tag st r) as H.
  destruct (row_id r) as [pid|] eqn:Hid.
  - rewrite decide_True in H by (eapply Hseen; [left|done]).
    rewrite H. apply IH. intros r' pid' Hr'. apply Hseen. by right.
  - rewrite H. apply IH. intros r' pid' Hr'. apply Hseen. by right.
Qed.

End Dedup_more.

Lemma accumulate_grows batches st :
  combined st `prefix_of` combined (accumulate batches st)
  ∧ seen_ids st ⊆ seen_ids (accumulate batches st)
  ∧ seen_ids (accumulate batches st) = seen_ids st ∪ ids_of (occurrences batches)
  ∧ (length (combined st) = size (seen_ids st) →
     length (combined (accumulate batches st))
     = size (seen_ids (accumulate batches st)))
  ∧ (∀ x, x ∈ combined (accumulate batches st) →
          x ∈ combined st
          ∨ ∃ tag r, (tag, r) ∈ occurrences batches ∧ x = tagged tag r).
Proof.
  unfold accumulate, ids_of, occurrences. revert st.
  induction batches as [|[tag rows] batches IH]; intros st; cbn [fold_left flat_map].
  { split_and!; try done; [set_solver | by left]. }
  destruct (dedup_rows_grows tag rows st) as (P1 & S1 & _ & U1 & L1 & O1).
  destruct (IH (dedup_rows tag rows st)) as (P2 & S2 & U2 & L2 & O2).
  cbn [fst snd]. split_and!.
  - by etrans.
  - by etrans.
  - rewrite U2, U1, omap_app, list_to_set_app_L.
    assert (omap (λ o : pystr * record, row_id o.2) (map (λ r, (tag, r)) rows)
            = omap row_id rows) as ->.
    { clear. induction rows as [|r rows IH]; [done|]. cbn. by rewrite IH. }
    set_solver.
  - intros Hlen. by apply L2, L1.
  - intros x [[?|(r & Hr & ->)]%O1 | (tag' & r & Hr & ->)]%O2; [by left| |].
    + right. exists tag, r. split; [|done]. apply elem_of_app. left.
      apply list_elem_of_In, in_map_iff. exists r. by rewrite <- list_elem_of_In.
    + right. exists tag', r. split; [|done]. apply elem_of_app. by right.
Qed.

(** X7.  The accumulation only appends: the records held before a batch of
    rows is processed are still there afterwards, in the same places, and
    [seen_ids] only grows; the same holds across any number of queries. *)
Theorem dedup_only_appends :
  (∀ tag rows st,
     combined st `prefix_of` combined (dedup_rows tag rows st)
     ∧ seen_ids st ⊆ seen_ids (dedup_rows tag rows st))
  ∧ (∀ batches st,
       combined st `prefix_of` combined (accumulate batches st)
       ∧ seen_ids st ⊆ seen_ids (accumulate batches st)).
Proof.
  split.
  - intros tag rows st. by destruct (dedup_rows_grows tag rows st) as (? & ? & _).
  - intros batches st. by destruct (accumulate_grows batches st) as (? & ? & _).
Qed.

(** X8.  Rows whose identifiers have all been seen change nothing; in
    particular, feeding the rows of a query a second time, under the same or
    another topic, leaves the state as it was after the first time. *)
Theorem dedup_replay_is_idle :
  (∀ tag rows st,
     (∀ r pid, r ∈ rows → row_id r = Some pid → pid ∈ seen_ids st) →
     dedup_rows tag rows st = st)
  ∧ (∀ tag tag' rows st,
       dedup_rows tag' rows (dedup_rows tag rows st) = dedup_rows tag rows st).
Proof.
  split; [apply dedup_rows_all_seen|].
  intros tag tag' rows st. apply dedup_rows_all_seen.
  intros r pid Hr Hid.
  destruct (dedup_rows_grows tag rows st) as (_ & _ & Hseen & _). by eapply Hseen.
Qed.

(** X9.  After a run, [seen_ids] is exactly the set of the non-empty
    identifiers that occur among the rows of all queries, and the combined
    list holds as many records as that set has elements. *)
Theorem dedup_counts_distinct_ids (batches : list (pystr * list record)) :
  seen_ids (accumulate batches acc0) = ids_of (occurrences batches)
  ∧ length (combined (accumulate batches acc0))
    = size (ids_of (occurrences batches)).
Proof.
  destruct (accumulate_grows batches acc0) as (_ & _ & Hu & Hl & _).
  assert (seen_ids (accumulate batches acc0) = ids_of (occurrences batches)) as Hs.
  { rewrite Hu. cbn. set_solver. }
  split; [done|]. rewrite <- Hs. apply Hl. cbn. by rewrite size_empty.
Qed.

(** X10.  Every record of the combined list is a row some query returned,
    with two keys added: the topic of that query, and an engagement equal to
    the sum of its likes and comments; every other field is the row's. *)
Theorem dedup_records_origin (batches : list (pystr * list record)) (x : record) :
  x ∈ combined (accumulate batches acc0) →
  ∃ tag r,
    (tag, r) ∈ occurrences batches
    ∧ x = tagged tag r
    ∧ topic_tag x = Some tag
    ∧ engagement x = Some (likes r + comments r)
    ∧ post_id x = post_id r ∧ text x = text r
    ∧ likes x = likes r ∧ comments x = comments r.
Proof.
  intros Hx. destruct (accumulate_grows batches acc0) as (_ & _ & _ & _ & Ho).
  destruct (Ho x Hx) as [Hnil%elem_of_nil | (tag & r & Hin & ->)]; [done|].
  exists tag, r. split_and!; try done.
  cbn [tagged engagement]. f_equal. unfold or_zero.
  destruct (likes r) eqn:H1, (comments r) eqn:H2; reflexivity.
Qed.

Lemma dedup_records_origin_witness :
  let batches := [(py "ai", [to_schema iso_sample post_abc]);
                  (py "ml", [to_schema iso_sample post_abc])] in
  let x := tagged (py "ai") (to_schema iso_sample post_abc) in
  x ∈ combined (accumulate batches acc0)
  ∧ engagement x = Some 10
  ∧ ∃ tag r,
      (tag, r) ∈ occurrences batches
      ∧ x = tagged tag r
      ∧ topic_tag x = Some tag
      ∧ engagement x = Some (likes r + comments r)
      ∧ post_id x = post_id r ∧ text x = text r
      ∧ likes x = likes r ∧ comments x = comments r.
Proof.
  intros batches x.
  assert (x ∈ combined (accumulate batches acc0)) as H.
  { assert (combined (accumulate batches acc0) = [x]) as -> by (by vm_compute).
    apply list_elem_of_here. }
  split; [exact H|]. split; [reflexivity|].
  exact (dedup_records_origin batches x H).
Defined.

(** ** The run as a whole *)

Lemma dedup_rows_length tag rows st :
  (length (combined (dedup_rows tag rows st))
   ≤ length (combined st) + length rows)%nat.
Proof.
  unfold dedup_rows. revert st.
  induction rows as [|r rows IH]; intros st; simpl; [lia|].
  etrans; [apply IH|].
  pose proof (dedup_step_row_id tag st r) as H.
  destruct (row_id r); [destruct (decide _)|]; rewrite H; simpl;
    rewrite ?length_app; simpl; lia.
Qed.

Section Run.

Variable iso_utc : Z → pystr.
Variable T : transport.
Variable limit : Z.
Variables sort t : pystr.

Lemma search_reddit_returns q w :
  ∃ out w',
    search_reddit iso_utc T q limit None sort t w = Some (out, w')
    ∧ log w `prefix_of` log w'
    ∧ ∀ rows, out = Return rows →
        Z.of_nat (length rows) ≤ Z.max limit 0
        ∧ Forall (λ r, ∃ n rq d p,
                    json_body (T n rq) = Some d ∧ p ∈ data_children d
                    ∧ r = to_schema iso_utc p) rows.
Proof.
  unfold search_reddit, search_reddit_fuel.
  set (first := first_request q None sort t).
  destruct (search_loop_terminates iso_utc T limit (Z.to_nat limit)
              first [] None w) as [[out w'] Hrun]; [simpl; lia|].
  exists out, w'. split; [done|]. split.
  { destruct (search_loop_trace _ _ _ _ _ _ _ _ _ _ Hrun) as (new & -> & _).
    by apply prefix_app_r. }
  intros rows ->. split.
  - pose proof (search_loop_bound _ _ _ _ _ _ _ _ _ _ Hrun) as Hb.
    simpl in Hb. lia.
  - eapply search_loop_rows; [exact Hrun | constructor |].
    intros n rq d p Hb Hp _. by exists n, rq, d, p.
Qed.

Lemma run_topics_returns all topics st w :
  (∀ o, o ∈ topics → o ∈ all) →
  ∃ out w',
    run_topics iso_utc T limit sort t topics st w = Some (out, w')
    ∧ log w `prefix_of` log w'
    ∧ ∀ st', out = Return st' →
        combined st `prefix_of` combined st'
        ∧ (Forall (from_remote iso_utc T all) (combined st) →
           Forall (from_remote iso_utc T all) (combined st'))
        ∧ Z.of_nat (length (combined st'))
          ≤ Z.of_nat (length (combined st))
            + Z.of_nat (length topics) * Z.max limit 0.
Proof.
  revert st w. induction topics as [|[tag q] topics IH]; intros st w Hall.
  { exists (Return st), w. split; [done|]. split; [done|].
    intros st' [= <-]. split; [done|]. split; [done|]. simpl. lia. }
  cbn [run_topics].
  destruct (search_reddit_returns q w) as (out & w1 & -> & Hlog & Hrows).
  destruct out as [rows|e].
  2:{ exists (Raise e), w1. split; [done|]. split; [done|]. by intros st' [=]. }
  destruct (Hrows rows eq_refl) as [Hlen Hfrom].
  destruct (IH (dedup_rows tag rows st) w1) as (out & w' & -> & Hlog' & Hst').
  { intros o Ho. apply Hall. by right. }
  exists out, w'. split; [done|]. split; [by etrans|].
  intros st' ->. destruct (Hst' st' eq_refl) as (Hpre & Hfr & Hlen').
  destruct (dedup_rows_grows tag rows st) as (P1 & _ & _ & _ & _ & O1).
  pose proof (dedup_rows_length tag rows st) as Hl.
  split; [by etrans|]. split.
  - intros Hst. apply Hfr. apply Forall_forall.
    intros x [Hx | (r & Hr & ->)]%O1.
    + rewrite Forall_forall in Hst. by apply Hst.
    + rewrite Forall_forall in Hfrom.
      destruct (Hfrom r Hr) as (n & rq & d & p & Hb & Hp & ->).
      exists tag, q, n, rq, d, p. split; [apply Hall; left|done].
  - cbn [length]. lia.
Qed.

End Run.


(** ** More on the transform: trimming *)

Lemma lstrip_split s : ∃ pre, s = pre ++ lstrip s ∧ blank pre.
Proof.
  induction s as [|c s (pre & IH & Hpre)];
    [exists []; split; [done|constructor]|]. simpl.
  destruct (is_space c) eqn:Hc; [|exists []; split; [done|constructor]].
  exists (c :: pre). split; [simpl; by rewrite <- IH|by constructor].
Qed.

Lemma lstrip_head s c rest : lstrip s = c :: rest → is_space c = false.
Proof.
  induction s as [|a s IH]; simpl; [done|].
  destruct (is_space a) eqn:Ha; [done|]. by intros [= <- _].
Qed.

Lemma lstrip_fixed c s : is_space c = false → lstrip (c :: s) = c :: s.
Proof. intros H. simpl. by rewrite H. Qed.

Lemma rstrip_split s : ∃ suf, s = rstrip s ++ suf ∧ blank suf.
Proof.
  unfold rstrip. destruct (lstrip_split (rev s)) as (pre & Hs & Hpre).
  exists (rev pre). split; [|by apply Forall_rev].
  rewrite <- rev_app_distr, <- Hs. by rewrite rev_involutive.
Qed.

Lemma rstrip_last s pre c : rstrip s = pre ++ [c] → is_space c = false.
Proof.
  unfold rstrip. intros H. apply (f_equal (@rev N)) in H.
  rewrite rev_involutive, rev_app_distr in H. cbn [rev app] in H.
  by eapply lstrip_head.
Qed.

Lemma rstrip_head c s :
  is_space c = false → ∃ rest, rstrip (c :: s) = c :: rest.
Proof.
  intros Hc. unfold rstrip. cbn [rev]. rewrite lstrip_app.
  destruct (lstrip (rev s)) as [|a u].
  - exists []. simpl. by rewrite Hc.
  - exists (rev (a :: u)). by rewrite rev_app_distr.
Qed.

Lemma rstrip_fixed s c : is_space c = false → rstrip (s ++ [c]) = s ++ [c].
Proof.
  intros Hc. unfold rstrip. rewrite rev_app_distr. cbn [rev app].
  rewrite lstrip_fixed by done. cbn [rev]. by rewrite rev_involutive.
Qed.

Lemma strip_trimmed s : trimmed (strip s).
Proof.
  unfold strip. split.
  - intros c rest H. destruct (lstrip s) as [|a u] eqn:Hl; [done|].
    pose proof (lstrip_head _ _ _ Hl) as Ha.
    destruct (rstrip_head a u Ha) as (rest' & Hr). rewrite Hr in H.
    by injection H as <- _.
  - intros pre c. apply rstrip_last.
Qed.

Lemma trimmed_strip s : trimmed s → strip s = s.
Proof.
  intros [Hh Hl]. unfold strip.
  destruct s as [|c s]; [done|].
  rewrite lstrip_fixed by (by eapply Hh).
  destruct (exists_last (l := c :: s)) as (pre & a & Hs); [done|].
  rewrite Hs. apply rstrip_fixed. by eapply Hl.
Qed.

Lemma strip_split s : ∃ pre suf, s = pre ++ strip s ++ suf ∧ blank pre ∧ blank suf.
Proof.
  destruct (lstrip_split s) as (pre & Hs & Hpre).
  destruct (rstrip_split (lstrip s)) as (suf & Hr & Hsuf).
  exists pre, suf. split; [|done]. unfold strip. by rewrite <- Hr.
Qed.


(** ** More on the JSONL writer: nothing is lost *)

Lemma py_inj s1 s2 : py s1 = py s2 → s1 = s2.
Proof.
  unfold py. intros H.
  rewrite <- (string_of_list_ascii_of_string s1),
          <- (string_of_list_ascii_of_string s2).
  f_equal. revert H.
  generalize (list_ascii_of_string s1) (list_ascii_of_string s2).
  intros l1. induction l1 as [|a l1 IH]; intros [|b l2]; simpl; try done.
  intros [= Hab Hl]. f_equal; [|by apply IH].
  by rewrite <- (ascii_N_embedding a), <- (ascii_N_embedding b), Hab.
Qed.

Lemma num_uint d : Forall (λ c, is_num_char c = true) (py (NilEmpty.string_of_uint d)).
Proof. induction d; simpl; constructor; (done || apply IHd). Qed.

Lemma num_str_of_int n : Forall (λ c, is_num_char c = true) (str_of_int n).
Proof.
  assert (∀ d, Forall (λ c, is_num_char c = true) (py (NilZero.string_of_uint d)))
    as Hu.
  { intros d. destruct d; try exact (num_uint _). by repeat constructor. }
  unfold str_of_int. destruct (Z.to_int n) as [d|d]; simpl; [apply Hu|].
  constructor; [done | apply Hu].
Qed.

Lemma str_of_int_inj n1 n2 : str_of_int n1 = str_of_int n2 → n1 = n2.
Proof.
  unfold str_of_int. intros H%py_inj.
  assert (∀ n, NilZero.int_of_string (NilZero.string_of_int (Z.to_int n))
               = Some (Z.to_int n)) as Hisi.
  { intros n. apply NilZero.isi; destruct n as [|p|p]; simpl; try done;
      intros [= Hp]; by apply DecimalPos.Unsigned.to_uint_nonnil in Hp. }
  pose proof (Hisi n1) as H1. rewrite H, Hisi in H1.
  rewrite <- (DecimalZ.of_to n1), <- (DecimalZ.of_to n2). congruence.
Qed.

Lemma after_value_head c X :
  after_value (c :: X) → is_num_char c = false ∧ c ≠ 34%N ∧ c ≠ 110%N ∧ c ≠ 91%N.
Proof. intros (? & ? & [= <- <-] & [-> | ->]); by repeat split. Qed.

(** A run of number characters ends where the first other character
    stands. *)
Lemma num_run_unique a b X Y :
  Forall (λ c, is_num_char c = true) a →
  Forall (λ c, is_num_char c = true) b →
  after_value X → after_value Y →
  a ++ X = b ++ Y → a = b ∧ X = Y.
Proof.
  intros Ha. revert b. induction Ha as [|c a Hc Ha IH]; intros b Hb HX HY.
  - destruct Hb as [|d b Hd Hb]; simpl; [done|].
    intros ->. apply after_value_head in HX as [? _]. congruence.
  - destruct Hb as [|d b Hd Hb]; simpl.
    + intros <-. apply after_value_head in HY as [? _]. congruence.
    + intros [= -> Heq]. destruct (IH b Hb HX HY Heq) as [-> ->]. done.
Qed.

Lemma str_of_int_head n X c R :
  after_value X → str_of_int n ++ X = c :: R →
  c ≠ 34%N ∧ c ≠ 110%N ∧ c ≠ 91%N.
Proof.
  intros HX. pose proof (num_str_of_int n) as Hn.
  destruct (str_of_int n) as [|d rest]; simpl.
  - intros ->. by apply after_value_head in HX as (_ & ? & ? & ?).
  - intros [= -> _]. apply Forall_cons in Hn as [Hd _].
    unfold is_num_char, in_range in Hd. repeat split; intros ->; done.
Qed.

Lemma join_step sep x l :
  join sep (x :: l) = x ++ match l with [] => [] | _ => sep ++ join sep l end.
Proof. destruct l; simpl; [by rewrite app_nil_r|done]. Qed.

Lemma dumps_str_inj s1 s2 X Y :
  dumps_str s1 ++ X = dumps_str s2 ++ Y → s1 = s2 ∧ X = Y.
Proof.
  unfold dumps_str. rewrite <- !app_assoc. cbn [app]. intros [= Heq].
  pose proof (escaped_inj _ _ _ _ Heq) as ->. split; [done|].
  apply app_inv_head in Heq. by injection Heq.
Qed.

(** The items of a JSON list, up to its closing bracket. *)
Lemma dumps_list_inj l1 l2 X Y :
  join (py ", ") (map dumps_str l1) ++ 93%N :: X
  = join (py ", ") (map dumps_str l2) ++ 93%N :: Y →
  l1 = l2 ∧ X = Y.
Proof.
  revert l2. induction l1 as [|s1 l1 IH]; intros [|s2 l2]; cbn [map].
  - simpl. by intros [= ->].
  - rewrite join_step. unfold dumps_str at 1. simpl. done.
  - rewrite join_step. unfold dumps_str at 1. simpl. done.
  - rewrite !join_step, <- !app_assoc. intros [-> Heq]%dumps_str_inj.
    destruct l1 as [|a l1], l2 as [|b l2]; cbn [map app] in Heq.
    + by injection Heq as ->.
    + done.
    + done.
    + rewrite <- !app_assoc in Heq. cbn [py app map list_ascii_of_string] in Heq.
      injection Heq as Heq. apply (IH (b :: l2)) in Heq as [[= -> ->] ->]. done.
Qed.

(** A value is delimited by what follows it. *)
Lemma dumps_val_inj v1 v2 X Y :
  after_value X → after_value Y →
  dumps_val v1 ++ X = dumps_val v2 ++ Y → v1 = v2 ∧ X = Y.
Proof.
  intros HX HY.
  destruct v1 as [|n1|s1|l1], v2 as [|n2|s2|l2]; cbn [dumps_val];
    try (unfold dumps_str; simpl; discriminate);
    try (simpl; intros Heq;
         match type of Heq with
         | _ :: _ = str_of_int _ ++ _ =>
             symmetry in Heq; apply str_of_int_head in Heq as (? & ? & ?); done
         | str_of_int _ ++ _ = _ :: _ =>
             apply str_of_int_head in Heq as (? & ? & ?); done
         end).
  - simpl. by intros [= ->].
  - intros Heq.
    apply num_run_unique in Heq as [Hn ->]; try done; try apply num_str_of_int.
    by apply str_of_int_inj in Hn as ->.
  - by intros [-> ->]%dumps_str_inj.
  - rewrite <- !app_assoc. cbn [py app map list_ascii_of_string].
    intros [= Heq]. by apply dumps_list_inj in Heq as [-> ->].
Qed.

Lemma dumps_items_inj l1 l2 X Y :
  l1 ≠ [] → l2 ≠ [] →
  join (py ", ") (map dumps_item l1) ++ 125%N :: X
  = join (py ", ") (map dumps_item l2) ++ 125%N :: Y →
  l1 = l2.
Proof.
  revert l2. induction l1 as [|[k1 v1] l1 IH]; intros [|[k2 v2] l2]; try done.
  intros _ _. cbn [map]. rewrite !join_step. unfold dumps_item. cbn [fst snd].
  rewrite <- !app_assoc. intros [Hk%py_inj Heq]%dumps_str_inj. subst k2.
  apply app_inv_head in Heq.
  apply dumps_val_inj in Heq as [-> Heq].
  - destruct l1 as [|a l1], l2 as [|b l2]; cbn [map app] in Heq; try done.
    rewrite <- !app_assoc in Heq. cbn [py app map list_ascii_of_string] in Heq.
    injection Heq as Heq. f_equal. by apply IH.
  - destruct l1; simpl; eexists _, _; (split; [done|]); auto.
  - destruct l2; simpl; eexists _, _; (split; [done|]); auto.
Qed.

Lemma jopt_inj a b : jopt a = jopt b → a = b.
Proof. destruct a, b; simpl; congruence. Qed.

Lemma items_inj r1 r2 : items r1 = items r2 → r1 = r2.
Proof.
  destruct r1, r2. unfold items. cbn.
  intros [= ->%jopt_inj -> -> -> -> -> -> -> -> -> ->%jopt_inj ->%jopt_inj
            -> ->%jopt_inj Htl].
  repeat match goal with
         | H : context [match ?o with Some _ => _ | None => _ end] |- _ =>
             is_var o; destruct o
         end; simplify_eq; done.
Qed.

Lemma dumps_inj r1 r2 : dumps r1 = dumps r2 → r1 = r2.
Proof.
  unfold dumps. intros Heq%app_inv_head.
  apply items_inj. by eapply (dumps_items_inj _ _ [] []); [..|exact Heq].
Qed.

(** X13.  The JSONL file loses nothing: two lists of records that give the
    same text are the same list, record by record and field by field,
    including whether an optional value is null and whether the topic and
    the engagement are set. *)
Theorem save_jsonl_lossless (rows1 rows2 : list record) :
  save_jsonl rows1 = save_jsonl rows2 → rows1 = rows2.
Proof.
  intros H%(f_equal lines). rewrite !lines_save_jsonl in H.
  revert rows2 H. induction rows1 as [|r1 rows1 IH]; intros [|r2 rows2]; try done.
  cbn [map]. intros H.
  pose proof (f_equal (hd []) H : dumps r1 = dumps r2) as ->%dumps_inj.
  f_equal. apply IH. exact (f_equal (@tl _) H).
Qed.

Lemma save_jsonl_lossless_witness :
  let rows1 :=
    combined (accumulate [(py "ai", [to_schema iso_sample post_abc]);
                          (py "ml", [to_schema iso_sample post_abc])] acc0) in
  let rows2 := [tagged (py "ai") (to_schema iso_sample post_abc)] in
  save_jsonl rows1 = save_jsonl rows2 ∧ rows1 = rows2.
Proof.
  intros rows1 rows2.
  assert (save_jsonl rows1 = save_jsonl rows2) as H by (by vm_compute).
  split; [exact H|]. exact (save_jsonl_lossless rows1 rows2 H).
Defined.

(** ** More on the CSV writer: the flattened lists *)

Lemma comma_run_unique a b X Y :
  Forall (λ c, c ≠ 44%N) a → Forall (λ c, c ≠ 44%N) b →
  match X with [] => True | c :: _ => c = 44%N end →
  match Y with [] => True | c :: _ => c = 44%N end →
  a ++ X = b ++ Y → a = b ∧ X = Y.
Proof.
  intros Ha. revert b. induction Ha as [|c a Hc Ha IH]; intros b Hb HX HY.
  - destruct Hb as [|d b Hd Hb]; simpl; [done|]. intros ->. done.
  - destruct Hb as [|d b Hd Hb]; simpl.
    + intros <-. done.
    + intros [= -> Heq]. destruct (IH b Hb HX HY Heq) as [-> ->]. done.
Qed.

Lemma join_comma_inj l1 l2 :
  Forall comma_free l1 → Forall comma_free l2 →
  join (py ",") l1 = join (py ",") l2 → l1 = l2.
Proof.
  intros H1. revert l2.
  induction H1 as [|x1 l1 [Hne1 Hx1] H1 IH]; intros l2 H2.
  - destruct H2 as [|x2 l2 [Hne2 _] _]; [done|].
    rewrite join_step. destruct x2; done.
  - destruct H2 as [|x2 l2 [Hne2 Hx2] H2].
    { rewrite join_step. destruct x1; done. }
    rewrite !join_step. intros Heq.
    apply comma_run_unique in Heq as [-> Heq]; try done;
      [|by destruct l1|by destruct l2].
    f_equal. destruct l1 as [|a l1], l2 as [|b l2]; try done.
    injection Heq as Heq. by apply IH.
Qed.

Lemma lower_nonempty w : w ≠ [] → lower w ≠ [].
Proof.
  destruct w as [|c w]; [done|]. intros _. unfold lower. simpl.
  assert (lower_char c ≠ []) as Hc.
  { unfold lower_char. by repeat case_match. }
  by destruct (lower_char c).
Qed.

Lemma extract_with_comma_free anchor text :
  is_word anchor = false → Forall comma_free (extract_with anchor text).
Proof.
  intros Ha.
  pose proof (extract_with_alphabet anchor text Ha) as Halpha.
  rewrite Forall_forall in Halpha.
  apply Forall_forall. intros t Ht. split.
  - apply extract_with_elem in Ht as (w & Hw & ->).
    apply (finditer_tag_at anchor Ha) in Hw as (_ & _ & _ & _ & Hne & _).
    by apply lower_nonempty.
  - eapply Forall_impl; [by apply Halpha|]. by intros c Hc ->.
Qed.

(** X14.  The CSV file flattens the hashtags and the mentions of a record
    to one comma-joined cell.  For the lists the two extractors produce this
    loses nothing: equal cells come from equal lists, since a token is never
    empty and never holds a comma.  For arbitrary lists it does not hold. *)
Theorem csv_tag_cells_reversible :
  (∀ text1 text2,
     join (py ",") (extract_hashtags text1) = join (py ",") (extract_hashtags text2)
     → extract_hashtags text1 = extract_hashtags text2)
  ∧ (∀ text1 text2,
       join (py ",") (extract_mentions text1) = join (py ",") (extract_mentions text2)
       → extract_mentions text1 = extract_mentions text2)
  ∧ (∀ text, Forall comma_free (extract_hashtags text)
             ∧ Forall comma_free (extract_mentions text))
  ∧ join (py ",") [py "a,b"] = join (py ",") [py "a"; py "b"]
  ∧ join (py ",") [] = join (py ",") [[]].
Proof.
  split_and!; try done.
  - intros t1 t2. by apply join_comma_inj; apply extract_with_comma_free.
  - intros t1 t2. by apply join_comma_inj; apply extract_with_comma_free.
  - intros t. by split; apply extract_with_comma_free.
Qed.

(** * The YouTube loaders *)

(** ** Collecting the ids of a query *)

Section Collect.

Import Ingestion.

Variable Y : youtube.
Variable q : pystr.

Lemma search_pages_terminates fuel all tok collected w :
  VIDEOS_PER_QUERY - collected ≤ Z.of_nat fuel →
  ∃ res, search_pages fuel Y q all tok collected w = Some res.
Proof.
  revert all tok collected w.
  induction fuel as [|fuel IH]; intros all tok collected w Hfuel;
    cbn [search_pages].
  - destruct (Z.ltb_spec collected VIDEOS_PER_QUERY); [lia|eauto].
  - destruct (Z.ltb_spec collected VIDEOS_PER_QUERY) as [Hlt|]; [|eauto].
    unfold execute_search. destruct (Y (ycalls w) q tok) as [page|]; [|eauto].
    destruct (page_items page) as [|i rest]; [eauto|].
    destruct (truthy (page_next page)); [|eauto].
    apply IH. cbn [length]. lia.
Qed.

Lemma search_pages_calls fuel all tok collected w out w' :
  search_pages fuel Y q all tok collected w = Some (out, w') →
  (ycalls w ≤ ycalls w' ≤ ycalls w + fuel)%nat.
Proof.
  revert all tok collected w.
  induction fuel as [|fuel IH]; intros all tok collected w; cbn [search_pages].
  - destruct (_ <? _); [done|]. intros [= <- <-]. lia.
  - destruct (_ <? _); [|intros [= <- <-]; lia].
    unfold execute_search. destruct (Y (ycalls w) q tok) as [page|];
      [|intros [= <- <-]; simpl; lia].
    destruct (page_items page) as [|i rest]; [intros [= <- <-]; simpl; lia|].
    destruct (truthy (page_next page)); [|intros [= <- <-]; simpl; lia].
    intros H%IH. simpl in H. lia.
Qed.

Lemma search_pages_whole fuel all tok collected w ids w' :
  collected = Z.of_nat (length all) →
  search_pages fuel Y q all tok collected w = Some (Ok ids, w') →
  ∃ pages,
    ids = all ++ concat pages
    ∧ Forall (sent_page Y q) pages
    ∧ (pages = []
       ∨ Z.of_nat (length all) + Z.of_nat (length (concat (removelast pages)))
         < VIDEOS_PER_QUERY).
Proof.
  revert all tok collected w.
  induction fuel as [|fuel IH]; intros all tok collected w Hc; cbn [search_pages].
  { destruct (_ <? _); [done|]. intros [= <- <-]. exists [].
    rewrite app_nil_r. split_and!; [done|constructor|by left]. }
  destruct (Z.ltb_spec collected VIDEOS_PER_QUERY) as [Hlt|].
  2:{ intros [= <- <-]. exists []. rewrite app_nil_r.
      split_and!; [done|constructor|by left]. }
  unfold execute_search. destruct (Y (ycalls w) q tok) as [page|] eqn:HY; [|done].
  destruct (page_items page) as [|i rest] eqn:Hitems.
  { intros [= <- <-]. exists []. rewrite app_nil_r.
    split_and!; [done|constructor|by left]. }
  assert (sent_page Y q (i :: rest)) as Hsent.
  { split; [done|]. by exists (ycalls w), tok, page. }
  destruct (truthy (page_next page)).
  - intros (pages & -> & Hpages & Hlast)%IH; [|by rewrite length_app, Nat2Z.inj_add, Hc].
    exists ((i :: rest) :: pages). split; [by rewrite <- app_assoc|].
    split; [by constructor|]. right.
    destruct Hlast as [-> | Hlast]; [simpl; lia|].
    destruct pages as [|p pages]; [simpl; lia|].
    change (removelast ((i :: rest) :: p :: pages))
      with ((i :: rest) :: removelast (p :: pages)).
    rewrite length_app in Hlast. cbn [concat]. rewrite length_app. lia.
  - intros [= <- <-]. exists [i :: rest]. cbn [concat]. rewrite app_nil_r.
    split; [done|]. split; [constructor; [done|constructor]|]. right. simpl. lia.
Qed.

End Collect.


(** ** Batches of fifty *)

Lemma batches_eq (ids : list pystr) :
  Ingestion.batches ids
  = map (λ k, take 50 (drop (50 * k) ids)) (seq 0 ((length ids + 49) / 50)).
Proof.
  unfold Ingestion.batches, Ingestion.batch_starts, Ingestion.slice.
  rewrite map_map. apply map_ext. intros k.
  by replace (50 * k + 50 - 50 * k)%nat with 50%nat by lia.
Qed.

Lemma concat_chunks {A} (l : list A) m :
  concat (map (λ k, take 50 (drop (50 * k) l)) (seq 0 m)) = take (50 * m) l.
Proof.
  induction m as [|m IH]; [by rewrite Nat.mul_0_r, take_0|].
  rewrite seq_S, map_app, concat_app, IH. cbn [map concat plus].
  rewrite app_nil_r, take_take_drop. f_equal. lia.
Qed.

(** X16.  The ids of a query are looked up in batches that partition
    them: the batches, one after the other, are the ids; no batch is empty
    and none holds more than fifty ids; every batch but the last holds
    exactly fifty; there are [ceil(n / 50)] of them, none for no id. *)
Theorem batches_partition (ids : list pystr) :
  concat (Ingestion.batches ids) = ids
  ∧ Forall (λ b, 1 ≤ length b ≤ 50)%nat (Ingestion.batches ids)
  ∧ length (Ingestion.batches ids) = ((length ids + 49) / 50)%nat
  ∧ (∀ k b, Ingestion.batches ids !! k = Some b →
            b = take 50 (drop (50 * k) ids)
            ∧ ((S k < length (Ingestion.batches ids))%nat → length b = 50%nat))
  ∧ (Ingestion.batches ids = [] ↔ ids = []).
Proof.
  rewrite batches_eq.
  set (n := length ids). set (m := ((n + 49) / 50)%nat).
  assert (50 * m ≤ n + 49 < 50 * m + 50)%nat as Hm.
  { pose proof (Nat.div_mod_eq (n + 49) 50).
    pose proof (Nat.mod_upper_bound (n + 49) 50). fold m in H. lia. }
  assert (∀ k b,
    map (λ k, take 50 (drop (50 * k) ids)) (seq 0 m) !! k = Some b →
    (k < m)%nat ∧ b = take 50 (drop (50 * k) ids)) as Hk.
  { intros k b Hb. rewrite list_lookup_fmap in Hb.
    destruct (seq 0 m !! k) as [k'|] eqn:Hs; [|done].
    apply lookup_seq in Hs as [-> ?]. simpl in Hb. injection Hb as <-. done. }
  split_and!.
  - rewrite concat_chunks. apply take_ge. fold n. lia.
  - apply Forall_lookup. intros k b [Hlt ->]%Hk.
    rewrite length_take, length_drop. fold n. lia.
  - by rewrite length_map, length_seq.
  - intros k b [Hlt ->]%Hk. split; [done|].
    rewrite length_map, length_seq, length_take, length_drop. fold n. lia.
  - split.
    + intros Hnil. apply (f_equal length) in Hnil.
      rewrite length_map, length_seq in Hnil. simpl in Hnil.
      apply length_zero_iff_nil. fold n. lia.
    + intros ->. done.
Qed.

(** ** Hashtags of a video *)

Section Hashtags.

Import Ingestion.

Variable isalnum : N → bool.

Lemma hashtag_at_cons c s t : hashtag_at isalnum s t → hashtag_at isalnum (c :: s) t.
Proof.
  intros (pre & w & rest & -> & ?). exists (c :: pre), w, rest. by split.
Qed.

Lemma emit_elem acc t : t ∈ emit acc ↔ acc ≠ [] ∧ t = HASH :: rev acc.
Proof.
  unfold emit. destruct acc as [|a acc].
  - split; [by intros ?%elem_of_nil | by intros [? _]].
  - rewrite list_elem_of_singleton. split; [by intros -> | by intros [_ ->]].
Qed.

Lemma rev_ne {A} (l : list A) : l ≠ [] → rev l ≠ [].
Proof. destruct l as [|a l]; [done|]. intros _. simpl. by destruct (rev l). Qed.

Lemma findall_from_sound s cur t :
  t ∈ findall_from isalnum cur s →
  (∃ acc w rest,
     cur = Some acc ∧ s = w ++ rest
     ∧ Forall (λ c, is_w isalnum c = true) w ∧ ends_w isalnum rest
     ∧ rev acc ++ w ≠ [] ∧ t = HASH :: rev acc ++ w)
  ∨ hashtag_at isalnum s t.
Proof.
  revert cur. induction s as [|c s IH]; intros cur; cbn [Ingestion.findall_from].
  { destruct cur as [acc|]; [|by intros ?%elem_of_nil].
    intros [Hne%rev_ne ->]%emit_elem. left. exists acc, [], [].
    split_and!; rewrite ?app_nil_r; done. }
  assert (t ∈ findall_from isalnum (if (c =? HASH)%N then Some [] else None) s →
          hashtag_at isalnum (c :: s) t) as Hnext.
  { destruct (N.eqb_spec c HASH) as [-> | _].
    - intros [(acc & w & rest & [= <-] & -> & Hw & Hrest & Hne & ->) | Ht]%IH.
      + exists [], w, rest. by split_and!.
      + by apply hashtag_at_cons.
    - intros [(acc & w & rest & [=] & _) | Ht]%IH. by apply hashtag_at_cons. }
  destruct cur as [acc|]; [|by right; apply Hnext].
  destruct (is_w isalnum c) eqn:Hc.
  - intros [(acc' & w & rest & [= <-] & -> & Hw & Hrest & Hne & ->) | Ht]%IH.
    + left. exists acc, (c :: w), rest. cbn [rev] in *.
      rewrite <- app_assoc in *. by split_and!; [..|constructor| | |].
    + right. by apply hashtag_at_cons.
  - intros [[Hne ->]%emit_elem | Ht]%elem_of_app; [|by right; apply Hnext].
    apply rev_ne in Hne.
    left. exists acc, [], (c :: s). split_and!; rewrite ?app_nil_r; done.
Qed.

Lemma findall_from_run acc w rest :
  is_w isalnum HASH = false →
  Forall (λ c, is_w isalnum c = true) w → ends_w isalnum rest → rev acc ++ w ≠ [] →
  HASH :: rev acc ++ w ∈ findall_from isalnum (Some acc) (w ++ rest).
Proof.
  intros Hh Hw. revert acc. induction Hw as [|c w Hc Hw IH]; intros acc Hrest Hne.
  - rewrite app_nil_r in *. cbn [app].
    assert (HASH :: rev acc ∈ emit acc) as Hemit.
    { apply emit_elem. split; [|done]. intros ->. done. }
    destruct rest as [|c rest]; cbn [Ingestion.findall_from]; [done|].
    simpl in Hrest. rewrite Hrest. apply elem_of_app. by left.
  - cbn [app Ingestion.findall_from]. rewrite Hc.
    replace (rev acc ++ c :: w) with (rev (c :: acc) ++ w)
      by (cbn [rev]; by rewrite <- app_assoc).
    apply IH; [done|]. cbn [rev]. rewrite <- app_assoc. by destruct (rev acc).
Qed.

Lemma findall_from_complete s cur t :
  is_w isalnum HASH = false → hashtag_at isalnum s t → t ∈ findall_from isalnum cur s.
Proof.
  intros Hh (pre & w & rest & -> & Hne & Hw & Hrest & ->).
  revert cur. induction pre as [|c pre IH]; intros cur.
  - cbn [app Ingestion.findall_from]. rewrite Hh, N.eqb_refl.
    assert (HASH :: w ∈ findall_from isalnum (Some []) (w ++ rest)) as Hin.
    { apply (findall_from_run [] w rest); try done. }
    destruct cur; [apply elem_of_app; by right | done].
  - cbn [app Ingestion.findall_from].
    destruct cur as [acc|]; [|apply IH].
    destruct (is_w isalnum c); [apply IH|]. apply elem_of_app. right. apply IH.
Qed.

Lemma findall_sound s t : t ∈ findall isalnum s → hashtag_at isalnum s t.
Proof.
  intros [(acc & _ & _ & [=] & _) | Ht]%findall_from_sound. done.
Qed.

Lemma join_nil_iff sep (l : list pystr) :
  Forall (λ t, t ≠ []) l → join sep l = [] ↔ l = [].
Proof.
  intros Hl. split; [|by intros ->].
  destruct Hl as [|t l Ht _]; [done|]. rewrite join_step. by destruct t.
Qed.

Lemma findall_nonempty s : Forall (λ t, t ≠ []) (findall isalnum s).
Proof.
  apply Forall_forall. intros t (pre & w & rest & _ & _ & _ & _ & ->)%findall_sound.
  done.
Qed.

End Hashtags.

(** X17.  Whatever the class of word characters, every hashtag found in a
    text is a [#] of the text followed by its non-empty, longest run of
    word characters, the [#] included and the case kept.  The hashtags cell
    of a row is empty exactly when the text holds no hashtag and the video
    has no tags; without a hashtag in the text it lists the first five tags
    at most, each behind a [#]. *)
Theorem findall_hashtags_shape (isalnum : N → bool) :
  (∀ s t, t ∈ Ingestion.findall isalnum s → hashtag_at isalnum s t)
  ∧ (∀ title description tags,
       Ingestion.hashtags_cell isalnum title description tags = []
       ↔ Ingestion.findall isalnum (Ingestion.full_text title description) = []
         ∧ default [] tags = [])
  ∧ (∀ title description tags,
       Ingestion.findall isalnum (Ingestion.full_text title description) = [] →
       Ingestion.hashtags_cell isalnum title description (Some tags)
       = join (py ",") (map (λ tag, HASH :: tag) (take 5 tags)))
  ∧ (∀ title description tags,
       Ingestion.findall isalnum (Ingestion.full_text title description) ≠ [] →
       Ingestion.hashtags_cell isalnum title description tags
       = Ingestion.extract_hashtags isalnum
           (Ingestion.full_text title description)).
Proof.
  split; [apply findall_sound|].
  assert (∀ s, Ingestion.extract_hashtags isalnum s = []
               ↔ Ingestion.findall isalnum s = []) as Hnil.
  { intros s. apply join_nil_iff, findall_nonempty. }
  assert (∀ t ts, join (py ",") (map (λ tag, HASH :: tag) (take 5 (t :: ts))) ≠ [])
    as Hfb.
  { intros t ts. change (take 5 (t :: ts)) with (t :: take 4 ts).
    cbn [map]. by rewrite join_step. }
  split_and!.
  - intros title description tags. unfold Ingestion.hashtags_cell.
    destruct (Ingestion.extract_hashtags isalnum _) as [|c cell] eqn:Hcell.
    + apply Hnil in Hcell. destruct tags as [[|t ts]|]; cbn [default].
      * by rewrite Hcell.
      * split; [by intros ?%Hfb | by intros [_ ?]].
      * by rewrite Hcell.
    + split; [done|]. intros [Hf%Hnil _]. congruence.
  - intros title description tags Hf%Hnil. unfold Ingestion.hashtags_cell.
    rewrite Hf. by destruct tags.
  - intros title description tags Hf. unfold Ingestion.hashtags_cell.
    destruct (Ingestion.extract_hashtags isalnum _) as [|c cell] eqn:Hcell; [|done].
    by apply Hnil in Hcell.
Qed.

(** X18.  With a class of word characters that holds neither [#] nor the
    comma, as that of [\w] does, the hashtags found are exactly the [#] of
    the text that a word character follows, each with its longest run; and
    the comma-joined cell gives the list back: equal cells come from equal
    lists of hashtags. *)
Theorem findall_hashtags_exact (isalnum : N → bool) :
  isalnum HASH = false → isalnum 44%N = false →
  (∀ s t, t ∈ Ingestion.findall isalnum s ↔ hashtag_at isalnum s t)
  ∧ (∀ s1 s2,
       Ingestion.extract_hashtags isalnum s1 = Ingestion.extract_hashtags isalnum s2 →
       Ingestion.findall isalnum s1 = Ingestion.findall isalnum s2).
Proof.
  intros Hh Hc.
  assert (Ingestion.is_w isalnum HASH = false) as Hh'
    by (unfold Ingestion.is_w; by rewrite Hh).
  split.
  - intros s t. split; [apply findall_sound|]. by apply findall_from_complete.
  - assert (∀ s, Forall comma_free (Ingestion.findall isalnum s)) as Hfree.
    { intros s. apply Forall_forall.
      intros t (pre & w & rest & _ & _ & Hw & _ & ->)%findall_sound.
      split; [done|]. constructor; [done|].
      eapply Forall_impl; [exact Hw|]. intros c Hw' ->.
      unfold Ingestion.is_w in Hw'. by rewrite Hc in Hw'. }
    intros s1 s2. by apply join_comma_inj.
Qed.

Lemma findall_hashtags_exact_witness :
  ascii_alnum HASH = false ∧ ascii_alnum 44%N = false
  ∧ Ingestion.findall ascii_alnum (py "New #AI tool. a#b ## #x_1, #") 
    = [py "#AI"; py "#b"; py "#x_1"]
  ∧ (∀ s t, t ∈ Ingestion.findall ascii_alnum s ↔ hashtag_at ascii_alnum s t)
  ∧ (∀ s1 s2,
       Ingestion.extract_hashtags ascii_alnum s1
       = Ingestion.extract_hashtags ascii_alnum s2 →
       Ingestion.findall ascii_alnum s1 = Ingestion.findall ascii_alnum s2).
Proof.
  split; [reflexivity|]. split; [reflexivity|]. split; [reflexivity|].
  exact (findall_hashtags_exact ascii_alnum eq_refl eq_refl).
Defined.

(** ** Upserts *)

Section Upsert.

Import Mongo.

Variable k : pystr.

Lemma update_one_ids v f c :
  f !! k = Some v →
  ids k (update_one k v f c)
  = if bool_decide (v ∈ ids k c) then ids k c else ids k c ++ [v].
Proof.
  intros Hf. unfold ids. induction c as [|d c IH]; cbn [update_one omap list_omap].
  - rewrite (lookup_union_Some_l _ _ _ _ Hf). cbn.
    rewrite bool_decide_eq_false_2; [done|]. by intros ?%elem_of_nil.
  - destruct (matches k v d) eqn:Hd; unfold matches in Hd.
    + apply bool_decide_eq_true_1 in Hd.
      cbn [omap list_omap]. rewrite (lookup_union_Some_l _ _ _ _ Hf), Hd.
      rewrite bool_decide_eq_true_2; [done|]. left.
    + apply bool_decide_eq_false_1 in Hd.
      cbn [omap list_omap]. rewrite IH.
      destruct (d !! k) as [x|] eqn:Hx; [|done].
      assert (x ≠ v) by congruence.
      destruct (decide (v ∈ omap (λ d0 : doc, d0 !! k) c)) as [Hin|Hin].
      * rewrite !bool_decide_eq_true_2; [done| by right | done].
      * rewrite !bool_decide_eq_false_2; [done| | done].
        by intros [?|?]%elem_of_cons.
Qed.

Lemma update_one_length v f c :
  f !! k = Some v →
  length (update_one k v f c)
  = (length c + if bool_decide (v ∈ ids k c) then 0 else 1)%nat.
Proof.
  intros Hf. unfold ids. induction c as [|d c IH]; cbn [update_one omap list_omap].
  - rewrite bool_decide_eq_false_2; [done|]. by intros ?%elem_of_nil.
  - destruct (matches k v d) eqn:Hd; unfold matches in Hd.
    + apply bool_decide_eq_true_1 in Hd.
      rewrite Hd. rewrite bool_decide_eq_true_2; [simpl; lia|]. left.
    + apply bool_decide_eq_false_1 in Hd.
      cbn [length]. rewrite IH.
      destruct (d !! k) as [x|] eqn:Hx; [|done].
      assert (x ≠ v) by congruence.
      destruct (decide (v ∈ omap (λ d0 : doc, d0 !! k) c)) as [Hin|Hin].
      * rewrite !bool_decide_eq_true_2; [done| by right | done].
      * rewrite !bool_decide_eq_false_2; [done| | done].
        by intros [?|?]%elem_of_cons.
Qed.

Lemma find_one_update_same v f c :
  f !! k = Some v →
  find_one k v (update_one k v f c)
  = Some (f ∪ default {[ k := v ]} (find_one k v c)).
Proof.
  intros Hf. unfold find_one.
  assert (∀ m : doc, matches k v (f ∪ m) = true) as Hm.
  { intros m. unfold matches. apply bool_decide_eq_true_2.
    by apply lookup_union_Some_l. }
  induction c as [|d c IH]; cbn [update_one].
  - rewrite filter_cons_True by apply Hm. done.
  - destruct (matches k v d) eqn:Hd.
    + rewrite filter_cons_True by apply Hm.
      rewrite (filter_cons_True _ d) by done. done.
    + rewrite !filter_cons_False by (by rewrite Hd). apply IH.
Qed.

Lemma find_one_update_other v v' f c :
  f !! k = Some v → v' ≠ v →
  find_one k v' (update_one k v f c) = find_one k v' c.
Proof.
  intros Hf Hv. unfold find_one.
  assert (∀ m : doc, matches k v' (f ∪ m) = false) as Hm.
  { intros m. unfold matches. apply bool_decide_eq_false_2.
    rewrite (lookup_union_Some_l _ _ _ _ Hf). congruence. }
  induction c as [|d c IH]; cbn [update_one].
  - rewrite filter_cons_False by (by rewrite Hm). done.
  - destruct (matches k v d) eqn:Hd.
    + rewrite filter_cons_False by (by rewrite Hm).
      rewrite filter_cons_False; [done|].
      unfold matches in *. apply bool_decide_eq_true_1 in Hd.
      rewrite bool_decide_eq_false_2; [done|]. congruence.
    + destruct (matches k v' d) eqn:Hd'.
      * by rewrite !filter_cons_True by done.
      * rewrite !filter_cons_False by (by rewrite Hd'). apply IH.
Qed.

Lemma apply_all_length ups c :
  Forall (λ u, u.2 !! k = Some u.1) ups →
  (length c ≤ length (apply_all k ups c) ≤ length c + length ups)%nat.
Proof.
  unfold apply_all. intros Hups. revert c.
  induction Hups as [|[v f] ups Hu _ IH]; intros c; simpl; [lia|].
  pose proof (IH (update_one k v f c)) as H.
  rewrite update_one_length in H by done. case_bool_decide; lia.
Qed.

Lemma apply_all_ids ups c :
  Forall (λ u, u.2 !! k = Some u.1) ups →
  (NoDup (ids k c) → NoDup (ids k (apply_all k ups c)))
  ∧ (∀ x, x ∈ ids k (apply_all k ups c) ↔ x ∈ ids k c ∨ x ∈ map fst ups).
Proof.
  unfold apply_all. intros Hups. revert c.
  induction Hups as [|[v f] ups Hu _ IH]; intros c; simpl.
  { split; [done|]. intros x. split; [by left | intros [?|?%elem_of_nil]; done]. }
  destruct (IH (update_one k v f c)) as [IH1 IH2].
  simpl in Hu. split.
  - intros Hnd. apply IH1. rewrite update_one_ids by done.
    case_bool_decide; [done|]. apply NoDup_app. split_and!; [done| |apply NoDup_singleton].
    intros x Hx ->%list_elem_of_singleton. done.
  - intros x. rewrite IH2, update_one_ids by done.
    case_bool_decide as Hin.
    + split; [intros [?|?]; [by left|right; by right]|].
      intros [?|[->|?]%elem_of_cons]; [by left|by left|by right].
    + rewrite elem_of_app, list_elem_of_singleton.
      split; [intros [[? | ->]|?]; [by left|right; left|right; by right]|].
      intros [?|[->|?]%elem_of_cons]; [left; by left|left; by right|by right].
Qed.

Lemma apply_all_full ups c :
  Forall (λ u, u.2 !! k = Some u.1) ups →
  length (apply_all k ups c) = (length c + length ups)%nat
  ↔ NoDup (map fst ups) ∧ ∀ x, x ∈ map fst ups → x ∉ ids k c.
Proof.
  intros Hups. revert c.
  induction Hups as [|[v f] ups Hu Hups IH]; intros c.
  { simpl. split; [intros _|intros _; lia]. split; [constructor|].
    by intros x ?%elem_of_nil. }
  simpl in Hu. change (apply_all k ((v, f) :: ups) c)
    with (apply_all k ups (update_one k v f c)).
  pose proof (apply_all_length ups (update_one k v f c) Hups) as Hb.
  pose proof (update_one_length v f c Hu) as Hl.
  pose proof (update_one_ids v f c Hu) as Hi.
  cbn [map fst length]. rewrite NoDup_cons.
  case_bool_decide as Hin.
  - split; [lia|]. intros [_ Hout]. exfalso. eapply Hout; [left|done].
  - split.
    + intros Hlen. assert (length (apply_all k ups (update_one k v f c))
        = (length (update_one k v f c) + length ups)%nat) as [Hnd Hout]%IH by lia.
      rewrite Hi in Hout. split_and!; [|done|].
      * intros Hv. apply (Hout v Hv). apply elem_of_app. right. left.
      * intros x [->|Hx]%elem_of_cons; [done|].
        intros Hc. apply (Hout x Hx). apply elem_of_app. by left.
    + intros [[Hv Hnd] Hout].
      assert (length (apply_all k ups (update_one k v f c))
        = (length (update_one k v f c) + length ups)%nat) as ->; [|lia].
      apply IH. split; [done|]. intros x Hx. rewrite Hi.
      intros [Hc | ->%list_elem_of_singleton]%elem_of_app; [|done].
      apply (Hout x); [by right|done].
Qed.

Lemma find_one_apply_other v ups c :
  Forall (λ u, u.2 !! k = Some u.1) ups → v ∉ map fst ups →
  find_one k v (apply_all k ups c) = find_one k v c.
Proof.
  unfold apply_all. intros Hups. revert c.
  induction Hups as [|[v' f] ups Hu _ IH]; intros c Hv; simpl; [done|].
  simpl in Hv, Hu. rewrite IH by (intros ?; apply Hv; by right).
  apply find_one_update_other; [done|]. intros ->. apply Hv. left.
Qed.

Lemma find_one_last_write pre v f post c :
  Forall (λ u, u.2 !! k = Some u.1) (pre ++ (v, f) :: post) →
  v ∉ map fst post →
  find_one k v (apply_all k (pre ++ (v, f) :: post) c)
  = Some (f ∪ default {[ k := v ]} (find_one k v (apply_all k pre c))).
Proof.
  intros [Hpre [Hf Hpost]%Forall_cons]%Forall_app Hv.
  unfold apply_all. rewrite fold_left_app. cbn [fold_left fst snd].
  fold (apply_all k pre c).
  change (fold_left ?g post ?x) with (apply_all k post x).
  rewrite find_one_apply_other by done. by apply find_one_update_same.
Qed.

End Upsert.

(** ** The videos of a query, stored *)

Lemma ingestion_doc_id q now v :
  Ingestion.video_doc q now v !! py "video_id"
  = Some (Mongo.BStr (Ingestion.id v)).
Proof. reflexivity. Qed.

Lemma loader_doc_id q now v :
  Loader.video_doc q now v !! py "video_id" = Some (Mongo.BStr (Loader.id v)).
Proof. reflexivity. Qed.

Lemma ingestion_writes_keyed q now vs :
  Forall (λ u, u.2 !! py "video_id" = Some u.1) (ingestion_writes q now vs).
Proof.
  unfold ingestion_writes. apply Forall_forall.
  intros u (v & <- & _)%list_elem_of_In%in_map_iff. apply ingestion_doc_id.
Qed.

Lemma save_videos_fold isalnum q now vs st :
  Ingestion.ws (Ingestion.save_videos isalnum q now vs st)
  = Ingestion.ws st ++ map (Ingestion.sheet_row isalnum q) vs
  ∧ Ingestion.db (Ingestion.save_videos isalnum q now vs st)
    = apply_all (py "video_id") (ingestion_writes q now vs) (Ingestion.db st)
  ∧ Ingestion.total_videos (Ingestion.save_videos isalnum q now vs st)
    = (Ingestion.total_videos st + length vs)%nat.
Proof.
  unfold Ingestion.save_videos, apply_all, ingestion_writes. revert st.
  induction vs as [|v vs IH]; intros st; cbn [fold_left map length].
  { rewrite app_nil_r. split_and!; [done|done|lia]. }
  destruct (IH (Ingestion.save_video isalnum q now st v)) as (-> & -> & ->).
  cbn [Ingestion.save_video Ingestion.ws Ingestion.db Ingestion.total_videos
       fst snd].
  rewrite <- app_assoc. split_and!; [done|done|lia].
Qed.






(** * The CSV export of a collection *)

Lemma dict_to_list_spec fs d :
  (fits fs d ∧ CsvExport.dict_to_list fs d = Some (cells fs d))
  ∨ (¬ fits fs d ∧ CsvExport.dict_to_list fs d = None).
Proof.
  unfold CsvExport.dict_to_list, fits.
  destruct (forallb _ _) eqn:Hall.
  - left. split; [|done]. intros k Hk%list_elem_of_In.
    rewrite forallb_forall in Hall. by apply Hall, bool_decide_eq_true_1 in Hk.
  - right. split; [|done]. intros Hfit.
    assert (forallb (λ k, bool_decide (k ∈ fs)) (CsvExport.keys d) = true) as Ht.
    { apply forallb_forall. intros k Hk%list_elem_of_In.
      by apply bool_decide_eq_true_2, Hfit. }
    congruence.
Qed.

Lemma writerows_spec fs data :
  (Forall (fits fs) data
   ∧ CsvExport.writerows fs data = (map (cells fs) data, None))
  ∨ (∃ good bad rest,
       data = good ++ bad :: rest
       ∧ Forall (fits fs) good ∧ ¬ fits fs bad
       ∧ CsvExport.writerows fs data = (map (cells fs) good, Some ValueError)).
Proof.
  induction data as [|d data IH]; cbn [CsvExport.writerows].
  { left. split; [constructor|done]. }
  destruct (dict_to_list_spec fs d) as [[Hfit ->] | [Hbad ->]].
  - destruct IH as [[Hall ->] | (good & bad & rest & -> & Hgood & Hbad & ->)].
    + left. split; [by constructor|done].
    + right. exists (d :: good), bad, rest. split_and!; try done.
      by constructor.
  - right. exists [], d, data. split_and!; try done.
Qed.

(** X22.  The export of an empty collection opens no file and returns
    [None].  Otherwise the file starts with the field names - those given,
    or else the keys of the first document - and every row has one cell per
    field name, empty where the document lacks the field.  The export
    returns the number of documents exactly when no document has a key
    outside the field names, and then there is one row per document; the
    first document with such a key raises [ValueError], and the rows of the
    documents before it are all the file holds. *)
Theorem export_collection_outcome (data : list CsvExport.row_dict)
    (fields : option (list pystr)) :
  match data with
  | [] => CsvExport.export_collection_to_csv data fields = (None, Return None)
  | d0 :: _ =>
      let fs := fields_used fields d0 in
      ∃ rows out,
        CsvExport.export_collection_to_csv data fields
        = (Some {| CsvExport.header_row := fs; CsvExport.data_rows := rows |},
           out)
        ∧ Forall (λ row, length row = length fs) rows
        ∧ (out = Return (Some (length data)) ↔ Forall (fits fs) data)
        ∧ (Forall (fits fs) data → rows = map (cells fs) data)
        ∧ (¬ Forall (fits fs) data →
           out = Raise ValueError
           ∧ ∃ good bad rest,
               data = good ++ bad :: rest
               ∧ Forall (fits fs) good ∧ ¬ fits fs bad
               ∧ rows = map (cells fs) good)
  end.
Proof.
  destruct data as [|d0 data]; [done|].
  intros fs. unfold CsvExport.export_collection_to_csv.
  fold (fields_used fields d0). fold fs.
  assert (∀ l : list CsvExport.row_dict,
            Forall (λ row, length row = length fs) (map (cells fs) l)) as Hw.
  { intros l. apply Forall_forall.
    intros row (d & <- & _)%list_elem_of_In%in_map_iff.
    unfold cells. by rewrite length_map. }
  destruct (writerows_spec fs (d0 :: data))
    as [[Hall ->] | (good & bad & rest & Hdata & Hgood & Hbad & ->)].
  - eexists _, _. split; [done|]. split; [apply Hw|].
    split; [done|]. split; [done|]. done.
  - assert (¬ Forall (fits fs) (d0 :: data)) as Hnot.
    { rewrite Hdata. intros [_ [? _]%Forall_cons]%Forall_app. done. }
    eexists _, _. split; [done|]. split; [apply Hw|].
    split; [split; [done|by intros ?]|]. split; [by intros ?|].
    intros _. split; [done|]. by exists good, bad, rest.
Qed.

Lemma writerows_foreign_key fs rest rows out :
  CsvExport.writerows fs rest = (rows, out) →
  (out = Some ValueError ↔ ∃ d k, d ∈ rest ∧ k ∈ CsvExport.keys d ∧ k ∉ fs)
  ∧ (out = None ∨ out = Some ValueError).
Proof.
  destruct (writerows_spec fs rest)
    as [[Hall ->] | (good & bad & rest' & Hdata & Hgood & Hbad & ->)].
  - intros [= <- <-]. split; [|by left]. split; [done|].
    intros (d & k & Hd & Hk & Hout). rewrite Forall_forall in Hall.
    destruct Hout. by apply (Hall d).
  - intros [= <- <-]. split; [|by right]. split; [|done]. intros _.
    unfold fits in Hbad.
    destruct (decide (Forall (λ k, k ∈ fs) (CsvExport.keys bad))) as [Hall | Hex].
    + destruct Hbad. intros k Hk. rewrite Forall_forall in Hall. by apply Hall.
    + apply not_Forall_Exists in Hex; [|apply _].
      apply Exists_exists in Hex as (k & Hk & Hout).
      exists bad, k. split; [|done]. rewrite Hdata. apply elem_of_app. right. left.
Qed.

Lemma dict_to_list_own_keys d0 :
  CsvExport.dict_to_list (CsvExport.keys d0) d0
  = Some (cells (CsvExport.keys d0) d0).
Proof.
  destruct (dict_to_list_spec (CsvExport.keys d0) d0) as [[_ ->] | [Hbad _]];
    [done|]. destruct Hbad. by intros k.
Qed.

(** X23.  With no field names given, the first document sets the columns:
    it always gets its row, and the export fails, with [ValueError], exactly
    when a later document has a key the first one lacks; otherwise it
    returns the number of documents. *)
Theorem export_default_fields (d0 : CsvExport.row_dict)
    (rest : list CsvExport.row_dict) :
  ∃ rows out,
    CsvExport.export_collection_to_csv (d0 :: rest) None
    = (Some {| CsvExport.header_row := CsvExport.keys d0;
               CsvExport.data_rows := cells (CsvExport.keys d0) d0 :: rows |},
       out)
    ∧ (out = Raise ValueError
       ↔ ∃ d k, d ∈ rest ∧ k ∈ CsvExport.keys d ∧ k ∉ CsvExport.keys d0)
    ∧ (out = Raise ValueError ∨ out = Return (Some (S (length rest)))).
Proof.
  unfold CsvExport.export_collection_to_csv. cbn [CsvExport.writerows].
  rewrite dict_to_list_own_keys.
  destruct (CsvExport.writerows (CsvExport.keys d0) rest) as [rows e] eqn:Hw.
  destruct (writerows_foreign_key _ _ _ _ Hw) as [Hiff [-> | ->]].
  - eexists _, _. split; [done|]. rewrite <- Hiff. split; [done|by right].
  - eexists _, _. split; [done|]. rewrite <- Hiff. split; [done|by left].
Qed.

(** X24.  The export of the videos fails once the collection lists first a
    video that only the older loader stored and, after it, a video the newer
    loader wrote to: the newer loader sets [url], which the older one never
    sets, so that document has a key outside the columns. *)
Theorem export_fails_on_mixed_documents (d0 d : CsvExport.row_dict)
    (rest : list CsvExport.row_dict) (q1 q2 : pystr) (t1 t2 : Z)
    (v1 : Loader.video) (v2 : Ingestion.video) :
  list_to_map d0 = Loader.video_doc q1 t1 v1 →
  d ∈ rest →
  Ingestion.video_doc q2 t2 v2 ⊆ list_to_map d →
  snd (CsvExport.export_collection_to_csv (d0 :: rest) None) = Raise ValueError.
Proof.
  intros Hd0 Hd Hsub.
  assert (py "url" ∈ CsvExport.keys d) as Hin.
  { assert ((list_to_map d : gmap pystr Mongo.bson) !! py "url"
            = Some (Mongo.BStr (Ingestion.url_of v2))) as Hurl.
    { eapply lookup_weaken; [|exact Hsub]. reflexivity. }
    apply elem_of_list_to_map_2 in Hurl.
    unfold CsvExport.keys. apply list_elem_of_In, in_map_iff.
    eexists. split; [|by apply list_elem_of_In]. done. }
  assert (py "url" ∉ CsvExport.keys d0) as Hout.
  { assert (Loader.video_doc q1 t1 v1 !! py "url" = None) as Hnone by reflexivity.
    rewrite <- Hd0 in Hnone. by apply not_elem_of_list_to_map_2 in Hnone. }
  unfold CsvExport.export_collection_to_csv. cbn [CsvExport.writerows].
  rewrite dict_to_list_own_keys.
  destruct (CsvExport.writerows (CsvExport.keys d0) rest) as [rows e] eqn:Hw.
  destruct (writerows_foreign_key _ _ _ _ Hw) as [Hiff _].
  assert (e = Some ValueError) as -> by (apply Hiff; by exists d, (py "url")).
  done.
Qed.

Lemma export_fails_on_mixed_documents_witness :
  let d0 := Loader.video_fields (py "Data") 0 sample_video_old in
  let d := Ingestion.video_fields (py "AI") 1 sample_video in
  list_to_map d0 = Loader.video_doc (py "Data") 0 sample_video_old
  ∧ d ∈ [d]
  ∧ Ingestion.video_doc (py "AI") 1 sample_video ⊆ list_to_map d
  ∧ snd (CsvExport.export_collection_to_csv (d0 :: [d]) None) = Raise ValueError.
Proof.
  intros d0 d.
  assert (list_to_map d0 = Loader.video_doc (py "Data") 0 sample_video_old)
    as H0 by reflexivity.
  assert (d ∈ [d]) as H1 by apply list_elem_of_here.
  assert (Ingestion.video_doc (py "AI") 1 sample_video ⊆ list_to_map d)
    as H2 by reflexivity.
  split; [exact H0|]. split; [exact H1|]. split; [exact H2|].
  exact (export_fails_on_mixed_documents d0 d [d] (py "Data") (py "AI") 0 1
           sample_video_old sample_video H0 H1 H2).
Defined.
